(** * CMT spike-triggered mixture model (STM): response, parameter packing,
      batched objective and gradient, regularisation and training shortcuts.

    Shallow embedding of [code/cmt/src/stm.cpp].  The source computes with
    [double]; the embedding is written once over an abstract scalar type
    (class [Scalar]) and read in two ways:
    - over the real numbers ([Scalar_R]), to settle what the code computes
      mathematically;
    - over a double-range arithmetic ([Scalar_double]) that keeps the special
      values of IEEE 754 (infinities, NaN, overflow beyond the largest finite
      double) and leaves rounding out, to settle overflow and NaN behaviour. *)

From Stdlib Require Import String.
From Stdlib Require Import Reals Lra Lia List ZArith Bool Permutation.
From Stdlib Require Import Psatz.
Import ListNotations.

Set Implicit Arguments.

(* ===================================================================== *)
(** * Scalars *)
(* ===================================================================== *)

(** The arithmetic the source uses on [double]. *)
Class Scalar (T : Type) := {
  sc_of_Z : Z -> T;            (* int -> double conversion, integer literals *)
  sc_add : T -> T -> T;
  sc_sub : T -> T -> T;
  sc_mul : T -> T -> T;
  sc_div : T -> T -> T;
  sc_neg : T -> T;
  sc_exp : T -> T;             (* std::exp *)
  sc_log : T -> T;             (* std::log *)
  sc_abs : T -> T;
  sc_ltb : T -> T -> bool;     (* a < b *)
  sc_leb : T -> T -> bool;     (* a <= b *)
  sc_neqb : T -> T -> bool;    (* a != b *)
  sc_max_value : T             (* numeric_limits<double>::max() *)
}.

(** Results of functions that may throw [Exception(msg)]. *)
Inductive result (A : Type) : Type :=
| Ok (a : A)
| Throw (msg : string).
Arguments Ok {A} a.
Arguments Throw {A} msg.

Definition bind {A B : Type} (r : result A) (k : A -> result B) : result B :=
  match r with
  | Ok a => k a
  | Throw msg => Throw msg
  end.

Notation "'do' x <- r ; k" := (bind r (fun x => k))
  (at level 10, x name, r at level 100, k at level 200).

(** [imap f l]: the list whose entry [k] is [f k (nth k l)]. *)
Definition imap {A B : Type} (f : nat -> A -> B) (l : list A) : list B :=
  map (fun p => f (fst p) (snd p)) (combine (seq 0 (length l)) l).

(** [zipWith f a b]: coefficient-wise combination of two arrays. *)
Definition zipWith {A B C : Type} (f : A -> B -> C) (a : list A) (b : list B)
  : list C :=
  map (fun p => f (fst p) (snd p)) (combine a b).

(** The contribution of one block to the flat vector: a block that is not
    flagged contributes nothing. *)
Definition packed {T : Type} (flag : bool) (blk : list T) : list T :=
  if flag then blk else [].

Section Model.

Context {T : Type} {ST : Scalar T}.

Definition sc_zero : T := sc_of_Z 0.
Definition sc_square (x : T) : T := sc_mul x x.

(** Sum of the entries of an array. *)
Definition sum_list (l : list T) : T := fold_right sc_add sc_zero l.

(** [sum_n f n] is f 0 + ... + f (n-1). *)
Definition sum_n (f : nat -> T) (n : nat) : T := sum_list (map f (seq 0 n)).

(* ===================================================================== *)
(** * Dense matrices (Eigen's MatrixXd / ArrayXXd) *)
(* ===================================================================== *)

(** Column-major storage, as Eigen's default: entry (i, j) of a matrix with
    [rows] rows lives at position [i + j * rows] of [data]. *)
Record Matrix : Type := mkMatrix {
  rows : nat;
  cols : nat;
  data : list T
}.

Definition coeff (M : Matrix) (i j : nat) : T :=
  nth (i + j * rows M) (data M) sc_zero.

Definition size (M : Matrix) : nat := rows M * cols M.

(** The [r] x [c] matrix with entries [f i j]. *)
Definition mk_matrix (r c : nat) (f : nat -> nat -> T) : Matrix :=
  {| rows := r; cols := c;
     data := map (fun q => f (q mod r) (q / r)) (seq 0 (r * c)) |}.

(** Matrix product [A * B]. *)
Definition mmul (A B : Matrix) : Matrix :=
  mk_matrix (rows A) (cols B)
    (fun i j => sum_n (fun k => sc_mul (coeff A i k) (coeff B k j)) (cols A)).

Definition transpose (A : Matrix) : Matrix :=
  mk_matrix (cols A) (rows A) (fun i j => coeff A j i).

(** [A + B], coefficient-wise. *)
Definition madd (A B : Matrix) : Matrix :=
  mk_matrix (rows A) (cols A) (fun i j => sc_add (coeff A i j) (coeff B i j)).

(** Coefficient-wise product of two arrays. *)
Definition cwise_mul (A B : Matrix) : Matrix :=
  mk_matrix (rows A) (cols A) (fun i j => sc_mul (coeff A i j) (coeff B i j)).

(** Coefficient-wise application of [f] ([.array().square()], [.exp()]). *)
Definition cwise (f : T -> T) (A : Matrix) : Matrix :=
  mk_matrix (rows A) (cols A) (fun i j => f (coeff A i j)).

(** [s * A]. *)
Definition mscale (s : T) (A : Matrix) : Matrix :=
  cwise (sc_mul s) A.

(** [M.block(r0, c0, r, c)]. *)
Definition block (M : Matrix) (r0 c0 r c : nat) : Matrix :=
  mk_matrix r c (fun i j => coeff M (r0 + i) (c0 + j)).

Definition topRows (M : Matrix) (k : nat) : Matrix :=
  block M 0 0 k (cols M).

Definition bottomRows (M : Matrix) (k : nat) : Matrix :=
  block M (rows M - k) 0 k (cols M).

Definition middleCols (M : Matrix) (b w : nat) : Matrix :=
  block M 0 b (rows M) w.

(** [M.colwise() += v]. *)
Definition colwise_add (M : Matrix) (v : list T) : Matrix :=
  mk_matrix (rows M) (cols M)
    (fun i j => sc_add (coeff M i j) (nth i v sc_zero)).

(** [M.rowwise() - v] for a row vector [v]. *)
Definition rowwise_sub (M : Matrix) (v : list T) : Matrix :=
  mk_matrix (rows M) (cols M)
    (fun i j => sc_sub (coeff M i j) (nth j v sc_zero)).

(** [M.array().rowwise() * v] for a row array [v]. *)
Definition rowwise_mul (M : Matrix) (v : list T) : Matrix :=
  mk_matrix (rows M) (cols M)
    (fun i j => sc_mul (coeff M i j) (nth j v sc_zero)).

(** [M.rowwise().sum()]: one entry per row. *)
Definition rowwise_sum (M : Matrix) : list T :=
  map (fun i => sum_n (fun j => coeff M i j) (cols M)) (seq 0 (rows M)).

(** [v.transpose() * M]: one entry per column of [M]. *)
Definition vecmat (v : list T) (M : Matrix) : list T :=
  map (fun j => sum_n (fun k => sc_mul (nth k v sc_zero) (coeff M k j))
                  (length v))
      (seq 0 (cols M)).

(** [M * v.transpose()] for a row array [v]: one entry per row of [M]. *)
Definition matvec (M : Matrix) (v : list T) : list T :=
  map (fun i => sum_n (fun k => sc_mul (coeff M i k) (nth k v sc_zero))
                  (cols M))
      (seq 0 (rows M)).

(** Column [j] of [M]. *)
Definition column (M : Matrix) (j : nat) : list T :=
  map (fun i => coeff M i j) (seq 0 (rows M)).

(** [Map<Matrix>(ptr + offset, r, c)]: an [r] x [c] view over a flat array. *)
Definition map_view (x : list T) (offset r c : nat) : Matrix :=
  {| rows := r; cols := c; data := firstn (r * c) (skipn offset x) |}.

(** [Map<Vector>(ptr + offset, n)]. *)
Definition map_vector (x : list T) (offset n : nat) : list T :=
  firstn n (skipn offset x).

(* ===================================================================== *)
(** * Helpers of utils.h *)
(* ===================================================================== *)

Definition sc_max (a b : T) : T := if sc_ltb a b then b else a.

(** Largest entry of a non-empty array. *)
Definition maxCoeff (l : list T) : T :=
  match l with
  | [] => sc_zero
  | x :: tl => fold_left sc_max tl x
  end.

(** Modelled from the spec: [logSumExp] of utils.cpp is not part of the
    sources at hand.  Section 4.1: the logsumexp over components subtracts
    the per-column maximum before exponentiating. *)
Definition logSumExp_col (l : list T) : T :=
  let m := maxCoeff l in
  sc_add m (sc_log (sum_list (map (fun e => sc_exp (sc_sub e m)) l))).

Definition logSumExp (M : Matrix) : list T :=
  map (fun j => logSumExp_col (column M j)) (seq 0 (cols M)).

(** Modelled from the spec: [signum] of utils.cpp is not part of the sources
    at hand.  Section 4.6: the sign of a coefficient, the sign of 0 being 0. *)
Definition signum (x : T) : T :=
  if sc_ltb sc_zero x then sc_of_Z 1
  else if sc_ltb x sc_zero then sc_of_Z (-1)
  else sc_zero.

(* ===================================================================== *)
(** * Collaborators *)
(* ===================================================================== *)

(** [Nonlinearity] and its facets.  A facet the object does not implement
    ([dynamic_cast] yields a null pointer) is [None].  The array forms apply
    the scalar form to every entry. *)
Record Nonlinearity : Type := {
  nl_apply : T -> T;                  (* operator() *)
  nl_inverse : option (T -> T);       (* InvertibleNonlinearity::inverse *)
  nl_derivative : option (T -> T)     (* DifferentiableNonlinearity::derivative *)
}.

(** [UnivariateDistribution]: log-likelihood of a data point under a mean,
    and the derivative of the negative log-likelihood with respect to the
    mean; the array forms work entry by entry. *)
Record UnivariateDistribution : Type := {
  ud_logLikelihood : T -> T -> T;     (* data, mean *)
  ud_gradient : T -> T -> T           (* data, mean *)
}.

(* ===================================================================== *)
(** * The model *)
(* ===================================================================== *)

Record STM : Type := {
  mDimInNonlinear : nat;
  mDimInLinear : nat;
  mNumComponents : nat;
  mNumFeatures : nat;
  mBiases : list T;                   (* VectorXd, K *)
  mWeights : Matrix;                  (* K x F *)
  mFeatures : Matrix;                 (* D_nl x F *)
  mPredictors : Matrix;               (* K x D_nl *)
  mLinearPredictor : list T;          (* VectorXd, D_l *)
  mNonlinearity : Nonlinearity;
  mDistribution : UnivariateDistribution
}.

Definition dimInNonlinear (m : STM) : nat := mDimInNonlinear m.
Definition dimInLinear (m : STM) : nat := mDimInLinear m.
Definition numComponents (m : STM) : nat := mNumComponents m.
Definition numFeatures (m : STM) : nat := mNumFeatures m.

(** Modelled from the spec: the inline accessors of stm.h are not part of
    the sources at hand.  The total input dimensionality is the sum of the
    two input blocks; the output is scalar. *)
Definition dimIn (m : STM) : nat := dimInNonlinear m + dimInLinear m.
Definition dimOut (m : STM) : nat := 1.

(** The class invariant the constructors establish and the setters keep. *)
Record wf_STM (m : STM) : Prop := {
  wf_components : 1 <= mNumComponents m;
  wf_biases : length (mBiases m) = mNumComponents m;
  wf_weights_rows : rows (mWeights m) = mNumComponents m;
  wf_weights_cols : cols (mWeights m) = mNumFeatures m;
  wf_weights_data : length (data (mWeights m)) = mNumComponents m * mNumFeatures m;
  wf_features_rows : rows (mFeatures m) = mDimInNonlinear m;
  wf_features_cols : cols (mFeatures m) = mNumFeatures m;
  wf_features_data : length (data (mFeatures m)) = mDimInNonlinear m * mNumFeatures m;
  wf_predictors_rows : rows (mPredictors m) = mNumComponents m;
  wf_predictors_cols : cols (mPredictors m) = mDimInNonlinear m;
  wf_predictors_data : length (data (mPredictors m)) = mNumComponents m * mDimInNonlinear m;
  wf_linearPredictor : length (mLinearPredictor m) = mDimInLinear m
}.

(* ===================================================================== *)
(** * Response *)
(* ===================================================================== *)

(** The pooled bias of a model without nonlinear inputs:
    [numComponents() > 1 ? log(mBiases.array().exp().sum()) : mBiases[0]]. *)
Definition pooledBias (m : STM) : T :=
  if 1 <? numComponents m
  then sc_log (sum_list (map sc_exp (mBiases m)))
  else nth 0 (mBiases m) sc_zero.

(** [mWeights * (mFeatures^T * input).array().square().matrix()
     + mPredictors * input], then [.colwise() += mBiases]. *)
Definition jointEnergyOf (weights features predictors : Matrix)
    (biases : list T) (input : Matrix) : Matrix :=
  let jointEnergy :=
    mmul weights (cwise sc_square (mmul (transpose features) input)) in
  let jointEnergy := madd jointEnergy (mmul predictors input) in
  colwise_add jointEnergy biases.

(** Entry (c, n) of [jointEnergyOf], with the matrix products written as
    sums over their inner index. *)
Definition energyAt (weights features predictors : Matrix)
    (biases : list T) (X : Matrix) (c n : nat) : T :=
  sc_add
    (sc_add
       (sum_n (fun f =>
                 sc_mul (coeff weights c f)
                   (sc_square
                      (sum_n (fun d => sc_mul (coeff features d f)
                                              (coeff X d n))
                             (rows features))))
              (cols weights))
       (sum_n (fun d => sc_mul (coeff predictors c d) (coeff X d n))
              (cols predictors)))
    (nth c biases sc_zero).

(** The two overloads of [STM::response] call each other; [ResponseCall]
    names the overload and [response_rec] follows the calls. *)
Inductive ResponseCall : Type :=
| Response1 (input : Matrix)
| Response2 (inputNonlinear inputLinear : Matrix).

Fixpoint response_rec (fuel : nat) (m : STM) (call : ResponseCall)
  : option (result (list T)) :=
  match fuel with
  | O => None
  | S fuel =>
    match call with
    | Response1 input =>
      if negb (rows input =? dimIn m)
      then Some (Throw "Input has wrong dimensionality.")
      else if negb (dimInLinear m =? 0)
      then response_rec fuel m
             (Response2 (topRows input (dimInNonlinear m))
                        (bottomRows input (dimInLinear m)))
      else if dimIn m =? 0
      then Some (Ok (repeat (pooledBias m) (cols input)))
      else
        Some (Ok (logSumExp
          (jointEnergyOf (mWeights m) (mFeatures m) (mPredictors m)
                         (mBiases m) input)))
    | Response2 inputNonlinear inputLinear =>
      if dimInLinear m =? 0
      then response_rec fuel m (Response1 inputNonlinear)
      else if negb (rows inputNonlinear =? dimInNonlinear m)
              || negb (rows inputLinear =? dimInLinear m)
      then Some (Throw "Input has wrong dimensionality.")
      else if dimInNonlinear m =? 0
      then
        let bias := pooledBias m in
        Some (Ok (map (fun v => sc_add v bias)
                      (vecmat (mLinearPredictor m) inputLinear)))
      else
        Some (Ok (zipWith sc_add
          (logSumExp
            (jointEnergyOf (mWeights m) (mFeatures m) (mPredictors m)
                           (mBiases m) inputNonlinear))
          (vecmat (mLinearPredictor m) inputLinear)))
    end
  end.

(** Each overload reaches a result after at most one call of the other. *)
Definition response_fuel : nat := 2.

Definition run {A : Type} (r : option (result A)) : result A :=
  match r with
  | Some a => a
  | None => Throw "out of fuel"
  end.

Definition response (m : STM) (input : Matrix) : result (list T) :=
  run (response_rec response_fuel m (Response1 input)).

Definition response2 (m : STM) (inputNonlinear inputLinear : Matrix)
  : result (list T) :=
  run (response_rec response_fuel m (Response2 inputNonlinear inputLinear)).

(* ===================================================================== *)
(** * Log-likelihood *)
(* ===================================================================== *)

(** [mDistribution->logLikelihood(output, mNonlinearity->operator()(r))]. *)
Definition distLogLikelihood (m : STM) (output : Matrix) (r : list T)
  : list T :=
  zipWith (ud_logLikelihood (mDistribution m)) (data output)
          (map (nl_apply (mNonlinearity m)) r).

Inductive LogLikelihoodCall : Type :=
| LogLikelihood1 (input output : Matrix)
| LogLikelihood2 (inputNonlinear inputLinear output : Matrix).

Fixpoint logLikelihood_rec (fuel : nat) (m : STM) (call : LogLikelihoodCall)
  : option (result (list T)) :=
  match fuel with
  | O => None
  | S fuel =>
    match call with
    | LogLikelihood1 input output =>
      if negb (rows input =? dimIn m)
      then Some (Throw "Input has wrong dimensionality.")
      else if negb (dimInLinear m =? 0)
      then logLikelihood_rec fuel m
             (LogLikelihood2 (topRows input (dimInNonlinear m))
                             (bottomRows input (dimInLinear m)) output)
      else if negb (rows output =? dimOut m)
      then Some (Throw "Output has wrong dimensionality.")
      else if negb (cols input =? cols output)
      then Some (Throw "The number of inputs and outputs must be the same.")
      else Some (do r <- response m input; Ok (distLogLikelihood m output r))
    | LogLikelihood2 inputNonlinear inputLinear output =>
      if dimInLinear m =? 0
      then logLikelihood_rec fuel m (LogLikelihood1 inputNonlinear output)
      else if negb (rows output =? dimOut m)
      then Some (Throw "Output has wrong dimensionality.")
      else if negb (rows inputNonlinear =? dimInNonlinear m)
              || negb (rows inputLinear =? dimInLinear m)
      then Some (Throw "Input has wrong dimensionality.")
      else Some (do r <- response2 m inputNonlinear inputLinear;
                 Ok (distLogLikelihood m output r))
    end
  end.

Definition logLikelihood (m : STM) (input output : Matrix) : result (list T) :=
  run (logLikelihood_rec response_fuel m (LogLikelihood1 input output)).

Definition logLikelihood2 (m : STM) (inputNonlinear inputLinear output : Matrix)
  : result (list T) :=
  run (logLikelihood_rec response_fuel m
         (LogLikelihood2 inputNonlinear inputLinear output)).

(* ===================================================================== *)
(** * Training configuration *)
(* ===================================================================== *)

Inductive Regularizer : Type := L1 | L2.

(** [Trainable::Parameters]: of the base class only [batchSize] is read by
    the code embedded here. *)
Record TrainableParameters : Type := {
  batchSize : Z
}.

(** [STM::Parameters]. *)
Record Parameters : Type := {
  base : TrainableParameters;
  trainBiases : bool;
  trainWeights : bool;
  trainFeatures : bool;
  trainPredictors : bool;
  trainLinearPredictor : bool;
  regularizeWeights : T;
  regularizeFeatures : T;
  regularizePredictors : T;
  regularizeLinearPredictor : T;
  regularizer : Regularizer
}.

(* ===================================================================== *)
(** * Parameter packing *)
(* ===================================================================== *)

Definition numParameters (m : STM) (params : Parameters) : nat :=
  let numParams := 0 in
  let numParams :=
    if trainBiases params then numParams + length (mBiases m) else numParams in
  let numParams :=
    if trainWeights params then numParams + size (mWeights m) else numParams in
  let numParams :=
    if trainFeatures params then numParams + size (mFeatures m) else numParams in
  let numParams :=
    if trainPredictors params then numParams + size (mPredictors m)
    else numParams in
  let numParams :=
    if trainLinearPredictor params then numParams + length (mLinearPredictor m)
    else numParams in
  numParams.

(** The flat vector: every flagged block's [data()], in the fixed order. *)
Definition parameters (m : STM) (params : Parameters) : list T :=
  let x := [] in
  let x := if trainBiases params then x ++ mBiases m else x in
  let x := if trainWeights params then x ++ data (mWeights m) else x in
  let x := if trainFeatures params then x ++ data (mFeatures m) else x in
  let x := if trainPredictors params then x ++ data (mPredictors m) else x in
  let x :=
    if trainLinearPredictor params then x ++ mLinearPredictor m else x in
  x.

(** Offsets of the blocks inside the flat vector; each flagged block advances
    the offset by the size of its view. *)
Definition offsetWeights (m : STM) (params : Parameters) : nat :=
  if trainBiases params then mNumComponents m else 0.

Definition offsetFeatures (m : STM) (params : Parameters) : nat :=
  offsetWeights m params +
  (if trainWeights params then mNumComponents m * mNumFeatures m else 0).

Definition offsetPredictors (m : STM) (params : Parameters) : nat :=
  offsetFeatures m params +
  (if trainFeatures params then dimInNonlinear m * mNumFeatures m else 0).

Definition offsetLinearPredictor (m : STM) (params : Parameters) : nat :=
  offsetPredictors m params +
  (if trainPredictors params then mNumComponents m * dimInNonlinear m else 0).

Definition offsetEnd (m : STM) (params : Parameters) : nat :=
  offsetLinearPredictor m params +
  (if trainLinearPredictor params then dimInLinear m else 0).

(** Assignment to one parameter block of the model. *)
Definition assignBiases (m : STM) (v : list T) : STM :=
  {| mDimInNonlinear := mDimInNonlinear m; mDimInLinear := mDimInLinear m;
     mNumComponents := mNumComponents m; mNumFeatures := mNumFeatures m;
     mBiases := v; mWeights := mWeights m; mFeatures := mFeatures m;
     mPredictors := mPredictors m; mLinearPredictor := mLinearPredictor m;
     mNonlinearity := mNonlinearity m; mDistribution := mDistribution m |}.

Definition assignWeights (m : STM) (v : Matrix) : STM :=
  {| mDimInNonlinear := mDimInNonlinear m; mDimInLinear := mDimInLinear m;
     mNumComponents := mNumComponents m; mNumFeatures := mNumFeatures m;
     mBiases := mBiases m; mWeights := v; mFeatures := mFeatures m;
     mPredictors := mPredictors m; mLinearPredictor := mLinearPredictor m;
     mNonlinearity := mNonlinearity m; mDistribution := mDistribution m |}.

Definition assignFeatures (m : STM) (v : Matrix) : STM :=
  {| mDimInNonlinear := mDimInNonlinear m; mDimInLinear := mDimInLinear m;
     mNumComponents := mNumComponents m; mNumFeatures := mNumFeatures m;
     mBiases := mBiases m; mWeights := mWeights m; mFeatures := v;
     mPredictors := mPredictors m; mLinearPredictor := mLinearPredictor m;
     mNonlinearity := mNonlinearity m; mDistribution := mDistribution m |}.

Definition assignPredictors (m : STM) (v : Matrix) : STM :=
  {| mDimInNonlinear := mDimInNonlinear m; mDimInLinear := mDimInLinear m;
     mNumComponents := mNumComponents m; mNumFeatures := mNumFeatures m;
     mBiases := mBiases m; mWeights := mWeights m; mFeatures := mFeatures m;
     mPredictors := v; mLinearPredictor := mLinearPredictor m;
     mNonlinearity := mNonlinearity m; mDistribution := mDistribution m |}.

Definition assignLinearPredictor (m : STM) (v : list T) : STM :=
  {| mDimInNonlinear := mDimInNonlinear m; mDimInLinear := mDimInLinear m;
     mNumComponents := mNumComponents m; mNumFeatures := mNumFeatures m;
     mBiases := mBiases m; mWeights := mWeights m; mFeatures := mFeatures m;
     mPredictors := mPredictors m; mLinearPredictor := v;
     mNonlinearity := mNonlinearity m; mDistribution := mDistribution m |}.

Definition setParameters (m : STM) (x : list T) (params : Parameters) : STM :=
  let m :=
    if trainBiases params
    then assignBiases m (map_vector x 0 (mNumComponents m))
    else m in
  let m :=
    if trainWeights params
    then assignWeights m
           (map_view x (offsetWeights m params)
                     (mNumComponents m) (mNumFeatures m))
    else m in
  let m :=
    if trainFeatures params
    then assignFeatures m
           (map_view x (offsetFeatures m params)
                     (dimInNonlinear m) (mNumFeatures m))
    else m in
  let m :=
    if trainPredictors params
    then assignPredictors m
           (map_view x (offsetPredictors m params)
                     (mNumComponents m) (dimInNonlinear m))
    else m in
  let m :=
    if trainLinearPredictor params
    then assignLinearPredictor m
           (map_vector x (offsetLinearPredictor m params) (dimInLinear m))
    else m in
  m.

(* ===================================================================== *)
(** * Objective and gradient *)
(* ===================================================================== *)

(** Views over the flat vector [x] for the flagged blocks, over the model's
    own storage for the others. *)
Definition biasesView (m : STM) (params : Parameters) (x : list T) : list T :=
  map_vector (if trainBiases params then x else mBiases m)
             0 (mNumComponents m).

Definition weightsView (m : STM) (params : Parameters) (x : list T) : Matrix :=
  if trainWeights params
  then map_view x (offsetWeights m params) (mNumComponents m) (mNumFeatures m)
  else map_view (data (mWeights m)) 0 (mNumComponents m) (mNumFeatures m).

Definition featuresView (m : STM) (params : Parameters) (x : list T) : Matrix :=
  if trainFeatures params
  then map_view x (offsetFeatures m params) (dimInNonlinear m) (mNumFeatures m)
  else map_view (data (mFeatures m)) 0 (dimInNonlinear m) (mNumFeatures m).

Definition predictorsView (m : STM) (params : Parameters) (x : list T)
  : Matrix :=
  if trainPredictors params
  then map_view x (offsetPredictors m params)
                (mNumComponents m) (dimInNonlinear m)
  else map_view (data (mPredictors m)) 0
                (mNumComponents m) (dimInNonlinear m).

Definition linearPredictorView (m : STM) (params : Parameters) (x : list T)
  : list T :=
  if trainLinearPredictor params
  then map_vector x (offsetLinearPredictor m params) (dimInLinear m)
  else map_vector (mLinearPredictor m) 0 (dimInLinear m).

(** In-place updates of the entries [offset .. offset + length d) of the
    gradient buffer: [view -= d], [view += d], [view.setZero()]. *)
Definition inView (offset len k : nat) : bool :=
  (offset <=? k) && (k <? offset + len).

Definition view_sub (g : list T) (offset : nat) (d : list T) : list T :=
  imap (fun k v => if inView offset (length d) k
                   then sc_sub v (nth (k - offset) d sc_zero) else v) g.

Definition view_add (g : list T) (offset : nat) (d : list T) : list T :=
  imap (fun k v => if inView offset (length d) k
                   then sc_add v (nth (k - offset) d sc_zero) else v) g.

Definition view_setZero (g : list T) (offset len : nat) : list T :=
  imap (fun k v => if inView offset len k then sc_zero else v) g.

(** The state the batches share: the log-likelihood and, when gradients are
    requested, the gradient buffer [g]. *)
Definition Accumulator : Type := (T * option (list T))%type.

(** [min(max(params.batchSize, 10), numData)]. *)
Definition effectiveBatchSize (params : Parameters) (numData : nat) : nat :=
  Z.to_nat (Z.min (Z.max (batchSize (base params)) 10) (Z.of_nat numData)).

(** The batch starts [b = 0; b < numData; b += batchSize] in loop order. *)
Fixpoint batchStarts_from (fuel numData batchSize b : nat) : list nat :=
  match fuel with
  | O => []
  | S fuel =>
    if b <? numData
    then b :: batchStarts_from fuel numData batchSize (b + batchSize)
    else []
  end.

Definition batchStarts (numData batchSize : nat) : list nat :=
  batchStarts_from numData numData batchSize 0.

(** The body of the batch loop for the batch starting at column [b].  The
    locals [weightsOutput] and [predictorOutput] of the source are computed
    and never read; they are left out. *)
Definition batchStep (m : STM) (params : Parameters)
    (nonlinearity derivative : T -> T)
    (inputCompl outputCompl : Matrix) (x : list T)
    (batchSize : nat) (b : nat) (acc : Accumulator) : Accumulator :=
  let biases := biasesView m params x in
  let weights := weightsView m params x in
  let features := featuresView m params x in
  let predictors := predictorsView m params x in
  let linearPredictor := linearPredictorView m params x in
  let numData := cols inputCompl in
  let width := Nat.min batchSize (numData - b) in
  let inputNonlinear := block inputCompl 0 b (dimInNonlinear m) width in
  let inputLinear :=
    block inputCompl (dimInNonlinear m) b (dimInLinear m) width in
  let output := middleCols outputCompl b width in
  let featureOutput := mmul (transpose features) inputNonlinear in
  let featureOutputSq := cwise sc_square featureOutput in
  let jointEnergy :=
    madd (mmul weights featureOutputSq) (mmul predictors inputNonlinear) in
  let jointEnergy := colwise_add jointEnergy biases in
  let response := logSumExp jointEnergy in
  let posterior := cwise sc_exp (rowwise_sub jointEnergy response) in
  let response :=
    if negb (dimInLinear m =? 0)
    then zipWith sc_add response (vecmat linearPredictor inputLinear)
    else response in
  let logLikBatch :=
    sum_list (zipWith (ud_logLikelihood (mDistribution m)) (data output)
                      (map nonlinearity response)) in
  let logLik := sc_add (fst acc) logLikBatch in
  match snd acc with
  | None => (logLik, None)
  | Some g =>
    let tmp :=
      zipWith sc_mul
        (map sc_neg (zipWith (ud_gradient (mDistribution m)) (data output)
                             (map nonlinearity response)))
        (map derivative response) in
    let postTmp := rowwise_mul posterior tmp in
    let g :=
      if trainBiases params
      then view_sub g 0 (rowwise_sum postTmp) else g in
    let g :=
      if trainWeights params
      then view_sub g (offsetWeights m params)
             (data (mmul postTmp (transpose featureOutputSq)))
      else g in
    let g :=
      if trainFeatures params
      then
        let tmp2 := mmul (mscale (sc_of_Z 2) (transpose weights)) postTmp in
        let tmp3 := cwise_mul featureOutput tmp2 in
        view_sub g (offsetFeatures m params)
          (data (mmul inputNonlinear (transpose tmp3)))
      else g in
    let g :=
      if trainPredictors params
      then view_sub g (offsetPredictors m params)
             (data (mmul postTmp (transpose inputNonlinear)))
      else g in
    let g :=
      if trainLinearPredictor params && negb (dimInLinear m =? 0)
      then view_sub g (offsetLinearPredictor m params)
             (matvec inputLinear tmp)
      else g in
    (logLik, Some g)
  end.

(** [if(g) { ...setZero() }] for the flagged blocks. *)
Definition initGradient (m : STM) (params : Parameters) (g : list T)
  : list T :=
  let g :=
    if trainBiases params then view_setZero g 0 (mNumComponents m) else g in
  let g :=
    if trainWeights params
    then view_setZero g (offsetWeights m params)
           (mNumComponents m * mNumFeatures m)
    else g in
  let g :=
    if trainFeatures params
    then view_setZero g (offsetFeatures m params)
           (dimInNonlinear m * mNumFeatures m)
    else g in
  let g :=
    if trainPredictors params
    then view_setZero g (offsetPredictors m params)
           (mNumComponents m * dimInNonlinear m)
    else g in
  let g :=
    if trainLinearPredictor params
    then view_setZero g (offsetLinearPredictor m params) (dimInLinear m)
    else g in
  g.

(** The batch loop.  Under [#pragma omp parallel for] the batches run in an
    order the runtime chooses and every update of the shared accumulator sits
    in a critical section; [schedule] lists the batch starts in the order in
    which they take effect. *)
Definition accumulate (m : STM) (params : Parameters)
    (nonlinearity derivative : T -> T)
    (inputCompl outputCompl : Matrix) (x : list T) (g : option (list T))
    (schedule : list nat) : Accumulator :=
  let numData := cols inputCompl in
  let batchSize := effectiveBatchSize params numData in
  fold_left
    (fun acc b =>
       batchStep m params nonlinearity derivative inputCompl outputCompl x
                 batchSize b acc)
    schedule
    (sc_zero, option_map (initGradient m params) g).

(** [inputCompl.cols() * log(2.) * dimOut()]. *)
Definition normConst (m : STM) (inputCompl : Matrix) : T :=
  sc_mul (sc_mul (sc_of_Z (Z.of_nat (cols inputCompl)))
                 (sc_log (sc_of_Z 2)))
         (sc_of_Z (Z.of_nat (dimOut m))).

(** [for(int i = 0; i < offset; ++i) g[i] /= normConst]. *)
Definition normalizeGradient (offset : nat) (c : T) (g : list T) : list T :=
  imap (fun i v => if i <? offset then sc_div v c else v) g.

(** The gradient of the penalty, added to the views of the flagged blocks
    whose coefficient is positive. *)
Definition regularizeGradient (m : STM) (params : Parameters) (x : list T)
    (g : list T) : list T :=
  let weights := weightsView m params x in
  let features := featuresView m params x in
  let predictors := predictorsView m params x in
  let linearPredictor := linearPredictorView m params x in
  match regularizer params with
  | L1 =>
    let g :=
      if trainFeatures params && sc_ltb sc_zero (regularizeFeatures params)
      then view_add g (offsetFeatures m params)
             (data (mscale (regularizeFeatures params) (cwise signum features)))
      else g in
    let g :=
      if trainPredictors params && sc_ltb sc_zero (regularizePredictors params)
      then view_add g (offsetPredictors m params)
             (data (mscale (regularizePredictors params)
                           (cwise signum predictors)))
      else g in
    let g :=
      if trainWeights params && sc_ltb sc_zero (regularizeWeights params)
      then view_add g (offsetWeights m params)
             (data (mscale (regularizeWeights params) (cwise signum weights)))
      else g in
    let g :=
      if trainLinearPredictor params
         && sc_ltb sc_zero (regularizeLinearPredictor params)
      then view_add g (offsetLinearPredictor m params)
             (map (sc_mul (regularizeLinearPredictor params))
                  (map signum linearPredictor))
      else g in
    g
  | L2 =>
    let g :=
      if trainFeatures params && sc_ltb sc_zero (regularizeFeatures params)
      then view_add g (offsetFeatures m params)
             (data (mscale (sc_mul (regularizeFeatures params) (sc_of_Z 2))
                           features))
      else g in
    let g :=
      if trainPredictors params && sc_ltb sc_zero (regularizePredictors params)
      then view_add g (offsetPredictors m params)
             (data (mscale (sc_mul (regularizePredictors params) (sc_of_Z 2))
                           predictors))
      else g in
    let g :=
      if trainWeights params && sc_ltb sc_zero (regularizeWeights params)
      then view_add g (offsetWeights m params)
             (data (mscale (sc_mul (regularizeWeights params) (sc_of_Z 2))
                           weights))
      else g in
    let g :=
      if trainLinearPredictor params
         && sc_ltb sc_zero (regularizeLinearPredictor params)
      then view_add g (offsetLinearPredictor m params)
             (map (sc_mul (sc_mul (regularizeLinearPredictor params)
                                  (sc_of_Z 2)))
                  linearPredictor)
      else g in
    g
  end.

(** [M.array().abs().sum()] and [M.array().square().sum()]. *)
Definition absSum (M : Matrix) : T := sum_list (data (cwise sc_abs M)).
Definition squareSum (M : Matrix) : T := sum_list (data (cwise sc_square M)).

(** The penalty added to the normalised loss. *)
Definition regularizeValue (m : STM) (params : Parameters) (x : list T)
    (value : T) : T :=
  let weights := weightsView m params x in
  let features := featuresView m params x in
  let predictors := predictorsView m params x in
  let linearPredictor := linearPredictorView m params x in
  match regularizer params with
  | L1 =>
    let value :=
      if trainFeatures params && sc_ltb sc_zero (regularizeFeatures params)
      then sc_add value (sc_mul (regularizeFeatures params) (absSum features))
      else value in
    let value :=
      if trainPredictors params && sc_ltb sc_zero (regularizePredictors params)
      then sc_add value
             (sc_mul (regularizePredictors params) (absSum predictors))
      else value in
    let value :=
      if trainWeights params && sc_ltb sc_zero (regularizeWeights params)
      then sc_add value (sc_mul (regularizeWeights params) (absSum weights))
      else value in
    let value :=
      if trainLinearPredictor params
         && sc_ltb sc_zero (regularizeLinearPredictor params)
      then sc_add value
             (sc_mul (regularizeLinearPredictor params)
                     (sum_list (map sc_abs linearPredictor)))
      else value in
    value
  | L2 =>
    let value :=
      if trainFeatures params && sc_ltb sc_zero (regularizeFeatures params)
      then sc_add value
             (sc_mul (regularizeFeatures params) (squareSum features))
      else value in
    let value :=
      if trainPredictors params && sc_ltb sc_zero (regularizePredictors params)
      then sc_add value
             (sc_mul (regularizePredictors params) (squareSum predictors))
      else value in
    let value :=
      if trainWeights params && sc_ltb sc_zero (regularizeWeights params)
      then sc_add value (sc_mul (regularizeWeights params) (squareSum weights))
      else value in
    let value :=
      if trainLinearPredictor params
         && sc_ltb sc_zero (regularizeLinearPredictor params)
      then sc_add value
             (sc_mul (regularizeLinearPredictor params)
                     (sum_list (map sc_square linearPredictor)))
      else value in
    value
  end.

(** [if(value != value) value = numeric_limits<double>::max()]. *)
Definition nanGuard (value : T) : T :=
  if sc_neqb value value then sc_max_value else value.

(** [STM::parameterGradient] up to the final guard: the objective as computed
    and the gradient buffer as left behind. *)
Definition objectiveAndGradient (m : STM) (inputCompl outputCompl : Matrix)
    (x : list T) (g : option (list T)) (params : Parameters)
    (schedule : list nat) : result (T * option (list T)) :=
  match nl_derivative (mNonlinearity m) with
  | None => Throw "Nonlinearity has to be differentiable for training."
  | Some derivative =>
    let acc :=
      accumulate m params (nl_apply (mNonlinearity m)) derivative
                 inputCompl outputCompl x g schedule in
    let logLik := fst acc in
    let c := normConst m inputCompl in
    let g :=
      option_map
        (fun g => regularizeGradient m params x
                    (normalizeGradient (offsetEnd m params) c g))
        (snd acc) in
    let value := sc_div (sc_neg logLik) c in
    let value := regularizeValue m params x value in
    Ok (value, g)
  end.

(** [STM::parameterGradient] with the batches taking effect in the order
    [schedule]. *)
Definition parameterGradient_omp (m : STM) (inputCompl outputCompl : Matrix)
    (x : list T) (g : option (list T)) (params : Parameters)
    (schedule : list nat) : result (T * option (list T)) :=
  do r <- objectiveAndGradient m inputCompl outputCompl x g params schedule;
  Ok (nanGuard (fst r), snd r).

(** [STM::parameterGradient] with the batches in loop order. *)
Definition parameterGradient (m : STM) (inputCompl outputCompl : Matrix)
    (x : list T) (g : option (list T)) (params : Parameters)
  : result (T * option (list T)) :=
  parameterGradient_omp m inputCompl outputCompl x g params
    (batchStarts (cols inputCompl)
                 (effectiveBatchSize params (cols inputCompl))).

(* ===================================================================== *)
(** * Training *)
(* ===================================================================== *)

(** The generalized linear model of glm.h: its fields and accessors. *)
Record GLM : Type := {
  glm_dimIn : nat;
  glm_weights : list T;               (* weights() *)
  glm_bias : T;                       (* bias() *)
  glm_nonlinearity : Nonlinearity;
  glm_distribution : UnivariateDistribution
}.

(** [GLM::Parameters]: the base class and the two flags [STM::train] sets. *)
Record GLMParameters : Type := {
  glm_base : TrainableParameters;
  glm_trainWeights : bool;
  glm_trainBias : bool
}.

(** Modelled from the spec: the response of the plain-linear model (glm.cpp is
    not part of the sources at hand): the weights applied to the input, plus
    the bias. *)
Definition glmResponse (glm : GLM) (input : Matrix) : list T :=
  map (fun v => sc_add v (glm_bias glm)) (vecmat (glm_weights glm) input).

(** The literal [1e-50]. *)
Definition lit_1e_50 : T := sc_div (sc_of_Z 1) (sc_of_Z (10 ^ 50)).

(** [output.array().mean()]. *)
Definition arrayMean (M : Matrix) : T :=
  sc_div (sum_list (data M)) (sc_of_Z (Z.of_nat (size M))).

(** [v.setConstant(c)]. *)
Definition setConstant (v : list T) (c : T) : list T := map (fun _ => c) v.

Section Training.

(** What [STM::train] calls and stm.cpp does not define: the random draws of
    the GLM constructor, the default [GLM::Parameters], the training of the
    GLM (with or without validation data) and the general quasi-Newton
    training loop [Trainable::train]. *)
Variable glmRandomWeights : nat -> list T.
Variable glmRandomBias : T.
Variable glmDefaultParameters : GLMParameters.
Variable glmTrain :
  GLM -> Matrix -> Matrix -> option (Matrix * Matrix) -> GLMParameters ->
  result (bool * GLM).
Variable trainableTrain :
  STM -> Matrix -> Matrix -> option Matrix -> option Matrix -> Parameters ->
  result bool * STM.

(** [GLM glm(dimIn, nonlinearity, distribution)]. *)
Definition GLM_new (dimIn : nat) (nonlinearity : Nonlinearity)
    (distribution : UnivariateDistribution) : GLM :=
  {| glm_dimIn := dimIn;
     glm_weights := glmRandomWeights dimIn;
     glm_bias := glmRandomBias;
     glm_nonlinearity := nonlinearity;
     glm_distribution := distribution |}.

(** The configuration handed to the GLM. *)
Definition glmParametersOf (params : Parameters) : GLMParameters :=
  let glmParams :=
    {| glm_base := base params;
       glm_trainWeights := glm_trainWeights glmDefaultParameters;
       glm_trainBias := glm_trainBias glmDefaultParameters |} in
  let glmParams :=
    if trainLinearPredictor params
    then {| glm_base := glm_base glmParams;
            glm_trainWeights := true;
            glm_trainBias := glm_trainBias glmParams |}
    else glmParams in
  let glmParams :=
    if trainBiases params
    then {| glm_base := glm_base glmParams;
            glm_trainWeights := glm_trainWeights glmParams;
            glm_trainBias := true |}
    else glmParams in
  glmParams.

(** [STM::train(input, output, inputVal, outputVal, params)]: the result (or
    the exception thrown) and the model as the call leaves it. *)
Definition train (m : STM) (input output : Matrix)
    (inputVal outputVal : option Matrix) (params : Parameters)
  : result bool * STM :=
  if dimIn m =? 0 then
    (* STM reduces to univariate distribution *)
    match nl_inverse (mNonlinearity m) with
    | None => (Throw "Nonlinearity has to be invertible for training.", m)
    | Some inverse =>
      let mean := arrayMean output in
      let mean :=
        if sc_leb sc_zero mean && sc_ltb mean lit_1e_50
        then lit_1e_50 else mean in
      (Ok true,
       assignBiases m
         (setConstant (mBiases m)
            (sc_sub (inverse mean)
                    (sc_log (sc_of_Z (Z.of_nat (numComponents m)))))))
    end
  else if dimInNonlinear m =? 0 then
    if negb (dimInLinear m =? rows input)
    then (Throw "Input has wrong dimensionality.", m)
    else
      (* STM reduces to GLM *)
      let glm := GLM_new (dimInLinear m) (mNonlinearity m) (mDistribution m) in
      let glmParams := glmParametersOf params in
      let trained :=
        match inputVal, outputVal with
        | Some inputVal, Some outputVal =>
          glmTrain glm input output (Some (inputVal, outputVal)) glmParams
        | _, _ => glmTrain glm input output None glmParams
        end in
      match trained with
      | Throw msg => (Throw msg, m)
      | Ok (converged, glm) =>
        (* copy parameters *)
        let m := assignLinearPredictor m (glm_weights glm) in
        let m :=
          assignBiases m
            (setConstant (mBiases m)
               (sc_sub (glm_bias glm)
                       (sc_log (sc_of_Z (Z.of_nat (numComponents m)))))) in
        (Ok converged, m)
      end
  else
    trainableTrain m input output inputVal outputVal params.

End Training.

End Model.

Arguments Matrix T : clear implicits.
Arguments STM T : clear implicits.
Arguments Nonlinearity T : clear implicits.
Arguments UnivariateDistribution T : clear implicits.
Arguments Parameters T : clear implicits.
Arguments GLM T : clear implicits.
Arguments Accumulator T : clear implicits.

(* ===================================================================== *)
(** * Arithmetic over the real numbers *)
(* ===================================================================== *)

Open Scope R_scope.

(** The largest finite double, (2^53 - 1) * 2^971. *)
Definition DBL_MAX : R := IZR ((2 ^ 53 - 1) * 2 ^ 971).

(** Half the smallest positive [double], 2^-1075: a result that is not
    farther from zero rounds to zero. *)
Definition DBL_TINY : R := / IZR (2 ^ 1075).

Definition Rltb (a b : R) : bool := if Rlt_dec a b then true else false.
Definition Rleb (a b : R) : bool := if Rle_dec a b then true else false.
Definition Reqb (a b : R) : bool := if Req_dec_T a b then true else false.

#[export] Instance Scalar_R : Scalar R := {
  sc_of_Z := IZR;
  sc_add := Rplus;
  sc_sub := Rminus;
  sc_mul := Rmult;
  sc_div := Rdiv;
  sc_neg := Ropp;
  sc_exp := exp;
  sc_log := ln;
  sc_abs := Rabs;
  sc_ltb := Rltb;
  sc_leb := Rleb;
  sc_neqb := fun a b => negb (Reqb a b);
  sc_max_value := DBL_MAX
}.

(* ===================================================================== *)
(** * Double-range arithmetic *)
(* ===================================================================== *)

(** The values of a [double]: a finite value, an infinity or NaN.  Results
    are exact unless they leave the range of finite doubles, in which case
    they overflow to an infinity, or are no farther from zero than half the
    smallest positive double, in which case they underflow to zero, as
    IEEE 754 prescribes; rounding within the range and signed zeros are left
    out. *)
Inductive double : Type :=
| DFin (r : R)
| DInf (negative : bool)
| DNaN.

Definition dbl_round (r : R) : double :=
  if Rlt_dec DBL_MAX r then DInf false
  else if Rlt_dec r (- DBL_MAX) then DInf true
  else if Rle_dec (Rabs r) DBL_TINY then DFin 0
  else DFin r.

Definition dbl_neg (a : double) : double :=
  match a with
  | DFin x => DFin (- x)
  | DInf s => DInf (negb s)
  | DNaN => DNaN
  end.

Definition dbl_add (a b : double) : double :=
  match a, b with
  | DNaN, _ | _, DNaN => DNaN
  | DFin x, DFin y => dbl_round (x + y)
  | DFin _, DInf s => DInf s
  | DInf s, DFin _ => DInf s
  | DInf s, DInf t => if Bool.eqb s t then DInf s else DNaN
  end.

Definition dbl_sub (a b : double) : double := dbl_add a (dbl_neg b).

Definition dbl_mul (a b : double) : double :=
  match a, b with
  | DNaN, _ | _, DNaN => DNaN
  | DFin x, DFin y => dbl_round (x * y)
  | DFin x, DInf s => if Reqb x 0 then DNaN else DInf (xorb (Rltb x 0) s)
  | DInf s, DFin y => if Reqb y 0 then DNaN else DInf (xorb s (Rltb y 0))
  | DInf s, DInf t => DInf (xorb s t)
  end.

Definition dbl_div (a b : double) : double :=
  match a, b with
  | DNaN, _ | _, DNaN => DNaN
  | DFin x, DFin y =>
    if Reqb y 0
    then (if Reqb x 0 then DNaN else DInf (Rltb x 0))
    else dbl_round (x / y)
  | DFin _, DInf _ => DFin 0
  | DInf s, DFin y => DInf (xorb s (Rltb y 0))
  | DInf _, DInf _ => DNaN
  end.

Definition dbl_exp (a : double) : double :=
  match a with
  | DFin x => dbl_round (exp x)
  | DInf false => DInf false
  | DInf true => DFin 0
  | DNaN => DNaN
  end.

Definition dbl_log (a : double) : double :=
  match a with
  | DFin x =>
    if Rltb x 0 then DNaN
    else if Reqb x 0 then DInf true
    else DFin (ln x)
  | DInf false => DInf false
  | DInf true => DNaN
  | DNaN => DNaN
  end.

Definition dbl_abs (a : double) : double :=
  match a with
  | DFin x => DFin (Rabs x)
  | DInf _ => DInf false
  | DNaN => DNaN
  end.

Definition dbl_ltb (a b : double) : bool :=
  match a, b with
  | DNaN, _ | _, DNaN => false
  | DFin x, DFin y => Rltb x y
  | DFin _, DInf s => negb s
  | DInf s, DFin _ => s
  | DInf s, DInf t => s && negb t
  end.

Definition dbl_eqb (a b : double) : bool :=
  match a, b with
  | DNaN, _ | _, DNaN => false
  | DFin x, DFin y => Reqb x y
  | DInf s, DInf t => Bool.eqb s t
  | _, _ => false
  end.

Definition dbl_leb (a b : double) : bool := dbl_ltb a b || dbl_eqb a b.

#[export] Instance Scalar_double : Scalar double := {
  sc_of_Z := fun z => DFin (IZR z);
  sc_add := dbl_add;
  sc_sub := dbl_sub;
  sc_mul := dbl_mul;
  sc_div := dbl_div;
  sc_neg := dbl_neg;
  sc_exp := dbl_exp;
  sc_log := dbl_log;
  sc_abs := dbl_abs;
  sc_ltb := dbl_ltb;
  sc_leb := dbl_leb;
  sc_neqb := fun a b => negb (dbl_eqb a b);
  sc_max_value := DFin DBL_MAX
}.

Definition is_nan (a : double) : bool :=
  match a with
  | DNaN => true
  | _ => false
  end.

(* ===================================================================== *)
(** * The response as section 4.1 of the specification states it *)
(* ===================================================================== *)

(** The mathematical log-sum-exp. *)
Definition logsumexp (l : list R) : R := ln (sum_list (map exp l)).

Definition jointEnergy_spec (m : STM R) (X_nl : Matrix R) (c n : nat) : R :=
  sum_n (fun f =>
           coeff (mWeights m) c f *
           Rsqr (sum_n (fun d => coeff (mFeatures m) d f * coeff X_nl d n)
                       (mDimInNonlinear m)))
        (mNumFeatures m)
  + sum_n (fun d => coeff (mPredictors m) c d * coeff X_nl d n)
          (mDimInNonlinear m)
  + nth c (mBiases m) 0.

Definition response_spec (m : STM R) (X_nl X_l : Matrix R) (n : nat) : R :=
  logsumexp (map (fun c => jointEnergy_spec m X_nl c n)
                 (seq 0 (mNumComponents m)))
  + sum_n (fun d => nth d (mLinearPredictor m) 0 * coeff X_l d n)
          (mDimInLinear m).

(* ===================================================================== *)
(** * Collaborators and models used in examples *)
(* ===================================================================== *)

(** Modelled from the spec: nonlinearities.cpp is not part of the sources at
    hand.  Section 4.2: the exponential link [e^x], clamped below at
    [epsilon]; its derivative equals itself; its inverse is [ln]. *)
Definition exponentialFunction (epsilon : R) : Nonlinearity R :=
  {| nl_apply := fun x => Rmax (exp x) epsilon;
     nl_inverse := Some ln;
     nl_derivative := Some (fun x => Rmax (exp x) epsilon) |}.

(** A link that is differentiable but has no inverse facet. *)
Definition squareFunction : Nonlinearity R :=
  {| nl_apply := fun x => x * x;
     nl_inverse := None;
     nl_derivative := Some (fun x => 2 * x) |}.

(** Modelled from the spec: the Bernoulli distribution of section 4.3, with
    means clamped away from 0 and 1 by [epsilon]. *)
Definition clampMean (epsilon p : R) : R :=
  Rmin (Rmax p epsilon) (1 - epsilon).

Definition bernoulli (epsilon : R) : UnivariateDistribution R :=
  {| ud_logLikelihood := fun d p =>
       d * ln (clampMean epsilon p) + (1 - d) * ln (1 - clampMean epsilon p);
     ud_gradient := fun d p =>
       (clampMean epsilon p - d)
       / (clampMean epsilon p * (1 - clampMean epsilon p)) |}.

Definition defaultParameters : Parameters R :=
  {| base := {| batchSize := 2000 |};
     trainBiases := true;
     trainWeights := true;
     trainFeatures := true;
     trainPredictors := true;
     trainLinearPredictor := true;
     regularizeWeights := 0;
     regularizeFeatures := 0;
     regularizePredictors := 0;
     regularizeLinearPredictor := 0;
     regularizer := L2 |}.

(** A model with one nonlinear input, one linear input, two components and
    one feature. *)
Definition exampleSTM : STM R :=
  {| mDimInNonlinear := 1;
     mDimInLinear := 1;
     mNumComponents := 2;
     mNumFeatures := 1;
     mBiases := [0; 1];
     mWeights := {| rows := 2; cols := 1; data := [1; 2] |};
     mFeatures := {| rows := 1; cols := 1; data := [1] |};
     mPredictors := {| rows := 2; cols := 1; data := [0; 1] |};
     mLinearPredictor := [3];
     mNonlinearity := exponentialFunction (/ 2);
     mDistribution := bernoulli (/ 4) |}.

(** Two examples, stacked: row 0 is the nonlinear input, row 1 the linear
    one. *)
Definition exampleInput : Matrix R :=
  {| rows := 2; cols := 2; data := [1; 2; 0; 1] |}.

Definition exampleOutput : Matrix R :=
  {| rows := 1; cols := 2; data := [1; 0] |}.

Definition exampleInputNonlinear : Matrix R :=
  {| rows := 1; cols := 2; data := [1; 0] |}.

Definition exampleInputLinear : Matrix R :=
  {| rows := 1; cols := 2; data := [2; 1] |}.

(** A model without inputs: two components, exponential link. *)
Definition noInputSTM (nonlinearity : Nonlinearity R) : STM R :=
  {| mDimInNonlinear := 0;
     mDimInLinear := 0;
     mNumComponents := 2;
     mNumFeatures := 0;
     mBiases := [0; 0];
     mWeights := {| rows := 2; cols := 0; data := [] |};
     mFeatures := {| rows := 0; cols := 0; data := [] |};
     mPredictors := {| rows := 2; cols := 0; data := [] |};
     mLinearPredictor := [];
     mNonlinearity := nonlinearity;
     mDistribution := bernoulli (/ 4) |}.

Definition noInput (numData : nat) : Matrix R :=
  {| rows := 0; cols := numData; data := [] |}.

(** One output whose value, 1e-60, lies between 0 and 1e-50. *)
Definition tinyOutput : Matrix R :=
  {| rows := 1; cols := 1; data := [/ 10 ^ 60] |}.

(** A model with one linear input and no nonlinear input. *)
Definition linearOnlySTM : STM R :=
  {| mDimInNonlinear := 0;
     mDimInLinear := 1;
     mNumComponents := 2;
     mNumFeatures := 0;
     mBiases := [0; 0];
     mWeights := {| rows := 2; cols := 0; data := [] |};
     mFeatures := {| rows := 0; cols := 0; data := [] |};
     mPredictors := {| rows := 2; cols := 0; data := [] |};
     mLinearPredictor := [0];
     mNonlinearity := exponentialFunction (/ 2);
     mDistribution := bernoulli (/ 4) |}.

(** Stand-ins for the external training procedures in examples: a GLM fit
    that returns fixed parameters, and a general optimizer that returns at
    once. *)
Definition exampleGlmDefaults : GLMParameters :=
  {| glm_base := {| batchSize := 2000 |};
     glm_trainWeights := true;
     glm_trainBias := true |}.

Definition exampleGlmTrain (glm : GLM R) (input output : Matrix R)
    (validation : option (Matrix R * Matrix R)) (params : GLMParameters)
  : result (bool * GLM R) :=
  Ok (true,
      {| glm_dimIn := glm_dimIn glm;
         glm_weights := repeat 1 (glm_dimIn glm);
         glm_bias := 2;
         glm_nonlinearity := glm_nonlinearity glm;
         glm_distribution := glm_distribution glm |}).

Definition exampleTrainableTrain (m : STM R) (input output : Matrix R)
    (inputVal outputVal : option (Matrix R)) (params : Parameters R)
  : result bool * STM R :=
  (Ok true, m).

(** The validation data handed to the GLM: present when both pointers are. *)
Definition validationData {T : Type} (inputVal outputVal : option (Matrix T))
  : option (Matrix T * Matrix T) :=
  match inputVal, outputVal with
  | Some inputVal, Some outputVal => Some (inputVal, outputVal)
  | _, _ => None
  end.

(** The exponential link and the Bernoulli distribution in double-range
    arithmetic, without clamping. *)
Definition exponentialFunction_double : Nonlinearity double :=
  {| nl_apply := dbl_exp;
     nl_inverse := Some dbl_log;
     nl_derivative := Some dbl_exp |}.

Definition bernoulli_double : UnivariateDistribution double :=
  {| ud_logLikelihood := fun d p =>
       dbl_add (dbl_mul d (dbl_log p))
               (dbl_mul (dbl_sub (DFin 1) d) (dbl_log (dbl_sub (DFin 1) p)));
     ud_gradient := fun d p =>
       dbl_div (dbl_sub p d) (dbl_mul p (dbl_sub (DFin 1) p)) |}.

(** A model without inputs whose two biases are both 1e4. *)
Definition bigBiasSTM : STM double :=
  {| mDimInNonlinear := 0;
     mDimInLinear := 0;
     mNumComponents := 2;
     mNumFeatures := 0;
     mBiases := [DFin 10000; DFin 10000];
     mWeights := {| rows := 2; cols := 0; data := [] |};
     mFeatures := {| rows := 0; cols := 0; data := [] |};
     mPredictors := {| rows := 2; cols := 0; data := [] |};
     mLinearPredictor := [];
     mNonlinearity := exponentialFunction_double;
     mDistribution := bernoulli_double |}.

Definition noInput_double (numData : nat) : Matrix double :=
  {| rows := 0; cols := numData; data := [] |}.

Definition defaultParameters_double : Parameters double :=
  {| base := {| batchSize := 2000 |};
     trainBiases := true;
     trainWeights := true;
     trainFeatures := true;
     trainPredictors := true;
     trainLinearPredictor := true;
     regularizeWeights := DFin 0;
     regularizeFeatures := DFin 0;
     regularizePredictors := DFin 0;
     regularizeLinearPredictor := DFin 0;
     regularizer := L2 |}.

(* ===================================================================== *)
(** * The objective and its gradient, example by example *)
(* ===================================================================== *)

(** What one example (one column [n] of the data) contributes to the
    log-likelihood and to every entry of the gradient buffer, written with
    sums over indices instead of matrix products.  These are the quantities
    the batched computation is compared with. *)
Section PerExample.

Variable m : STM R.
Variable params : Parameters R.
Variables nonlinearity derivative : R -> R.
Variables inputCompl outputCompl : Matrix R.
Variable x : list R.

Definition exFeatureOutput (f n : nat) : R :=
  sum_n (fun d => coeff (featuresView m params x) d f * coeff inputCompl d n)
        (dimInNonlinear m).

Definition exEnergy (c n : nat) : R :=
  energyAt (weightsView m params x) (featuresView m params x)
           (predictorsView m params x) (biasesView m params x)
           inputCompl c n.

Definition exPooled (n : nat) : R :=
  logSumExp_col (map (fun c => exEnergy c n) (seq 0 (mNumComponents m))).

Definition exPosterior (c n : nat) : R := exp (exEnergy c n - exPooled n).

Definition exResponse (n : nat) : R :=
  if negb (dimInLinear m =? 0)%nat
  then exPooled n
       + sum_n (fun k => nth k (linearPredictorView m params x) 0
                         * coeff inputCompl (dimInNonlinear m + k) n)
               (length (linearPredictorView m params x))
  else exPooled n.

Definition exLogLik (n : nat) : R :=
  ud_logLikelihood (mDistribution m) (coeff outputCompl 0 n)
                   (nonlinearity (exResponse n)).

Definition exTmp (n : nat) : R :=
  - ud_gradient (mDistribution m) (coeff outputCompl 0 n)
                (nonlinearity (exResponse n))
  * derivative (exResponse n).

Definition exPostTmp (c n : nat) : R := exPosterior c n * exTmp n.

(** Entry [q] of each block's gradient, in the block's column-major order. *)
Definition exGradBiases (q n : nat) : R := exPostTmp q n.

Definition exGradWeights (q n : nat) : R :=
  let c := (q mod mNumComponents m)%nat in
  let f := (q / mNumComponents m)%nat in
  exPostTmp c n * (exFeatureOutput f n * exFeatureOutput f n).

Definition exGradFeatures (q n : nat) : R :=
  let d := (q mod dimInNonlinear m)%nat in
  let f := (q / dimInNonlinear m)%nat in
  coeff inputCompl d n
  * (exFeatureOutput f n
     * sum_n (fun c => 2 * coeff (weightsView m params x) c f * exPostTmp c n)
             (mNumComponents m)).

Definition exGradPredictors (q n : nat) : R :=
  let c := (q mod mNumComponents m)%nat in
  let d := (q / mNumComponents m)%nat in
  exPostTmp c n * coeff inputCompl d n.

Definition exGradLinear (q n : nat) : R :=
  coeff inputCompl (dimInNonlinear m + q) n * exTmp n.

(** What example [n] subtracts from entry [k] of the gradient buffer. *)
Definition exGradient (k n : nat) : R :=
  (if trainBiases params && inView 0 (mNumComponents m) k
   then exGradBiases k n else 0)
  + (if trainWeights params
        && inView (offsetWeights m params)
                  (mNumComponents m * mNumFeatures m) k
     then exGradWeights (k - offsetWeights m params) n else 0)
  + (if trainFeatures params
        && inView (offsetFeatures m params)
                  (dimInNonlinear m * mNumFeatures m) k
     then exGradFeatures (k - offsetFeatures m params) n else 0)
  + (if trainPredictors params
        && inView (offsetPredictors m params)
                  (mNumComponents m * dimInNonlinear m) k
     then exGradPredictors (k - offsetPredictors m params) n else 0)
  + (if (trainLinearPredictor params && negb (dimInLinear m =? 0)%nat)
        && inView (offsetLinearPredictor m params) (dimInLinear m) k
     then exGradLinear (k - offsetLinearPredictor m params) n else 0).

(** The log-likelihood of all examples and the accumulated gradient. *)
Definition totalLogLik : R := sum_n exLogLik (cols inputCompl).

Definition totalGradient (g : list R) : list R :=
  imap (fun k v => v - sum_n (exGradient k) (cols inputCompl))
       (initGradient m params g).

End PerExample.

(** The configuration with another batch size. *)
Definition setBatchSize {T : Type} (params : Parameters T) (batchSize : Z)
  : Parameters T :=
  {| base := {| batchSize := batchSize |};
     trainBiases := trainBiases params;
     trainWeights := trainWeights params;
     trainFeatures := trainFeatures params;
     trainPredictors := trainPredictors params;
     trainLinearPredictor := trainLinearPredictor params;
     regularizeWeights := regularizeWeights params;
     regularizeFeatures := regularizeFeatures params;
     regularizePredictors := regularizePredictors params;
     regularizeLinearPredictor := regularizeLinearPredictor params;
     regularizer := regularizer params |}.

(** The configuration with all regularisation coefficients set to zero. *)
Definition unregularized (params : Parameters R) : Parameters R :=
  {| base := base params;
     trainBiases := trainBiases params;
     trainWeights := trainWeights params;
     trainFeatures := trainFeatures params;
     trainPredictors := trainPredictors params;
     trainLinearPredictor := trainLinearPredictor params;
     regularizeWeights := 0;
     regularizeFeatures := 0;
     regularizePredictors := 0;
     regularizeLinearPredictor := 0;
     regularizer := regularizer params |}.

(** The columns a batch starting at [b] covers. *)
Definition batchColumns (numData batchSize b : nat) : list nat :=
  seq b (Nat.min batchSize (numData - b)).

(** Twelve examples for the example model: more than the smallest batch
    size, so that batch sizes 10 and 12 split them differently. *)
Definition wideInput : Matrix R :=
  {| rows := 2; cols := 12;
     data := [1; 0; 0; 1; 1; 1; 2; 0; 0; 2; 1; 2;
              2; 1; 3; 0; 0; 3; 1; 3; 3; 1; 2; 2] |}.

Definition wideOutput : Matrix R :=
  {| rows := 1; cols := 12; data := [1; 0; 1; 1; 0; 0; 1; 0; 1; 1; 0; 1] |}.

(* ===================================================================== *)
(** * The regulariser as section 4.6 of the specification states it *)
(* ===================================================================== *)

(** The sign of a coefficient; the sign of 0 is 0. *)
Definition Rsign (t : R) : R :=
  if Rlt_dec 0 t then 1 else if Rlt_dec t 0 then -1 else 0.

(** The penalty on a block with coefficients [theta]. *)
Definition penalty (reg : Regularizer) (lambda : R) (theta : list R) : R :=
  match reg with
  | L1 => lambda * sum_list (map Rabs theta)
  | L2 => lambda * sum_list (map (fun t => t * t) theta)
  end.

(** The (sub)gradient of the penalty with respect to one coefficient. *)
Definition penaltyGradient (reg : Regularizer) (lambda : R) (t : R) : R :=
  match reg with
  | L1 => lambda * Rsign t
  | L2 => 2 * lambda * t
  end.

(** A block is regularised when it is flagged trainable and its coefficient
    is positive. *)
Definition regularized (flag : bool) (lambda : R) : bool :=
  flag && Rltb 0 lambda.

(** The penalty gradient on entry [k] of the gradient buffer for a block
    whose view starts at [offset]. *)
Definition penaltyGradientAt (reg : Regularizer) (flag : bool) (lambda : R)
    (offset : nat) (theta : list R) (k : nat) : R :=
  if regularized flag lambda && inView offset (length theta) k
  then penaltyGradient reg lambda (nth (k - offset) theta 0)
  else 0.

(** A configuration that regularises the features with coefficient 1/2. *)
Definition regularizedParameters (reg : Regularizer) : Parameters R :=
  {| base := {| batchSize := 2000 |};
     trainBiases := true;
     trainWeights := true;
     trainFeatures := true;
     trainPredictors := true;
     trainLinearPredictor := true;
     regularizeWeights := 0;
     regularizeFeatures := / 2;
     regularizePredictors := 0;
     regularizeLinearPredictor := 0;
     regularizer := reg |}.

(** The same two biases in a model with one nonlinear input, no features and
    zero predictors: on the input 0 both energies are 1e4. *)
Definition bigBiasNonlinearSTM : STM double :=
  {| mDimInNonlinear := 1;
     mDimInLinear := 0;
     mNumComponents := 2;
     mNumFeatures := 0;
     mBiases := [DFin 10000; DFin 10000];
     mWeights := {| rows := 2; cols := 0; data := [] |};
     mFeatures := {| rows := 1; cols := 0; data := [] |};
     mPredictors := {| rows := 2; cols := 1; data := [DFin 0; DFin 0] |};
     mLinearPredictor := [];
     mNonlinearity := exponentialFunction_double;
     mDistribution := bernoulli_double |}.

Definition zeroInput_double : Matrix double :=
  {| rows := 1; cols := 1; data := [DFin 0] |}.

(* ===================================================================== *)
(** * Construction, component responses and split training inputs *)
(* ===================================================================== *)

Section Evaluation.

Context {T : Type} {ST : Scalar T}.
Local Open Scope nat_scope.

(** [MatrixXd::Zero(r, c)]. *)
Definition mzero (r c : nat) : Matrix T :=
  mk_matrix r c (fun _ _ => sc_zero).

(** [STM::nonlinearResponses]: the joint energies, one row per component.
    The input is either the nonlinear block alone or the stacked input. *)
Definition nonlinearResponses (m : STM T) (input : Matrix T)
  : result (Matrix T) :=
  if negb (rows input =? dimInNonlinear m) && negb (rows input =? dimIn m)
  then Throw "Input has wrong dimensionality."
  else if dimInNonlinear m =? 0
  then
    (* model has only linear inputs *)
    Ok (colwise_add (mzero (numComponents m) (cols input)) (mBiases m))
  else
    let jointEnergy :=
      mmul (mWeights m)
        (cwise sc_square
           (mmul (transpose (mFeatures m))
                 (topRows input (dimInNonlinear m)))) in
    let jointEnergy :=
      madd jointEnergy
           (mmul (mPredictors m) (topRows input (dimInNonlinear m))) in
    Ok (colwise_add jointEnergy (mBiases m)).

(** [STM::linearResponse]: the linear predictor applied to the linear block,
    as a matrix with one row. *)
Definition linearResponse (m : STM T) (input : Matrix T)
  : result (Matrix T) :=
  if negb (rows input =? dimInLinear m) && negb (rows input =? dimIn m)
  then Throw "Input has wrong dimensionality."
  else if dimInLinear m =? 0
  then Ok (mzero 1 (cols input))
  else
    Ok {| rows := 1; cols := cols input;
          data := vecmat (mLinearPredictor m)
                         (bottomRows input (dimInLinear m)) |}.

(** The response on column [n] of a pair of inputs, as the branches of
    [STM::response] compute it. *)
Definition responseAt (m : STM T) (X_nl X_l : Matrix T) (n : nat) : T :=
  let pooled :=
    if dimInNonlinear m =? 0
    then pooledBias m
    else logSumExp_col
           (map (fun c => energyAt (mWeights m) (mFeatures m) (mPredictors m)
                                   (mBiases m) X_nl c n)
                (seq 0 (rows (mWeights m)))) in
  let linear :=
    sum_n (fun k => sc_mul (nth k (mLinearPredictor m) sc_zero)
                           (coeff X_l k n))
          (length (mLinearPredictor m)) in
  if dimInLinear m =? 0 then pooled
  else if dimInNonlinear m =? 0 then sc_add linear pooled
  else sc_add pooled linear.

(** [STM::computeDataGradient]. *)
Definition computeDataGradient (m : STM T) (input output : Matrix T)
  : result ((Matrix T * Matrix T) * list T) :=
  Throw "Not implemented.".

(** [MatrixXd input(top.rows() + bottom.rows(), bottom.cols());
     input << top, bottom]: the rows of [top] above the rows of [bottom]. *)
Definition stackRows (top bottom : Matrix T) : Matrix T :=
  mk_matrix (rows top + rows bottom) (cols bottom)
    (fun i j => if i <? rows top then coeff top i j
                else coeff bottom (i - rows top) j).

Section SplitTraining.

(** The overloads of [train] the base class provides and stm.cpp calls:
    [train(input, output, params)] and
    [train(input, output, inputVal, outputVal, params)]. *)
Variable trainData :
  STM T -> Matrix T -> Matrix T -> Parameters T -> result bool * STM T.
Variable trainDataVal :
  STM T -> Matrix T -> Matrix T -> Matrix T -> Matrix T -> Parameters T ->
  result bool * STM T.

(** [STM::train(inputNonlinear, inputLinear, output, params)]. *)
Definition train2 (m : STM T) (inputNonlinear inputLinear output : Matrix T)
    (params : Parameters T) : result bool * STM T :=
  if negb (cols inputNonlinear =? cols inputLinear)
  then (Throw "Number of nonlinear and linear inputs must be the same.", m)
  else
    (* stack inputs *)
    let input := stackRows inputNonlinear inputLinear in
    trainData m input output params.

(** [STM::train(inputNonlinear, inputLinear, output, inputNonlinearVal,
    inputLinearVal, outputVal, params)]. *)
Definition train2Val (m : STM T)
    (inputNonlinear inputLinear output : Matrix T)
    (inputNonlinearVal inputLinearVal outputVal : Matrix T)
    (params : Parameters T) : result bool * STM T :=
  if negb (cols inputNonlinear =? cols inputLinear)
  then (Throw "Number of nonlinear and linear inputs must be the same.", m)
  else if negb (cols inputNonlinearVal =? cols inputLinearVal)
  then (Throw "Number of nonlinear and linear inputs must be the same.", m)
  else
    (* stack inputs *)
    let input := stackRows inputNonlinear inputLinear in
    let inputVal := stackRows inputNonlinearVal inputLinearVal in
    trainDataVal m input output inputVal outputVal params.

End SplitTraining.

(** The mean to which [STM::train] fits a model without inputs:
    [double mean = output.array().mean();
     if(mean >= 0. && mean < 1e-50) mean = 1e-50;]. *)
Definition trainingMean (output : Matrix T) : T :=
  let mean := arrayMean output in
  if sc_leb sc_zero mean && sc_ltb mean lit_1e_50 then lit_1e_50 else mean.

(** [STM::Parameters::Parameters()]: every block is trained, nothing is
    regularised; [base] is what the base class's constructor leaves. *)
Definition Parameters_new (base : TrainableParameters) : Parameters T :=
  {| base := base;
     trainBiases := true;
     trainWeights := true;
     trainFeatures := true;
     trainPredictors := true;
     trainLinearPredictor := true;
     regularizeWeights := sc_zero;
     regularizeFeatures := sc_zero;
     regularizePredictors := sc_zero;
     regularizeLinearPredictor := sc_zero;
     regularizer := L2 |}.

Section Construction.

(** What the constructors use and stm.cpp does not define: the default
    collaborators and the random draws, given entry by entry
    ([ArrayXd::Random], [ArrayXXd::Random] and [sampleNormal]). *)
Variable defaultNonlinearity : Nonlinearity T.
Variable defaultDistribution : UnivariateDistribution T.
Variable randomBiases : nat -> T.
Variable randomWeights : nat -> nat -> T.
Variable normalFeatures : nat -> nat -> T.
Variable normalPredictors : nat -> nat -> T.
Variable normalLinearPredictor : nat -> nat -> T.

(** [-10. * ArrayXd::Random(K).abs() - log(K)]. *)
Definition initialBiases (numComponents : Z) : list T :=
  map (fun i =>
         sc_sub (sc_mul (sc_of_Z (-10)) (sc_abs (randomBiases i)))
                (sc_log (sc_of_Z numComponents)))
      (seq 0 (Z.to_nat numComponents)).

(** [draw / 100.] for an array of draws with the given shape. *)
Definition initialBlock (r c : Z) (draw : nat -> nat -> T) : Matrix T :=
  mk_matrix (Z.to_nat r) (Z.to_nat c)
    (fun i j => sc_div (draw i j) (sc_of_Z 100)).

(** [STM::STM(dimInNonlinear, dimInLinear, numComponents, numFeatures,
    nonlinearity, distribution)]. *)
Definition STM_new2 (dimInNonlinear dimInLinear numComponents numFeatures : Z)
    (nonlinearity : option (Nonlinearity T))
    (distribution : option (UnivariateDistribution T)) : result (STM T) :=
  let mDimInNonlinear := dimInNonlinear in
  let mDimInLinear := dimInLinear in
  let mNumComponents := numComponents in
  let mNumFeatures :=
    if (numFeatures <? 0)%Z then dimInNonlinear else numFeatures in
  let mNonlinearity :=
    match nonlinearity with
    | Some nonlinearity => nonlinearity
    | None => defaultNonlinearity
    end in
  let mDistribution :=
    match distribution with
    | Some distribution => distribution
    | None => defaultDistribution
    end in
  (* check hyperparameters *)
  if (mDimInNonlinear <? 0)%Z || (mDimInLinear <? 0)%Z
  then Throw "The input dimensionality has to be non-negative."
  else if (mNumComponents <? 1)%Z
  then Throw "The number of components has to be positive."
  else
    (* initialize parameters *)
    Ok {| mDimInNonlinear := Z.to_nat mDimInNonlinear;
          mDimInLinear := Z.to_nat mDimInLinear;
          mNumComponents := Z.to_nat mNumComponents;
          mNumFeatures := Z.to_nat mNumFeatures;
          mBiases := initialBiases mNumComponents;
          mWeights :=
            initialBlock mNumComponents mNumFeatures
              (fun i j => sc_abs (randomWeights i j));
          mFeatures :=
            initialBlock mDimInNonlinear mNumFeatures normalFeatures;
          mPredictors :=
            initialBlock mNumComponents mDimInNonlinear normalPredictors;
          mLinearPredictor :=
            data (initialBlock mDimInLinear 1 normalLinearPredictor);
          mNonlinearity := mNonlinearity;
          mDistribution := mDistribution |}.

(** [STM::STM(dimIn, numComponents, numFeatures, nonlinearity,
    distribution)]: a model without linear inputs. *)
Definition STM_new (dimIn numComponents numFeatures : Z)
    (nonlinearity : option (Nonlinearity T))
    (distribution : option (UnivariateDistribution T)) : result (STM T) :=
  let mDimInNonlinear := dimIn in
  let mDimInLinear := 0%Z in
  let mNumComponents := numComponents in
  let mNumFeatures := if (numFeatures <? 0)%Z then dimIn else numFeatures in
  let mNonlinearity :=
    match nonlinearity with
    | Some nonlinearity => nonlinearity
    | None => defaultNonlinearity
    end in
  let mDistribution :=
    match distribution with
    | Some distribution => distribution
    | None => defaultDistribution
    end in
  (* check hyperparameters *)
  if (mDimInNonlinear <? 0)%Z
  then Throw "The input dimensionality has to be non-negative."
  else if (mNumComponents <? 1)%Z
  then Throw "The number of components has to be positive."
  else
    (* initialize parameters *)
    Ok {| mDimInNonlinear := Z.to_nat mDimInNonlinear;
          mDimInLinear := Z.to_nat mDimInLinear;
          mNumComponents := Z.to_nat mNumComponents;
          mNumFeatures := Z.to_nat mNumFeatures;
          mBiases := initialBiases mNumComponents;
          mWeights :=
            initialBlock mNumComponents mNumFeatures
              (fun i j => sc_abs (randomWeights i j));
          mFeatures :=
            initialBlock mDimInNonlinear mNumFeatures normalFeatures;
          mPredictors :=
            initialBlock mNumComponents mDimInNonlinear normalPredictors;
          mLinearPredictor := repeat sc_zero (Z.to_nat mDimInLinear);
          mNonlinearity := mNonlinearity;
          mDistribution := mDistribution |}.

End Construction.

End Evaluation.

(* ===================================================================== *)
(** * The objective as a function of one coefficient *)
(* ===================================================================== *)

(** The flat vector [x] with entry [k] replaced by [t]. *)
Definition setCoeff (x : list R) (k : nat) (t : R) : list R :=
  imap (fun i v => if (i =? k)%nat then t else v) x.

(** The loss [parameterGradient] returns at the flat vector [x]. *)
Definition objectiveAt (m : STM R) (inputCompl outputCompl : Matrix R)
    (params : Parameters R) (x : list R) : R :=
  match parameterGradient m inputCompl outputCompl x None params with
  | Ok r => fst r
  | Throw _ => 0
  end.

(** Entry [k] of the flat vector lies in a block that carries an L1
    penalty. *)
Definition inL1Block (m : STM R) (params : Parameters R) (k : nat) : bool :=
  match regularizer params with
  | L1 =>
    regularized (trainFeatures params) (regularizeFeatures params)
      && inView (offsetFeatures m params)
                (dimInNonlinear m * mNumFeatures m) k
    || regularized (trainPredictors params) (regularizePredictors params)
       && inView (offsetPredictors m params)
                 (mNumComponents m * dimInNonlinear m) k
    || regularized (trainWeights params) (regularizeWeights params)
       && inView (offsetWeights m params)
                 (mNumComponents m * mNumFeatures m) k
    || regularized (trainLinearPredictor params)
                   (regularizeLinearPredictor params)
       && inView (offsetLinearPredictor m params) (dimInLinear m) k
  | L2 => false
  end.

(** Collaborators that are differentiable everywhere they are evaluated: the
    exponential link without clamping, and the Poisson log-likelihood of a
    count under a mean, up to the term that does not depend on the mean. *)
Definition exponentialLink : Nonlinearity R :=
  {| nl_apply := exp;
     nl_inverse := Some ln;
     nl_derivative := Some exp |}.

Definition poissonDistribution : UnivariateDistribution R :=
  {| ud_logLikelihood := fun d mu => d * ln mu - mu;
     ud_gradient := fun d mu => 1 - d / mu |}.

(** The example model with these collaborators. *)
Definition poissonSTM : STM R :=
  {| mDimInNonlinear := 1;
     mDimInLinear := 1;
     mNumComponents := 2;
     mNumFeatures := 1;
     mBiases := [0; 1];
     mWeights := {| rows := 2; cols := 1; data := [1; 2] |};
     mFeatures := {| rows := 1; cols := 1; data := [1] |};
     mPredictors := {| rows := 2; cols := 1; data := [0; 1] |};
     mLinearPredictor := [3];
     mNonlinearity := exponentialLink;
     mDistribution := poissonDistribution |}.

(* ===================================================================== *)
(** * Properties *)
(* ===================================================================== *)

Unset Implicit Arguments.

(* ===================================================================== *)
(** * Facts that hold for every scalar type *)
(* ===================================================================== *)

Section ModelFacts.

Context {T : Type} {ST : Scalar T}.
Local Open Scope nat_scope.

Lemma length_imap {A B : Type} (f : nat -> A -> B) (l : list A) :
  length (imap f l) = length l.
Proof.
  unfold imap. rewrite length_map, length_combine, length_seq.
  apply Nat.min_id.
Qed.

Lemma nth_imap {A B : Type} (f : nat -> A -> B) (l : list A) k da db :
  k < length l -> nth k (imap f l) db = f k (nth k l da).
Proof.
  intros Hk. unfold imap.
  rewrite nth_indep with (d' := f 0 da)
    by (rewrite length_map, length_combine, length_seq; lia).
  change (f 0 da) with ((fun p => f (fst p) (snd p)) (0, da)).
  rewrite map_nth, combine_nth by (rewrite length_seq; reflexivity).
  cbn [fst snd]. rewrite seq_nth by assumption. reflexivity.
Qed.

Lemma length_zipWith {A B C : Type} (f : A -> B -> C) a b :
  length (zipWith f a b) = Nat.min (length a) (length b).
Proof. unfold zipWith. rewrite length_map. apply length_combine. Qed.

Lemma nth_zipWith {A B C : Type} (f : A -> B -> C) a b k da db dc :
  k < length a -> k < length b ->
  nth k (zipWith f a b) dc = f (nth k a da) (nth k b db).
Proof.
  intros Ha Hb. unfold zipWith.
  rewrite nth_indep with (d' := f da db)
    by (rewrite length_map, length_combine; lia).
  change (f da db) with ((fun p => f (fst p) (snd p)) (da, db)).
  rewrite map_nth. generalize dependent b. generalize dependent k.
  induction a as [|x a IH]; intros k Ha b Hb; [cbn in Ha; lia|].
  destruct b as [|y b]; [cbn in Hb; lia|].
  destruct k; cbn; [reflexivity|]. apply IH; cbn in *; lia.
Qed.

Lemma flat_index (r i j : nat) :
  i < r -> (i + j * r) mod r = i /\ (i + j * r) / r = j.
Proof.
  intros Hi. split.
  - rewrite Nat.Div0.mod_add. apply Nat.mod_small; assumption.
  - rewrite Nat.div_add by lia. rewrite Nat.div_small by assumption.
    reflexivity.
Qed.

Lemma length_data_mk_matrix r c (f : nat -> nat -> T) :
  length (data (mk_matrix r c f)) = r * c.
Proof. cbn. rewrite length_map, length_seq. reflexivity. Qed.

Lemma nth_data_mk_matrix r c (f : nat -> nat -> T) q d :
  q < r * c -> nth q (data (mk_matrix r c f)) d = f (q mod r) (q / r).
Proof.
  intros Hq. cbn.
  rewrite nth_indep with (d' := f (0 mod r) (0 / r))
    by (rewrite length_map, length_seq; assumption).
  rewrite (map_nth (fun q => f (q mod r) (q / r))).
  rewrite seq_nth by assumption. reflexivity.
Qed.

Lemma coeff_mk_matrix r c (f : nat -> nat -> T) i j :
  i < r -> j < c -> coeff (mk_matrix r c f) i j = f i j.
Proof.
  intros Hi Hj. unfold coeff.
  rewrite nth_data_mk_matrix.
  - cbn [rows mk_matrix]. destruct (flat_index r i j Hi) as [-> ->]. reflexivity.
  - cbn [rows mk_matrix]. nia.
Qed.

Lemma sum_n_ext (f h : nat -> T) n :
  (forall k, k < n -> f k = h k) -> sum_n f n = sum_n h n.
Proof.
  intros E. unfold sum_n. f_equal. apply map_ext_in.
  intros k Hk. apply in_seq in Hk. apply E. lia.
Qed.

Ltac split_ifs :=
  repeat (match goal with
          | |- context [if ?b then _ else _] => destruct b eqn:?
          end; cbn; try discriminate).

(** Both overloads of [response] return within the fuel. *)
Lemma response_rec_total (m : STM T) call :
  response_rec response_fuel m call <> None.
Proof. unfold response_fuel. destruct call; cbn; split_ifs. Qed.

Lemma logLikelihood_rec_total (m : STM T) call :
  logLikelihood_rec response_fuel m call <> None.
Proof. unfold response_fuel. destruct call; cbn; split_ifs. Qed.

End ModelFacts.

Section InterfaceFacts.

Context {T : Type} {ST : Scalar T}.
Local Open Scope nat_scope.

(** C10.  With a linear input block, the single-matrix overloads of
    [response] and [logLikelihood] reject an input whose row count is not
    D_nl + D_l, and otherwise return what the two-matrix overloads return on
    the top D_nl rows and the bottom D_l rows. *)
Theorem single_matrix_overloads_split_rows (m : STM T) (input : Matrix T) :
  0 < dimInLinear m ->
  response m input =
    (if rows input =? dimInNonlinear m + dimInLinear m
     then response2 m (topRows input (dimInNonlinear m))
                      (bottomRows input (dimInLinear m))
     else Throw "Input has wrong dimensionality.")
  /\ (forall output : Matrix T,
        logLikelihood m input output =
          (if rows input =? dimInNonlinear m + dimInLinear m
           then logLikelihood2 m (topRows input (dimInNonlinear m))
                                 (bottomRows input (dimInLinear m)) output
           else Throw "Input has wrong dimensionality.")).
Proof.
  intros Hl.
  assert (E : (dimInLinear m =? 0) = false) by (apply Nat.eqb_neq; lia).
  split; [|intros output];
    unfold response, response2, logLikelihood, logLikelihood2, response_fuel;
    cbn; unfold dimIn; rewrite !E;
    destruct (rows input =? dimInNonlinear m + dimInLinear m); reflexivity.
Qed.

End InterfaceFacts.

(** The example model has a linear input, and its input matrix has
    D_nl + D_l rows. *)
Lemma single_matrix_overloads_split_rows_witness :
  (0 < dimInLinear exampleSTM)%nat /\
  response exampleSTM exampleInput =
    response2 exampleSTM (topRows exampleInput 1) (bottomRows exampleInput 1).
Proof.
  split; [cbn; lia|].
  exact (proj1 (single_matrix_overloads_split_rows exampleSTM exampleInput
                  ltac:(cbn; lia))).
Defined.

(* ===================================================================== *)
(** * Parameter packing *)
(* ===================================================================== *)

Section PackingFacts.

Context {T : Type} {ST : Scalar T}.
Local Open Scope nat_scope.

Lemma view_of_block (pre blk post : list T) off n :
  length pre = off -> length blk = n ->
  firstn n (skipn off (pre ++ blk ++ post)) = blk.
Proof.
  intros <- <-.
  rewrite skipn_app, skipn_all, Nat.sub_diag. cbn [skipn app].
  rewrite firstn_app, firstn_all, Nat.sub_diag. cbn [firstn].
  apply app_nil_r.
Qed.

Lemma matrix_eq (M : Matrix T) r c d :
  rows M = r -> cols M = c -> data M = d -> mkMatrix r c d = M.
Proof. destruct M; cbn; intros; subst; reflexivity. Qed.

Lemma unpack_block (pre blk post : list T) off n x :
  x = pre ++ blk ++ post -> length pre = off -> length blk = n ->
  firstn n (skipn off x) = blk.
Proof. intros ->. apply view_of_block. Qed.

Lemma parameters_blocks (m : STM T) params :
  parameters m params =
    packed (trainBiases params) (mBiases m)
    ++ packed (trainWeights params) (data (mWeights m))
    ++ packed (trainFeatures params) (data (mFeatures m))
    ++ packed (trainPredictors params) (data (mPredictors m))
    ++ packed (trainLinearPredictor params) (mLinearPredictor m).
Proof.
  unfold parameters, packed.
  destruct (trainBiases params), (trainWeights params),
    (trainFeatures params), (trainPredictors params),
    (trainLinearPredictor params);
    cbn [app]; rewrite <- ?app_assoc, ?app_nil_r; reflexivity.
Qed.

Lemma length_packed flag (blk : list T) n :
  length blk = n -> length (packed flag blk) = if flag then n else 0.
Proof. intros <-. destruct flag; reflexivity. Qed.

(** The flat vector has [numParameters] entries. *)
Lemma length_parameters (m : STM T) params :
  wf_STM m -> length (parameters m params) = numParameters m params.
Proof.
  intros W. rewrite parameters_blocks, !length_app.
  unfold numParameters, size, packed.
  rewrite (wf_weights_rows W), (wf_weights_cols W), (wf_features_rows W),
    (wf_features_cols W), (wf_predictors_rows W), (wf_predictors_cols W).
  rewrite <- (wf_weights_data W), <- (wf_features_data W),
    <- (wf_predictors_data W).
  destruct (trainBiases params), (trainWeights params),
    (trainFeatures params), (trainPredictors params),
    (trainLinearPredictor params); cbn [length]; lia.
Qed.

Lemma STM_eq (m : STM T) b W F P l :
  b = mBiases m -> W = mWeights m -> F = mFeatures m ->
  P = mPredictors m -> l = mLinearPredictor m ->
  {| mDimInNonlinear := mDimInNonlinear m; mDimInLinear := mDimInLinear m;
     mNumComponents := mNumComponents m; mNumFeatures := mNumFeatures m;
     mBiases := b; mWeights := W; mFeatures := F; mPredictors := P;
     mLinearPredictor := l; mNonlinearity := mNonlinearity m;
     mDistribution := mDistribution m |} = m.
Proof. intros; subst; destruct m; reflexivity. Qed.

(** What [setParameters] leaves in the model: a view of the flat vector for
    every flagged block, the former contents for the others. *)
Lemma setParameters_blocks (m : STM T) x params :
  setParameters m x params =
  {| mDimInNonlinear := mDimInNonlinear m; mDimInLinear := mDimInLinear m;
     mNumComponents := mNumComponents m; mNumFeatures := mNumFeatures m;
     mBiases := if trainBiases params
                then map_vector x 0 (mNumComponents m) else mBiases m;
     mWeights := if trainWeights params
                 then map_view x (offsetWeights m params)
                        (mNumComponents m) (mNumFeatures m)
                 else mWeights m;
     mFeatures := if trainFeatures params
                  then map_view x (offsetFeatures m params)
                         (dimInNonlinear m) (mNumFeatures m)
                  else mFeatures m;
     mPredictors := if trainPredictors params
                    then map_view x (offsetPredictors m params)
                           (mNumComponents m) (dimInNonlinear m)
                    else mPredictors m;
     mLinearPredictor := if trainLinearPredictor params
                         then map_vector x (offsetLinearPredictor m params)
                                (dimInLinear m)
                         else mLinearPredictor m;
     mNonlinearity := mNonlinearity m;
     mDistribution := mDistribution m |}.
Proof.
  unfold setParameters.
  destruct (trainBiases params) eqn:Eb, (trainWeights params) eqn:Ew,
    (trainFeatures params) eqn:Ef, (trainPredictors params) eqn:Ep,
    (trainLinearPredictor params) eqn:El;
    unfold assignBiases, assignWeights, assignFeatures, assignPredictors,
      assignLinearPredictor, offsetLinearPredictor, offsetPredictors,
      offsetFeatures, offsetWeights, dimInNonlinear, dimInLinear;
    cbn [mDimInNonlinear mDimInLinear mNumComponents mNumFeatures mBiases
         mWeights mFeatures mPredictors mLinearPredictor mNonlinearity
         mDistribution];
    rewrite ?Eb, ?Ew, ?Ef, ?Ep, ?El;
    try reflexivity; destruct m; reflexivity.
Qed.

(** C2.  Packing the flagged blocks with [parameters] and writing the flat
    vector back with [setParameters] under the same configuration leaves
    every block as it was; the flat vector holds the flagged blocks in the
    order biases, weights, features, predictors, linearPredictor; and
    whatever vector is written, the blocks that are not flagged keep their
    contents. *)
Theorem parameters_setParameters_roundtrip (m : STM T) (params : Parameters T) :
  wf_STM m ->
  setParameters m (parameters m params) params = m
  /\ parameters m params
     = packed (trainBiases params) (mBiases m)
       ++ packed (trainWeights params) (data (mWeights m))
       ++ packed (trainFeatures params) (data (mFeatures m))
       ++ packed (trainPredictors params) (data (mPredictors m))
       ++ packed (trainLinearPredictor params) (mLinearPredictor m)
  /\ (forall x : list T,
        (trainBiases params = false ->
         mBiases (setParameters m x params) = mBiases m)
        /\ (trainWeights params = false ->
            mWeights (setParameters m x params) = mWeights m)
        /\ (trainFeatures params = false ->
            mFeatures (setParameters m x params) = mFeatures m)
        /\ (trainPredictors params = false ->
            mPredictors (setParameters m x params) = mPredictors m)
        /\ (trainLinearPredictor params = false ->
            mLinearPredictor (setParameters m x params) = mLinearPredictor m)).
Proof.
  intros W. split; [|split; [apply parameters_blocks|]].
  - rewrite setParameters_blocks, parameters_blocks.
    set (B := packed (trainBiases params) (mBiases m)).
    set (Wt := packed (trainWeights params) (data (mWeights m))).
    set (Ft := packed (trainFeatures params) (data (mFeatures m))).
    set (Pt := packed (trainPredictors params) (data (mPredictors m))).
    set (Lt := packed (trainLinearPredictor params) (mLinearPredictor m)).
    assert (LB : length B = offsetWeights m params)
      by (apply length_packed, W).
    assert (LW : length (B ++ Wt) = offsetFeatures m params)
      by (rewrite length_app, LB; unfold offsetFeatures; f_equal;
          apply length_packed, W).
    assert (LF : length ((B ++ Wt) ++ Ft) = offsetPredictors m params)
      by (rewrite length_app, LW; unfold offsetPredictors; f_equal;
          apply length_packed, W).
    assert (LP : length (((B ++ Wt) ++ Ft) ++ Pt)
                 = offsetLinearPredictor m params)
      by (rewrite length_app, LF; unfold offsetLinearPredictor; f_equal;
          rewrite (Nat.mul_comm (mNumComponents m)), Nat.mul_comm;
          apply length_packed, W).
    assert (EB : trainBiases params = true -> B = mBiases m)
      by (intros E; subst B; rewrite E; reflexivity).
    assert (EW : trainWeights params = true -> Wt = data (mWeights m))
      by (intros E; subst Wt; rewrite E; reflexivity).
    assert (EF : trainFeatures params = true -> Ft = data (mFeatures m))
      by (intros E; subst Ft; rewrite E; reflexivity).
    assert (EP : trainPredictors params = true -> Pt = data (mPredictors m))
      by (intros E; subst Pt; rewrite E; reflexivity).
    assert (EL : trainLinearPredictor params = true ->
                 Lt = mLinearPredictor m)
      by (intros E; subst Lt; rewrite E; reflexivity).
    clearbody B Wt Ft Pt Lt.
    destruct W.
    apply STM_eq.
    + destruct (trainBiases params); [|reflexivity].
      rewrite EB in * by reflexivity.
      unfold map_vector.
      apply unpack_block with (pre := []) (post := Wt ++ Ft ++ Pt ++ Lt);
        [reflexivity | reflexivity | assumption].
    + destruct (trainWeights params); [|reflexivity].
      rewrite EW in * by reflexivity.
      unfold map_view. apply matrix_eq; auto. symmetry.
      apply unpack_block with (pre := B) (post := Ft ++ Pt ++ Lt);
        [reflexivity | assumption | assumption].
    + destruct (trainFeatures params); [|reflexivity].
      rewrite EF in * by reflexivity.
      unfold map_view. apply matrix_eq; auto. symmetry.
      apply unpack_block with (pre := B ++ Wt) (post := Pt ++ Lt);
        [rewrite <- !app_assoc; reflexivity | assumption | assumption].
    + destruct (trainPredictors params); [|reflexivity].
      rewrite EP in * by reflexivity.
      unfold map_view. apply matrix_eq; auto. symmetry.
      apply unpack_block with (pre := (B ++ Wt) ++ Ft) (post := Lt);
        [rewrite <- !app_assoc; reflexivity | assumption | assumption].
    + destruct (trainLinearPredictor params); [|reflexivity].
      rewrite EL in * by reflexivity.
      unfold map_vector.
      apply unpack_block with (pre := ((B ++ Wt) ++ Ft) ++ Pt) (post := []);
        [rewrite <- !app_assoc, app_nil_r; reflexivity
        | assumption | assumption].
  - intros x. rewrite setParameters_blocks.
    cbn [mBiases mWeights mFeatures mPredictors mLinearPredictor].
    repeat split; intros ->; reflexivity.
Qed.

End PackingFacts.

(* ===================================================================== *)
(** * The joint energy, coefficient by coefficient *)
(* ===================================================================== *)

Section EnergyFacts.

Context {T : Type} {ST : Scalar T}.
Local Open Scope nat_scope.

Lemma coeff_featureOutput (features X : Matrix T) f n :
  f < cols features -> n < cols X ->
  coeff (mmul (transpose features) X) f n =
  sum_n (fun d => sc_mul (coeff features d f) (coeff X d n)) (rows features).
Proof.
  intros Hf Hn. unfold mmul.
  rewrite coeff_mk_matrix by (cbn; assumption).
  cbn [cols rows transpose mk_matrix].
  apply sum_n_ext. intros d Hd. unfold transpose.
  rewrite coeff_mk_matrix by assumption. reflexivity.
Qed.

Lemma coeff_jointEnergyOf weights features predictors biases (X : Matrix T)
    c n :
  c < rows weights -> rows predictors = rows weights ->
  cols features = cols weights -> n < cols X ->
  coeff (jointEnergyOf weights features predictors biases X) c n =
  energyAt weights features predictors biases X c n.
Proof.
  intros Hc HP HF Hn. unfold jointEnergyOf, colwise_add, madd, energyAt.
  cbn [rows cols mmul mk_matrix].
  rewrite !coeff_mk_matrix by assumption.
  f_equal. f_equal.
  - unfold mmul at 1. rewrite coeff_mk_matrix by assumption.
    apply sum_n_ext. intros f Hf. f_equal.
    unfold cwise. cbn [rows cols mmul transpose mk_matrix].
    rewrite coeff_mk_matrix by (try assumption; lia).
    f_equal. apply coeff_featureOutput; [lia | assumption].
  - unfold mmul. rewrite coeff_mk_matrix by (try assumption; lia).
    reflexivity.
Qed.

Lemma rows_jointEnergyOf weights features predictors biases (X : Matrix T) :
  rows (jointEnergyOf weights features predictors biases X) = rows weights.
Proof. reflexivity. Qed.

Lemma cols_jointEnergyOf weights features predictors biases (X : Matrix T) :
  cols (jointEnergyOf weights features predictors biases X) = cols X.
Proof. reflexivity. Qed.

Lemma zipWith_map {A B C D : Type} (f : B -> C -> D) (a : A -> B)
    (b : A -> C) (l : list A) :
  zipWith f (map a l) (map b l) = map (fun x => f (a x) (b x)) l.
Proof.
  unfold zipWith. induction l as [|x l IH]; cbn; [reflexivity|].
  f_equal. exact IH.
Qed.

Lemma repeat_map_seq {A : Type} (v : A) n s :
  repeat v n = map (fun _ => v) (seq s n).
Proof.
  revert s. induction n as [|n IH]; intros s; cbn; [reflexivity|].
  f_equal. apply IH.
Qed.

Lemma map_nth_seq {A : Type} (l : list A) d :
  map (fun i => nth i l d) (seq 0 (length l)) = l.
Proof.
  induction l as [|x l IH]; cbn; [reflexivity|]. f_equal.
  rewrite <- seq_shift, map_map. exact IH.
Qed.

(** The pooled response on column [n], as [logSumExp] evaluates it. *)
Lemma logSumExp_jointEnergyOf weights features predictors biases
    (X : Matrix T) :
  rows predictors = rows weights -> cols features = cols weights ->
  logSumExp (jointEnergyOf weights features predictors biases X) =
  map (fun n =>
         logSumExp_col
           (map (fun c => energyAt weights features predictors biases X c n)
                (seq 0 (rows weights))))
      (seq 0 (cols X)).
Proof.
  intros HP HF. unfold logSumExp.
  rewrite cols_jointEnergyOf. apply map_ext_in. intros n Hn.
  apply in_seq in Hn. f_equal. unfold column.
  rewrite rows_jointEnergyOf. apply map_ext_in. intros c Hc.
  apply in_seq in Hc. apply coeff_jointEnergyOf; try assumption; lia.
Qed.

End EnergyFacts.

(* ===================================================================== *)
(** * The response over the real numbers *)
(* ===================================================================== *)

Ltac rsimp :=
  unfold sc_zero, sc_square in *;
  cbn [sc_add sc_sub sc_mul sc_div sc_neg sc_exp sc_log sc_abs sc_of_Z
       sc_ltb sc_leb sc_neqb sc_max_value Scalar_R] in *.

Lemma sum_list_R_cons (a : R) l : sum_list (a :: l) = a + sum_list l.
Proof. reflexivity. Qed.

Lemma sum_list_R_nil : sum_list (@nil R) = 0.
Proof. reflexivity. Qed.

Lemma sum_n_R_zero (f : nat -> R) n :
  (forall k, (k < n)%nat -> f k = 0) -> sum_n f n = 0.
Proof.
  intros E. unfold sum_n.
  assert (H : forall l : list nat,
             (forall k, In k l -> f k = 0) -> sum_list (map f l) = 0).
  { induction l as [|a l IH]; intros Hl; [reflexivity|].
    cbn [map]. rewrite sum_list_R_cons, IH, Hl; [lra | left; reflexivity |].
    intros k Hk. apply Hl. right. exact Hk. }
  apply H. intros k Hk. apply in_seq in Hk. apply E. lia.
Qed.

Lemma sum_exp_nonneg (l : list R) : 0 <= sum_list (map exp l).
Proof.
  induction l as [|a l IH]; cbn [map].
  - rewrite sum_list_R_nil. lra.
  - rewrite sum_list_R_cons. pose proof (exp_pos a). lra.
Qed.

Lemma sum_exp_pos (l : list R) : l <> [] -> 0 < sum_list (map exp l).
Proof.
  destruct l as [|a l]; intros Hne; [congruence|].
  cbn [map]. rewrite sum_list_R_cons.
  pose proof (exp_pos a). pose proof (sum_exp_nonneg l). lra.
Qed.

Lemma sum_exp_shift (l : list R) (s : R) :
  sum_list (map (fun e => exp (e - s)) l) = exp (- s) * sum_list (map exp l).
Proof.
  induction l as [|a l IH].
  - cbn [map]. rewrite !sum_list_R_nil. lra.
  - cbn [map]. rewrite !sum_list_R_cons, IH.
    replace (a - s) with (- s + a) by lra. rewrite exp_plus. lra.
Qed.

(** Subtracting a shift before exponentiating and adding it back after the
    logarithm does not change the value of log-sum-exp. *)
Lemma logSumExp_col_logsumexp (l : list R) :
  l <> [] -> logSumExp_col l = logsumexp l.
Proof.
  intros Hne. unfold logSumExp_col, logsumexp. rsimp.
  generalize (maxCoeff l). intros s.
  change (fun e : R => sc_exp (sc_sub e s)) with (fun e : R => exp (e - s)).
  rewrite sum_exp_shift.
  rewrite ln_mult by (try apply exp_pos; apply sum_exp_pos; assumption).
  rewrite ln_exp. lra.
Qed.

Lemma logsumexp_singleton (b : R) : logsumexp [b] = b.
Proof.
  unfold logsumexp. cbn. rsimp.
  rewrite Rplus_0_r. apply ln_exp.
Qed.

Lemma map_seq_nonempty {A : Type} (f : nat -> A) n :
  (1 <= n)%nat -> map f (seq 0 n) <> [].
Proof. destruct n; [lia|]. discriminate. Qed.

(** The energy the source evaluates is the energy of section 4.1. *)
Lemma energyAt_spec (m : STM R) (X : Matrix R) c n :
  wf_STM m ->
  energyAt (mWeights m) (mFeatures m) (mPredictors m) (mBiases m) X c n =
  jointEnergy_spec m X c n.
Proof.
  intros W. unfold energyAt, jointEnergy_spec.
  rewrite (wf_features_rows W), (wf_weights_cols W), (wf_predictors_cols W).
  reflexivity.
Qed.

(** The pooled bias is the log-sum-exp of the biases. *)
Lemma pooledBias_logsumexp (m : STM R) :
  wf_STM m -> pooledBias m = logsumexp (mBiases m).
Proof.
  intros W. unfold pooledBias, numComponents.
  destruct (1 <? mNumComponents m)%nat eqn:E; [reflexivity|].
  apply Nat.ltb_ge in E.
  pose proof (wf_components W) as HK. pose proof (wf_biases W) as HB.
  assert (HK1 : mNumComponents m = 1%nat) by lia. rewrite HK1 in HB.
  destruct (mBiases m) as [|b [|b' l]]; cbn in HB; try lia.
  rewrite logsumexp_singleton. reflexivity.
Qed.

(** Without nonlinear inputs every energy is the bias of its component. *)
Lemma jointEnergy_spec_no_input (m : STM R) (X : Matrix R) c n :
  mDimInNonlinear m = 0%nat ->
  jointEnergy_spec m X c n = nth c (mBiases m) 0.
Proof.
  intros E. unfold jointEnergy_spec. rewrite E.
  rewrite sum_n_R_zero.
  - cbn. rsimp. lra.
  - intros f _. cbn. rsimp. unfold Rsqr. lra.
Qed.

Lemma energies_no_input (m : STM R) (X : Matrix R) n :
  wf_STM m -> mDimInNonlinear m = 0%nat ->
  map (fun c => jointEnergy_spec m X c n) (seq 0 (mNumComponents m))
  = mBiases m.
Proof.
  intros W E. rewrite <- (wf_biases W).
  rewrite <- (map_nth_seq (mBiases m) 0) at 2.
  apply map_ext. intros c. apply jointEnergy_spec_no_input. exact E.
Qed.

(** The two-matrix overload, column by column. *)
Lemma response2_formula (m : STM R) (X_nl X_l : Matrix R) :
  wf_STM m ->
  rows X_nl = mDimInNonlinear m ->
  rows X_l = mDimInLinear m ->
  cols X_nl = cols X_l ->
  response2 m X_nl X_l
    = Ok (map (response_spec m X_nl X_l) (seq 0 (cols X_nl))).
Proof.
  intros W Hnl Hl Hc.
  unfold response2, response_fuel. cbn [response_rec].
  unfold dimIn, dimInLinear, dimInNonlinear.
  destruct (mDimInLinear m =? 0)%nat eqn:El.
  - (* no linear input: the single-matrix overload *)
    apply Nat.eqb_eq in El. rewrite El, Nat.add_0_r, Hnl, Nat.eqb_refl.
    cbn [negb].
    assert (Hlin : forall n,
               response_spec m X_nl X_l n =
               logsumexp (map (fun c => jointEnergy_spec m X_nl c n)
                              (seq 0 (mNumComponents m)))).
    { intros n. unfold response_spec. rewrite El. cbn. rsimp. lra. }
    destruct (mDimInNonlinear m =? 0)%nat eqn:En; cbn [run]; f_equal.
    + apply Nat.eqb_eq in En.
      rewrite (repeat_map_seq _ _ 0). apply map_ext. intros n.
      rewrite Hlin, energies_no_input by assumption.
      apply pooledBias_logsumexp. exact W.
    + rewrite logSumExp_jointEnergyOf
        by (rewrite ?(wf_predictors_rows W), ?(wf_weights_rows W),
              ?(wf_features_cols W), ?(wf_weights_cols W); reflexivity).
      apply map_ext. intros n. rewrite Hlin.
      rewrite (wf_weights_rows W).
      rewrite logSumExp_col_logsumexp
        by (apply map_seq_nonempty, (wf_components W)).
      f_equal. apply map_ext. intros c. apply energyAt_spec. exact W.
  - rewrite Hnl, Hl, !Nat.eqb_refl. cbn [negb orb].
    destruct (mDimInNonlinear m =? 0)%nat eqn:En; cbn [run]; f_equal.
    + (* linear inputs only *)
      apply Nat.eqb_eq in En. unfold vecmat. rewrite map_map, <- Hc.
      apply map_ext. intros n. unfold response_spec.
      rewrite energies_no_input, pooledBias_logsumexp by assumption.
      rewrite (wf_linearPredictor W). rsimp. lra.
    + (* linear and nonlinear inputs *)
      rewrite logSumExp_jointEnergyOf
        by (rewrite ?(wf_predictors_rows W), ?(wf_weights_rows W),
              ?(wf_features_cols W), ?(wf_weights_cols W); reflexivity).
      unfold vecmat. rewrite <- Hc, zipWith_map.
      apply map_ext. intros n. unfold response_spec.
      rewrite (wf_weights_rows W), (wf_linearPredictor W).
      rewrite logSumExp_col_logsumexp
        by (apply map_seq_nonempty, (wf_components W)).
      rsimp. f_equal. f_equal. apply map_ext. intros c.
      apply energyAt_spec. exact W.
Qed.

(** C1.  On inputs of matching dimensionality, [response] returns for every
    column n the log-sum-exp over the components of the joint energy of
    section 4.1, plus the linear predictor applied to the linear input; for a
    model without any input this is the log-sum-exp of the biases on every
    column, which is the single bias when there is one component. *)
Theorem response_is_pooled_energy (m : STM R) (X_nl X_l : Matrix R) :
  wf_STM m ->
  rows X_nl = mDimInNonlinear m ->
  rows X_l = mDimInLinear m ->
  cols X_nl = cols X_l ->
  response2 m X_nl X_l
    = Ok (map (response_spec m X_nl X_l) (seq 0 (cols X_nl)))
  /\ (mDimInNonlinear m = 0%nat -> mDimInLinear m = 0%nat ->
      response2 m X_nl X_l
        = Ok (repeat (logsumexp (mBiases m)) (cols X_nl))
      /\ (mNumComponents m = 1%nat ->
          logsumexp (mBiases m) = nth 0 (mBiases m) 0)).
Proof.
  intros W Hnl Hl Hc.
  pose proof (response2_formula m X_nl X_l W Hnl Hl Hc) as Main.
  split; [exact Main|].
  intros En El. split.
  - rewrite Main. f_equal. rewrite (repeat_map_seq _ _ 0).
    apply map_ext. intros n. unfold response_spec.
    rewrite energies_no_input by assumption. rewrite El.
    cbn. rsimp. lra.
  - intros HK. pose proof (wf_biases W) as HB. rewrite HK in HB.
    destruct (mBiases m) as [|b [|b' l]]; cbn in HB; try lia.
    apply logsumexp_singleton.
Qed.

(** The example models satisfy the class invariant. *)
Lemma exampleSTM_wf : wf_STM exampleSTM.
Proof. constructor; cbn; lia. Defined.

Lemma noInputSTM_wf nonlinearity : wf_STM (noInputSTM nonlinearity).
Proof. constructor; cbn; lia. Defined.

Lemma linearOnlySTM_wf : wf_STM linearOnlySTM.
Proof. constructor; cbn; lia. Defined.

Lemma response_is_pooled_energy_witness :
  response2 exampleSTM exampleInputNonlinear exampleInputLinear
  = Ok (map (response_spec exampleSTM exampleInputNonlinear
                           exampleInputLinear)
            (seq 0 2)).
Proof.
  exact (proj1 (response_is_pooled_energy exampleSTM exampleInputNonlinear
                  exampleInputLinear exampleSTM_wf eq_refl eq_refl eq_refl)).
Defined.

Lemma parameters_setParameters_roundtrip_witness :
  setParameters exampleSTM (parameters exampleSTM defaultParameters)
                defaultParameters = exampleSTM.
Proof.
  exact (proj1 (parameters_setParameters_roundtrip exampleSTM
                  defaultParameters exampleSTM_wf)).
Defined.

(* ===================================================================== *)
(** * Training shortcuts *)
(* ===================================================================== *)

Lemma setConstant_repeat {A : Type} (v : list A) (c : A) :
  setConstant v c = repeat c (length v).
Proof.
  unfold setConstant. induction v as [|a v IH]; cbn; [reflexivity|].
  f_equal. exact IH.
Qed.

Lemma Rltb_true a b : a < b -> Rltb a b = true.
Proof. intros H. unfold Rltb. destruct (Rlt_dec a b); [reflexivity|lra]. Qed.

Lemma Rltb_false a b : b <= a -> Rltb a b = false.
Proof. intros H. unfold Rltb. destruct (Rlt_dec a b); [lra|reflexivity]. Qed.

Lemma Rleb_true a b : a <= b -> Rleb a b = true.
Proof. intros H. unfold Rleb. destruct (Rle_dec a b); [reflexivity|lra]. Qed.

Lemma Rleb_false a b : b < a -> Rleb a b = false.
Proof. intros H. unfold Rleb. destruct (Rle_dec a b); [lra|reflexivity]. Qed.

Lemma Reqb_refl a : Reqb a a = true.
Proof. unfold Reqb. destruct (Req_dec_T a a); [reflexivity|congruence]. Qed.

Section TrainingFacts.

Variable glmRandomWeights : nat -> list R.
Variable glmRandomBias : R.
Variable glmDefaultParameters : GLMParameters.
Variable glmTrain :
  GLM R -> Matrix R -> Matrix R -> option (Matrix R * Matrix R) ->
  GLMParameters -> result (bool * GLM R).
Variable trainableTrain :
  STM R -> Matrix R -> Matrix R -> option (Matrix R) -> option (Matrix R) ->
  Parameters R -> result bool * STM R.

Let train' :=
  train glmRandomWeights glmRandomBias glmDefaultParameters glmTrain
        trainableTrain.

Lemma train_no_input_guarded (m : STM R) (input output : Matrix R)
    (inputVal outputVal : option (Matrix R)) (params : Parameters R)
    (inverse : R -> R) :
  wf_STM m -> dimIn m = 0%nat ->
  nl_inverse (mNonlinearity m) = Some inverse ->
  0 <= arrayMean output < 1 / IZR (10 ^ 50) ->
  train' m input output inputVal outputVal params
  = (Ok true,
     assignBiases m
       (repeat (inverse (1 / IZR (10 ^ 50)) - ln (INR (mNumComponents m)))
               (mNumComponents m))).
Proof.
  intros W Hd Hi [H0 H1]. unfold train', train. rewrite Hd, Hi.
  cbn [Nat.eqb]. cbv zeta.
  rewrite setConstant_repeat, (wf_biases W).
  unfold numComponents, lit_1e_50. rsimp. rewrite <- INR_IZR_INZ.
  rewrite Rleb_true, Rltb_true by assumption. reflexivity.
Qed.

Lemma train_no_input_unguarded (m : STM R) (input output : Matrix R)
    (inputVal outputVal : option (Matrix R)) (params : Parameters R)
    (inverse : R -> R) :
  wf_STM m -> dimIn m = 0%nat ->
  nl_inverse (mNonlinearity m) = Some inverse ->
  arrayMean output < 0 \/ 1 / IZR (10 ^ 50) <= arrayMean output ->
  train' m input output inputVal outputVal params
  = (Ok true,
     assignBiases m
       (repeat (inverse (arrayMean output) - ln (INR (mNumComponents m)))
               (mNumComponents m))).
Proof.
  intros W Hd Hi H. unfold train', train. rewrite Hd, Hi.
  cbn [Nat.eqb]. cbv zeta.
  rewrite setConstant_repeat, (wf_biases W).
  unfold numComponents, lit_1e_50. rsimp. rewrite <- INR_IZR_INZ.
  destruct H as [H|H].
  - rewrite Rleb_false by assumption. reflexivity.
  - rewrite Rltb_false by assumption. rewrite andb_false_r. reflexivity.
Qed.

(** C4, as the code has it.  A model without any input is fitted in closed
    form, whatever the optimizers are: without an inverse of the link the
    call throws and leaves the model as it was; otherwise it returns true and
    every bias becomes inverse(mu) - ln K, where mu is the mean of the
    outputs, replaced by 1e-50 when it lies in [0, 1e-50). *)
Theorem train_without_inputs (m : STM R) (input output : Matrix R)
    (inputVal outputVal : option (Matrix R)) (params : Parameters R) :
  wf_STM m ->
  dimIn m = 0%nat ->
  (nl_inverse (mNonlinearity m) = None ->
   train' m input output inputVal outputVal params
   = (Throw "Nonlinearity has to be invertible for training.", m))
  /\ (forall inverse : R -> R,
        nl_inverse (mNonlinearity m) = Some inverse ->
        let mu := arrayMean output in
        let lnK := ln (INR (mNumComponents m)) in
        (0 <= mu < 1 / IZR (10 ^ 50) ->
         train' m input output inputVal outputVal params
         = (Ok true,
            assignBiases m
              (repeat (inverse (1 / IZR (10 ^ 50)) - lnK)
                      (mNumComponents m))))
        /\ (mu < 0 \/ 1 / IZR (10 ^ 50) <= mu ->
            train' m input output inputVal outputVal params
            = (Ok true,
               assignBiases m
                 (repeat (inverse mu - lnK) (mNumComponents m))))).
Proof.
  intros W Hd. split.
  - intros Hi. unfold train', train. rewrite Hd, Hi. reflexivity.
  - intros inverse Hi. cbv zeta. split; intros H.
    + apply train_no_input_guarded; assumption.
    + apply train_no_input_unguarded; assumption.
Qed.

Lemma sum_exp_repeat (v : R) (n : nat) :
  sum_list (map exp (repeat v n)) = INR n * exp v.
Proof.
  induction n as [|n IH].
  - cbn [repeat map]. rewrite sum_list_R_nil. cbn. lra.
  - cbn [repeat map]. rewrite sum_list_R_cons, IH, S_INR. lra.
Qed.

Lemma logsumexp_repeat (v : R) (n : nat) :
  (1 <= n)%nat -> logsumexp (repeat v n) = v + ln (INR n).
Proof.
  intros Hn. unfold logsumexp. rewrite sum_exp_repeat.
  rewrite ln_mult; [rewrite ln_exp; lra | | apply exp_pos].
  apply lt_0_INR. lia.
Qed.

Lemma vecmat_bottomRows (w : list R) (X : Matrix R) :
  rows X = length w ->
  vecmat w (bottomRows X (length w)) = vecmat w X.
Proof.
  intros HX. unfold vecmat, bottomRows, block. cbn [cols mk_matrix].
  apply map_ext_in. intros j Hj. apply in_seq in Hj.
  apply sum_n_ext. intros k Hk.
  rewrite coeff_mk_matrix by lia.
  rewrite HX, Nat.sub_diag. reflexivity.
Qed.

Lemma glmTrain_validation (glm : GLM R) (input output : Matrix R)
    (inputVal outputVal : option (Matrix R)) (glmParams : GLMParameters) :
  match inputVal, outputVal with
  | Some inputVal, Some outputVal =>
    glmTrain glm input output (Some (inputVal, outputVal)) glmParams
  | _, _ => glmTrain glm input output None glmParams
  end
  = glmTrain glm input output (validationData inputVal outputVal) glmParams.
Proof. destruct inputVal, outputVal; reflexivity. Qed.

(** C5.  A model with linear inputs only is fitted by the GLM alone, whatever
    the general optimizer is: the GLM is built with the model's link and
    distribution and trained on the same data; its weights become the linear
    predictor and every bias becomes the GLM's bias minus ln K, so that the
    trained model responds on every input as the trained GLM does. *)
Theorem train_linear_only_is_GLM_fit (m : STM R)
    (input output : Matrix R) (inputVal outputVal : option (Matrix R))
    (params : Parameters R) (converged : bool) (glm : GLM R) :
  wf_STM m ->
  mDimInNonlinear m = 0%nat ->
  (0 < mDimInLinear m)%nat ->
  rows input = mDimInLinear m ->
  glmTrain
    (GLM_new glmRandomWeights glmRandomBias (mDimInLinear m)
             (mNonlinearity m) (mDistribution m))
    input output (validationData inputVal outputVal)
    (glmParametersOf glmDefaultParameters params)
  = Ok (converged, glm) ->
  length (glm_weights glm) = mDimInLinear m ->
  let trained :=
    assignBiases (assignLinearPredictor m (glm_weights glm))
      (repeat (glm_bias glm - ln (INR (mNumComponents m)))
              (mNumComponents m)) in
  train' m input output inputVal outputVal params = (Ok converged, trained)
  /\ glm_nonlinearity
       (GLM_new glmRandomWeights glmRandomBias (mDimInLinear m)
                (mNonlinearity m) (mDistribution m)) = mNonlinearity m
  /\ glm_distribution
       (GLM_new glmRandomWeights glmRandomBias (mDimInLinear m)
                (mNonlinearity m) (mDistribution m)) = mDistribution m
  /\ (forall X : Matrix R,
        rows X = mDimInLinear m ->
        response trained X = Ok (glmResponse glm X)).
Proof.
  intros W Hn Hl Hrows Hglm Hw trained.
  assert (El : (mDimInLinear m =? 0)%nat = false)
    by (apply Nat.eqb_neq; lia).
  split; [|split; [reflexivity|split; [reflexivity|]]].
  - unfold train', train, dimIn, dimInNonlinear, dimInLinear.
    rewrite Hn. cbn [Nat.add]. rewrite El. cbn [Nat.eqb].
    rewrite Hrows, Nat.eqb_refl. cbn [negb]. cbv zeta.
    rewrite glmTrain_validation. unfold dimInLinear. rewrite Hglm.
    unfold trained. rewrite setConstant_repeat.
    cbn [assignLinearPredictor mBiases]. rewrite (wf_biases W).
    unfold numComponents. cbn [mNumComponents]. rsimp.
    rewrite <- INR_IZR_INZ. reflexivity.
  - intros X HX.
    assert (Wt : wf_STM trained).
    { destruct W. constructor; cbn; try assumption.
      apply repeat_length. }
    unfold response, response_fuel. cbn [response_rec].
    unfold dimIn, dimInNonlinear, dimInLinear.
    cbn [trained assignBiases assignLinearPredictor mDimInNonlinear
         mDimInLinear mLinearPredictor].
    rewrite Hn. cbn [Nat.add]. rewrite HX, Nat.eqb_refl, El.
    cbn [negb topRows bottomRows block rows mk_matrix Nat.eqb orb run].
    rewrite Nat.eqb_refl. cbn [negb].
    unfold glmResponse.
    rewrite <- Hw at 1.
    change (mk_matrix (length (glm_weights glm)) (cols X)
              (fun i j => coeff X (rows X - length (glm_weights glm) + i)
                                (0 + j)))
      with (bottomRows X (length (glm_weights glm))).
    rewrite vecmat_bottomRows by congruence.
    cbn [run]. f_equal.
    apply map_ext. intros v. rsimp. f_equal.
    rewrite (pooledBias_logsumexp trained Wt).
    cbn [trained assignBiases mBiases].
    rewrite logsumexp_repeat by apply (wf_components W). lra.
Qed.

End TrainingFacts.

Lemma IZR_pow10_50 : IZR (10 ^ 50) = 10 ^ 50.
Proof. symmetry. apply (pow_IZR 10 50). Qed.

Lemma pow10_pos n : 0 < 10 ^ n.
Proof. apply pow_lt. lra. Qed.

Lemma pow10_50_lt_60 : 10 ^ 50 < 10 ^ 60.
Proof. apply Rlt_pow; [lra | lia]. Qed.

Lemma repeat_two_inj {A : Type} (a b : A) : repeat a 2 = repeat b 2 -> a = b.
Proof. cbn. intros E. injection E as E _. exact E. Qed.

Lemma tinyOutput_mean : arrayMean tinyOutput = / 10 ^ 60.
Proof.
  unfold arrayMean, size, tinyOutput.
  cbn [data rows cols Nat.mul Nat.add Z.of_nat Pos.of_succ_nat].
  rewrite sum_list_R_cons, sum_list_R_nil. rsimp.
  pose proof (pow10_pos 60). field.
Qed.

Lemma tinyOutput_mean_in_guard :
  0 <= arrayMean tinyOutput < 1 / IZR (10 ^ 50).
Proof.
  rewrite tinyOutput_mean, IZR_pow10_50.
  pose proof (pow10_pos 50). pose proof (pow10_pos 60).
  pose proof pow10_50_lt_60. split.
  - left. apply Rinv_0_lt_compat. assumption.
  - unfold Rdiv. rewrite Rmult_1_l. apply Rinv_lt_contravar; [nra | assumption].
Qed.

Lemma train_without_inputs_witness :
  train (fun n => repeat 0 n) 0 exampleGlmDefaults exampleGlmTrain
        exampleTrainableTrain
        (noInputSTM (exponentialFunction (/ 2))) (noInput 1) tinyOutput
        None None defaultParameters
  = (Ok true,
     assignBiases (noInputSTM (exponentialFunction (/ 2)))
       (repeat (ln (1 / IZR (10 ^ 50)) - ln (INR 2)) 2)).
Proof.
  exact (proj1 (proj2 (train_without_inputs (fun n => repeat 0 n) 0
                         exampleGlmDefaults exampleGlmTrain
                         exampleTrainableTrain
                         (noInputSTM (exponentialFunction (/ 2)))
                         (noInput 1) tinyOutput None None defaultParameters
                         (noInputSTM_wf _) eq_refl)
                      ln eq_refl)
               tinyOutput_mean_in_guard).
Defined.

(** C4 as stated fails: with the exponential link and a single output of
    value 1e-60 the bias is not inverse(mean(output)) - ln K, the mean having
    been replaced by 1e-50. *)
Lemma train_without_inputs_counterexample :
  dimIn (noInputSTM (exponentialFunction (/ 2))) = 0%nat
  /\ nl_inverse (mNonlinearity (noInputSTM (exponentialFunction (/ 2))))
     = Some ln
  /\ mBiases
       (snd (train (fun n => repeat 0 n) 0 exampleGlmDefaults exampleGlmTrain
               exampleTrainableTrain
               (noInputSTM (exponentialFunction (/ 2))) (noInput 1) tinyOutput
               None None defaultParameters))
     <> repeat (ln (arrayMean tinyOutput) - ln (INR 2)) 2.
Proof.
  split; [reflexivity|]. split; [reflexivity|].
  rewrite (train_no_input_guarded _ _ _ _ _
             (noInputSTM (exponentialFunction (/ 2))) _ _ _ _ _ ln
             (noInputSTM_wf _) eq_refl eq_refl tinyOutput_mean_in_guard).
  cbn [snd mBiases assignBiases mNumComponents noInputSTM].
  intros E. apply repeat_two_inj in E.
  assert (E' : ln (1 / IZR (10 ^ 50)) = ln (arrayMean tinyOutput)) by lra.
  rewrite tinyOutput_mean, IZR_pow10_50 in E'.
  pose proof (pow10_pos 50). pose proof (pow10_pos 60).
  pose proof pow10_50_lt_60.
  apply ln_inv in E'.
  - unfold Rdiv in E'. rewrite Rmult_1_l in E'.
    apply (f_equal Rinv) in E'. rewrite !Rinv_inv in E'. lra.
  - unfold Rdiv. rewrite Rmult_1_l. apply Rinv_0_lt_compat. assumption.
  - apply Rinv_0_lt_compat. assumption.
Qed.

Lemma train_linear_only_is_GLM_fit_witness :
  train (fun n => repeat 0 n) 0 exampleGlmDefaults exampleGlmTrain
        exampleTrainableTrain
        linearOnlySTM exampleInputLinear exampleOutput None None
        defaultParameters
  = (Ok true,
     assignBiases (assignLinearPredictor linearOnlySTM [1])
       (repeat (2 - ln (INR 2)) 2)).
Proof.
  exact (proj1 (train_linear_only_is_GLM_fit
                  (fun n => repeat 0 n) 0 exampleGlmDefaults exampleGlmTrain
                  exampleTrainableTrain
                  linearOnlySTM exampleInputLinear exampleOutput None None
                  defaultParameters true
                  {| glm_dimIn := 1;
                     glm_weights := [1];
                     glm_bias := 2;
                     glm_nonlinearity := exponentialFunction (/ 2);
                     glm_distribution := bernoulli (/ 4) |}
                  linearOnlySTM_wf eq_refl Nat.lt_0_1 eq_refl eq_refl
                  eq_refl)).
Defined.

(* ===================================================================== *)
(** * Overflow and NaN in double-range arithmetic *)
(* ===================================================================== *)

Lemma DBL_MAX_pos : 0 < DBL_MAX.
Proof. unfold DBL_MAX. apply IZR_lt. reflexivity. Qed.

Lemma DBL_TINY_bounds : 0 < DBL_TINY < 1.
Proof.
  assert (H : 1 < IZR (2 ^ 1075))
    by (apply IZR_lt, Z.ltb_lt; vm_compute; reflexivity).
  unfold DBL_TINY. split.
  - apply Rinv_0_lt_compat. lra.
  - rewrite <- Rinv_1. apply Rinv_lt_contravar; lra.
Qed.

Lemma dbl_round_zero : dbl_round 0 = DFin 0.
Proof.
  pose proof DBL_MAX_pos. pose proof DBL_TINY_bounds.
  unfold dbl_round.
  destruct (Rlt_dec DBL_MAX 0); [lra|].
  destruct (Rlt_dec 0 (- DBL_MAX)); [lra|].
  destruct (Rle_dec (Rabs 0) DBL_TINY); reflexivity.
Qed.

Lemma dbl_round_in_range (r : R) :
  1 <= r <= DBL_MAX -> dbl_round r = DFin r.
Proof.
  intros [H0 H1]. pose proof DBL_TINY_bounds. unfold dbl_round.
  destruct (Rlt_dec DBL_MAX r); [lra|].
  destruct (Rlt_dec r (- DBL_MAX)); [lra|].
  destruct (Rle_dec (Rabs r) DBL_TINY) as [Ht|]; [|reflexivity].
  rewrite Rabs_pos_eq in Ht by lra. lra.
Qed.

Lemma dbl_round_overflow (r : R) : DBL_MAX < r -> dbl_round r = DInf false.
Proof.
  intros H. unfold dbl_round. destruct (Rlt_dec DBL_MAX r); [reflexivity|lra].
Qed.

Lemma dbl_round_underflow (r : R) :
  0 <= r <= DBL_TINY -> dbl_round r = DFin 0.
Proof.
  intros [H0 H1]. pose proof DBL_TINY_bounds.
  assert (1 <= DBL_MAX)
    by (unfold DBL_MAX; apply IZR_le, Z.leb_le; vm_compute; reflexivity).
  unfold dbl_round.
  destruct (Rlt_dec DBL_MAX r); [lra|].
  destruct (Rlt_dec r (- DBL_MAX)); [lra|].
  destruct (Rle_dec (Rabs r) DBL_TINY) as [|Ht]; [reflexivity|].
  rewrite Rabs_pos_eq in Ht by lra. lra.
Qed.

Lemma exp_INR_mult (n : nat) (x : R) : exp (INR n * x) = exp x ^ n.
Proof.
  induction n as [|n IH].
  - cbn. rewrite Rmult_0_l. apply exp_0.
  - rewrite S_INR, Rmult_plus_distr_r, Rmult_1_l, exp_plus, IH.
    cbn [pow]. lra.
Qed.

(** e^10000 exceeds the largest finite double. *)
Lemma exp_10000_overflows : DBL_MAX < exp 10000.
Proof.
  assert (E : 10000 = INR 1000 * 10)
    by (rewrite (INR_IZR_INZ 1000); change (Z.of_nat 1000) with 1000%Z; lra).
  rewrite E, exp_INR_mult.
  apply Rlt_le_trans with (11 ^ 1000).
  - rewrite (pow_IZR 11 1000). unfold DBL_MAX. apply IZR_lt.
    apply Z.ltb_lt. vm_compute. reflexivity.
  - apply pow_incr. split; [lra|].
    pose proof (exp_ineq1_le 10). lra.
Qed.

(** e^-10000 lies below half the smallest positive double. *)
Lemma exp_minus_10000_underflows : 0 <= exp (- 10000) <= DBL_TINY.
Proof.
  split; [left; apply exp_pos|].
  assert (E : 10000 = INR 1000 * 10)
    by (rewrite (INR_IZR_INZ 1000); change (Z.of_nat 1000) with 1000%Z; lra).
  assert (H : IZR (2 ^ 1075) <= exp 10000).
  { rewrite E, exp_INR_mult.
    apply Rle_trans with (11 ^ 1000).
    - rewrite (pow_IZR 11 1000). apply IZR_le.
      apply Z.leb_le. vm_compute. reflexivity.
    - apply pow_incr. split; [lra|].
      pose proof (exp_ineq1_le 10). lra. }
  assert (H0 : 0 < IZR (2 ^ 1075))
    by (apply IZR_lt, Z.ltb_lt; vm_compute; reflexivity).
  change (- 10000) with (Ropp 10000).
  rewrite exp_Ropp. unfold DBL_TINY.
  apply Rinv_le_contravar; assumption.
Qed.

Ltac dsimp :=
  unfold sc_zero, sc_square in *;
  cbn [sc_add sc_sub sc_mul sc_div sc_neg sc_exp sc_log sc_abs sc_of_Z
       sc_ltb sc_leb sc_neqb sc_max_value Scalar_double] in *.

Lemma ln_2_bounds : 0 < ln 2 < 1.
Proof.
  split.
  - rewrite <- ln_1. apply ln_increasing; lra.
  - apply Rlt_le_trans with (ln (exp 1)); [|rewrite ln_exp; lra].
    apply ln_increasing; [lra|].
    pose proof (exp_ineq1 1). lra.
Qed.

Lemma DBL_MAX_large : 10001 <= DBL_MAX.
Proof. unfold DBL_MAX. apply IZR_le. apply Z.leb_le. vm_compute. reflexivity. Qed.

Lemma logSumExp_col_big :
  logSumExp_col [DFin 10000; DFin 10000] = DFin (10000 + ln 2).
Proof.
  pose proof DBL_MAX_pos as Hp. pose proof DBL_MAX_large as Hl.
  pose proof ln_2_bounds as H2.
  unfold logSumExp_col, maxCoeff.
  cbn [fold_left]. unfold sc_max. dsimp.
  cbn [dbl_ltb]. rewrite Rltb_false by lra.
  cbn [map sum_list fold_right]. dsimp.
  unfold dbl_sub. cbn [dbl_neg dbl_add].
  replace (10000 + - (10000)) with 0 by lra.
  rewrite dbl_round_zero.
  cbn [dbl_exp]. rewrite exp_0.
  rewrite (dbl_round_in_range 1) by lra.
  cbn [dbl_add]. rewrite Rplus_0_r.
  rewrite (dbl_round_in_range 1) by lra.
  replace (1 + 1) with 2 by lra.
  rewrite (dbl_round_in_range 2) by lra.
  cbn [dbl_log]. rewrite Rltb_false by lra.
  unfold Reqb. destruct (Req_dec_T 2 0); [lra|].
  cbn [dbl_add]. apply dbl_round_in_range. lra.
Qed.

(** C3, at the failing input.  For a model without inputs whose two biases
    are 1e4, [response] exponentiates the biases as they are: the sum
    overflows and the response is +infinity, whereas the max-shifted
    log-sum-exp of the same biases is the finite 1e4 + ln 2, which is also
    what [response] returns through [logSumExp] when the same two energies
    arise in a model with a nonlinear input. *)
Theorem pooled_bias_overflows :
  response bigBiasSTM (noInput_double 1) = Ok [DInf false]
  /\ logSumExp_col (mBiases bigBiasSTM) = DFin (10000 + ln 2)
  /\ response bigBiasNonlinearSTM zeroInput_double
     = Ok [DFin (10000 + ln 2)].
Proof.
  pose proof DBL_MAX_pos as Hp. pose proof DBL_MAX_large as Hl.
  split; [|split].
  - unfold response, response_fuel.
    cbn [response_rec rows cols noInput_double dimIn dimInNonlinear
         dimInLinear mDimInNonlinear mDimInLinear bigBiasSTM Nat.add Nat.eqb
         negb run repeat].
    unfold pooledBias, numComponents.
    cbn [mNumComponents bigBiasSTM Nat.ltb Nat.leb mBiases map sum_list
         fold_right].
    dsimp. unfold dbl_exp.
    rewrite dbl_round_overflow by apply exp_10000_overflows.
    reflexivity.
  - apply logSumExp_col_big.
  - unfold response, response_fuel.
    cbn [response_rec rows cols zeroInput_double dimIn dimInNonlinear
         dimInLinear mDimInNonlinear mDimInLinear bigBiasNonlinearSTM
         Nat.add Nat.eqb negb run].
    rewrite logSumExp_jointEnergyOf by reflexivity.
    cbn [rows cols mWeights mFeatures mPredictors mBiases zeroInput_double
         bigBiasNonlinearSTM seq map].
    unfold energyAt, sum_n, coeff.
    cbn [rows cols data seq map sum_list fold_right nth Nat.add Nat.mul].
    dsimp. cbn [data zeroInput_double nth dbl_mul dbl_add].
    rewrite Rmult_0_l, dbl_round_zero.
    cbn [dbl_add]. rewrite Rplus_0_l, dbl_round_zero.
    cbn [dbl_add]. rewrite Rplus_0_l, dbl_round_zero.
    cbn [dbl_add]. rewrite Rplus_0_l, (dbl_round_in_range 10000) by lra.
    rewrite logSumExp_col_big. reflexivity.
Qed.

(** The same branch at the other end of the range: with two biases of
    -1e4 the exponentials underflow to zero and the response is -infinity. *)
Lemma pooled_bias_underflows :
  response (assignBiases bigBiasSTM [DFin (- 10000); DFin (- 10000)])
           (noInput_double 1)
  = Ok [DInf true].
Proof.
  unfold response, response_fuel.
  cbn [response_rec rows cols noInput_double dimIn dimInNonlinear
       dimInLinear mDimInNonlinear mDimInLinear bigBiasSTM assignBiases
       Nat.add Nat.eqb negb run repeat].
  unfold pooledBias, numComponents.
  cbn [mNumComponents bigBiasSTM assignBiases Nat.ltb Nat.leb mBiases map
       sum_list fold_right].
  dsimp. unfold dbl_exp.
  rewrite dbl_round_underflow by apply exp_minus_10000_underflows.
  cbn [dbl_add]. rewrite Rplus_0_l, dbl_round_zero.
  cbn [dbl_add]. rewrite Rplus_0_l, dbl_round_zero.
  cbn [dbl_log]. rewrite Rltb_false by lra. rewrite Reqb_refl.
  reflexivity.
Qed.

Lemma dbl_neqb_self (v : double) : negb (dbl_eqb v v) = is_nan v.
Proof.
  destruct v as [r|s|]; cbn.
  - rewrite Reqb_refl. reflexivity.
  - rewrite Bool.eqb_reflx. reflexivity.
  - reflexivity.
Qed.

(** C9.  Whatever objective the computation arrives at, the guard at the end
    of [parameterGradient] throws nothing: an exception can only come from
    the computation before it; a NaN objective is returned as the largest
    finite double and every other value as it is. *)
Theorem parameterGradient_nan_guard (m : STM double)
    (inputCompl outputCompl : Matrix double) (x : list double)
    (g : option (list double)) (params : Parameters double) :
  let computed :=
    objectiveAndGradient m inputCompl outputCompl x g params
      (batchStarts (cols inputCompl)
                   (effectiveBatchSize params (cols inputCompl))) in
  (forall msg, computed = Throw msg ->
     parameterGradient m inputCompl outputCompl x g params = Throw msg)
  /\ (forall value g',
        computed = Ok (value, g') ->
        (is_nan value = true ->
         parameterGradient m inputCompl outputCompl x g params
         = Ok (DFin DBL_MAX, g'))
        /\ (is_nan value = false ->
            parameterGradient m inputCompl outputCompl x g params
            = Ok (value, g'))).
Proof.
  cbv zeta. unfold parameterGradient, parameterGradient_omp. split.
  - intros msg ->. reflexivity.
  - intros value g' ->. cbn [bind fst snd]. unfold nanGuard. dsimp.
    rewrite dbl_neqb_self.
    split; intros ->; reflexivity.
Qed.

(** On an empty data set the normalised loss is 0/0. *)
Lemma objective_empty_data :
  objectiveAndGradient bigBiasSTM (noInput_double 0) (noInput_double 0) []
    None defaultParameters_double
    (batchStarts (cols (noInput_double 0))
       (effectiveBatchSize defaultParameters_double
                           (cols (noInput_double 0))))
  = Ok (DNaN, None).
Proof.
  unfold objectiveAndGradient.
  cbn [nl_derivative mNonlinearity bigBiasSTM exponentialFunction_double
       cols noInput_double batchStarts batchStarts_from accumulate fold_left
       option_map fst snd bind].
  unfold regularizeValue.
  cbn [regularizer defaultParameters_double trainFeatures trainPredictors
       trainWeights trainLinearPredictor regularizeFeatures
       regularizePredictors regularizeWeights regularizeLinearPredictor
       andb].
  dsimp. cbn [dbl_ltb]. rewrite !Rltb_false by lra.
  unfold normConst. cbn [cols noInput_double Z.of_nat]. dsimp.
  cbn [dbl_log dbl_neg]. rewrite Rltb_false by lra.
  unfold Reqb at 1. destruct (Req_dec_T 2 0); [lra|].
  cbn [dbl_mul]. rewrite Rmult_0_l.
  pose proof DBL_MAX_pos.
  rewrite dbl_round_zero.
  unfold dimOut. cbn [Z.of_nat Pos.of_succ_nat dbl_mul].
  rewrite Rmult_0_l. rewrite dbl_round_zero.
  cbn [dbl_div]. replace (- 0) with 0 by lra.
  rewrite !Reqb_refl. reflexivity.
Qed.

(** The guard at work: the NaN of an empty data set is returned as the
    largest finite double. *)
Lemma parameterGradient_nan_guard_witness :
  parameterGradient bigBiasSTM (noInput_double 0) (noInput_double 0) []
                    None defaultParameters_double
  = Ok (DFin DBL_MAX, None).
Proof.
  exact (proj1 (proj2 (parameterGradient_nan_guard bigBiasSTM
                         (noInput_double 0) (noInput_double 0) [] None
                         defaultParameters_double)
                      DNaN None objective_empty_data)
               eq_refl).
Defined.

(* ===================================================================== *)
(** * Batches *)
(* ===================================================================== *)

Section BatchPartition.

Local Open Scope nat_scope.

Lemma effectiveBatchSize_positive {T : Type} (params : Parameters T) numData :
  1 <= numData -> 1 <= effectiveBatchSize params numData.
Proof. intros H. unfold effectiveBatchSize. lia. Qed.

(** The batches are consecutive and cover every column once. *)
Lemma batches_cover_from fuel numData batchSize b :
  1 <= batchSize -> numData - b <= fuel ->
  flat_map (batchColumns numData batchSize)
           (batchStarts_from fuel numData batchSize b)
  = seq b (numData - b).
Proof.
  intros Hbs. revert b.
  induction fuel as [|fuel IH]; intros b Hfuel; cbn [batchStarts_from].
  - replace (numData - b) with 0 by lia. reflexivity.
  - destruct (b <? numData) eqn:E.
    + apply Nat.ltb_lt in E. cbn [flat_map].
      rewrite IH by lia. unfold batchColumns.
      destruct (Nat.le_ge_cases batchSize (numData - b)) as [H|H].
      * rewrite Nat.min_l by assumption.
        rewrite <- seq_app. f_equal. lia.
      * rewrite Nat.min_r by assumption.
        replace (numData - (b + batchSize)) with 0 by lia.
        cbn [seq]. apply app_nil_r.
    + apply Nat.ltb_ge in E. replace (numData - b) with 0 by lia. reflexivity.
Qed.

Lemma batches_cover numData batchSize :
  numData = 0 \/ 1 <= batchSize ->
  flat_map (batchColumns numData batchSize) (batchStarts numData batchSize)
  = seq 0 numData.
Proof.
  intros [->|H]; [reflexivity|].
  unfold batchStarts. rewrite batches_cover_from by lia.
  rewrite Nat.sub_0_r. reflexivity.
Qed.

Lemma batches_cover_effective {T : Type} (params : Parameters T) numData :
  flat_map (batchColumns numData (effectiveBatchSize params numData))
           (batchStarts numData (effectiveBatchSize params numData))
  = seq 0 numData.
Proof.
  apply batches_cover. destruct numData; [left; reflexivity|right].
  apply effectiveBatchSize_positive. lia.
Qed.

End BatchPartition.

Lemma imap_ext {A B : Type} (f h : nat -> A -> B) (l : list A) :
  (forall k v, (k < length l)%nat -> f k v = h k v) -> imap f l = imap h l.
Proof.
  intros E. unfold imap. apply map_ext_in. intros [k v] Hin. cbn [fst snd].
  apply E. apply in_combine_l in Hin. apply in_seq in Hin. lia.
Qed.

Lemma imap_imap_from {A B C : Type} (f : nat -> B -> C) (h : nat -> A -> B)
    (l : list A) (s : nat) :
  map (fun p => f (fst p) (snd p))
      (combine (seq s (length l))
               (map (fun p => h (fst p) (snd p))
                    (combine (seq s (length l)) l)))
  = map (fun p => f (fst p) (h (fst p) (snd p)))
        (combine (seq s (length l)) l).
Proof.
  revert s. induction l as [|a l IH]; intros s; cbn; [reflexivity|].
  f_equal. apply IH.
Qed.

Lemma imap_imap {A B C : Type} (f : nat -> B -> C) (h : nat -> A -> B)
    (l : list A) :
  imap f (imap h l) = imap (fun k v => f k (h k v)) l.
Proof.
  unfold imap at 1. rewrite length_imap. unfold imap.
  apply imap_imap_from.
Qed.

Lemma imap_id_from {A : Type} (l : list A) (s : nat) :
  map (fun p : nat * A => snd p) (combine (seq s (length l)) l) = l.
Proof.
  revert s. induction l as [|a l IH]; intros s; cbn; [reflexivity|].
  f_equal. apply IH.
Qed.

Lemma imap_id {A : Type} (f : nat -> A -> A) (l : list A) :
  (forall k v, (k < length l)%nat -> f k v = v) -> imap f l = l.
Proof.
  intros E. rewrite (imap_ext f (fun _ v => v)) by exact E.
  apply imap_id_from.
Qed.

Lemma nth_map_seq {A : Type} (phi : nat -> A) (s k : nat) (d : A) :
  (k < s)%nat -> nth k (map phi (seq 0 s)) d = phi k.
Proof.
  intros H. rewrite nth_indep with (d' := phi 0%nat)
    by (rewrite length_map, length_seq; exact H).
  rewrite map_nth, seq_nth by exact H. reflexivity.
Qed.

Lemma inView_spec offset len k :
  inView offset len k = true <-> (offset <= k < offset + len)%nat.
Proof.
  unfold inView. rewrite andb_true_iff, Nat.leb_le, Nat.ltb_lt. tauto.
Qed.

(** [view -= d] for a block [d] given entry by entry. *)
Lemma view_sub_map_seq (g : list R) offset (phi : nat -> R) s :
  view_sub g offset (map phi (seq 0 s))
  = imap (fun k v => v - (if inView offset s k then phi (k - offset)%nat
                          else 0)) g.
Proof.
  unfold view_sub. rewrite length_map, length_seq.
  apply imap_ext. intros k v _.
  destruct (inView offset s k) eqn:E.
  - apply inView_spec in E. rewrite nth_map_seq by lia. reflexivity.
  - rsimp. lra.
Qed.

Lemma view_add_map_seq (g : list R) offset (phi : nat -> R) s :
  view_add g offset (map phi (seq 0 s))
  = imap (fun k v => v + (if inView offset s k then phi (k - offset)%nat
                          else 0)) g.
Proof.
  unfold view_add. rewrite length_map, length_seq.
  apply imap_ext. intros k v _.
  destruct (inView offset s k) eqn:E.
  - apply inView_spec in E. rewrite nth_map_seq by lia. reflexivity.
  - rsimp. lra.
Qed.

Lemma sum_list_R_app (l l' : list R) :
  sum_list (l ++ l') = sum_list l + sum_list l'.
Proof.
  induction l as [|a l IH]; cbn [app].
  - rewrite sum_list_R_nil. lra.
  - rewrite !sum_list_R_cons, IH. lra.
Qed.

Lemma sum_list_R_perm (l l' : list R) :
  Permutation l l' -> sum_list l = sum_list l'.
Proof.
  induction 1 as [|a l l' _ IH|a b l|l l' l'' _ IH1 _ IH2].
  - reflexivity.
  - rewrite !sum_list_R_cons, IH. reflexivity.
  - rewrite !sum_list_R_cons. lra.
  - congruence.
Qed.

Lemma sum_n_R_plus (f h : nat -> R) n :
  sum_n (fun k => f k + h k) n = sum_n f n + sum_n h n.
Proof.
  unfold sum_n. induction (seq 0 n) as [|a l IH]; cbn [map].
  - rewrite !sum_list_R_nil. lra.
  - rewrite !sum_list_R_cons, IH. lra.
Qed.

Lemma sum_n_R_if (c : bool) (f : nat -> R) n :
  (if c then sum_n f n else 0) = sum_n (fun k => if c then f k else 0) n.
Proof.
  destruct c; [reflexivity|]. symmetry. apply sum_n_R_zero. reflexivity.
Qed.

(** A sum over the columns of a batch. *)
Lemma sum_n_batch (phi : nat -> R) b w :
  sum_n (fun n => phi (b + n)%nat) w = sum_list (map phi (seq b w)).
Proof.
  unfold sum_n. f_equal. revert b.
  induction w as [|w IH]; intros b; cbn [seq map]; [reflexivity|].
  rewrite Nat.add_0_r. f_equal.
  rewrite <- seq_shift, map_map.
  rewrite <- (IH (S b)).
  apply map_ext. intros n. f_equal. lia.
Qed.

Lemma sum_list_flat_map (phi : nat -> R) (cover : nat -> list nat)
    (l : list nat) :
  sum_list (map (fun b => sum_list (map phi (cover b))) l)
  = sum_list (map phi (flat_map cover l)).
Proof.
  induction l as [|a l IH]; cbn [map flat_map]; [reflexivity|].
  rewrite sum_list_R_cons, map_app, sum_list_R_app, IH. reflexivity.
Qed.

(** Summing batch by batch, in any order of the batches, is summing over all
    examples. *)
Lemma sum_over_batches (phi : nat -> R) (params : Parameters R) numData
    (schedule : list nat) :
  Permutation schedule
    (batchStarts numData (effectiveBatchSize params numData)) ->
  sum_list
    (map (fun b =>
            sum_n (fun n => phi (b + n)%nat)
                  (Nat.min (effectiveBatchSize params numData) (numData - b)))
         schedule)
  = sum_n phi numData.
Proof.
  intros HP.
  rewrite (sum_list_R_perm _ _ (Permutation_map _ HP)).
  rewrite (map_ext _ (fun b => sum_list
             (map phi (batchColumns numData
                         (effectiveBatchSize params numData) b))))
    by (intros b; apply sum_n_batch).
  rewrite sum_list_flat_map, batches_cover_effective. reflexivity.
Qed.

(* ===================================================================== *)
(** * One batch *)
(* ===================================================================== *)

Section CoefficientFacts.

Context {T : Type} {ST : Scalar T}.
Local Open Scope nat_scope.

Lemma coeff_mmul (A B : Matrix T) i j :
  i < rows A -> j < cols B ->
  coeff (mmul A B) i j
  = sum_n (fun k => sc_mul (coeff A i k) (coeff B k j)) (cols A).
Proof. intros. unfold mmul. rewrite coeff_mk_matrix by assumption. reflexivity. Qed.

Lemma coeff_transpose (A : Matrix T) i j :
  i < cols A -> j < rows A -> coeff (transpose A) i j = coeff A j i.
Proof. intros. unfold transpose. rewrite coeff_mk_matrix by assumption. reflexivity. Qed.

Lemma coeff_cwise (f : T -> T) (A : Matrix T) i j :
  i < rows A -> j < cols A -> coeff (cwise f A) i j = f (coeff A i j).
Proof. intros. unfold cwise. rewrite coeff_mk_matrix by assumption. reflexivity. Qed.

Lemma coeff_mscale (s : T) (A : Matrix T) i j :
  i < rows A -> j < cols A ->
  coeff (mscale s A) i j = sc_mul s (coeff A i j).
Proof. intros. unfold mscale. apply coeff_cwise; assumption. Qed.

Lemma coeff_cwise_mul (A B : Matrix T) i j :
  i < rows A -> j < cols A ->
  coeff (cwise_mul A B) i j = sc_mul (coeff A i j) (coeff B i j).
Proof. intros. unfold cwise_mul. rewrite coeff_mk_matrix by assumption. reflexivity. Qed.

Lemma coeff_rowwise_sub (A : Matrix T) (v : list T) i j :
  i < rows A -> j < cols A ->
  coeff (rowwise_sub A v) i j = sc_sub (coeff A i j) (nth j v sc_zero).
Proof. intros. unfold rowwise_sub. rewrite coeff_mk_matrix by assumption. reflexivity. Qed.

Lemma coeff_rowwise_mul (A : Matrix T) (v : list T) i j :
  i < rows A -> j < cols A ->
  coeff (rowwise_mul A v) i j = sc_mul (coeff A i j) (nth j v sc_zero).
Proof. intros. unfold rowwise_mul. rewrite coeff_mk_matrix by assumption. reflexivity. Qed.

Lemma coeff_block (M : Matrix T) r0 c0 r c i j :
  i < r -> j < c -> coeff (block M r0 c0 r c) i j = coeff M (r0 + i) (c0 + j).
Proof. intros. unfold block. rewrite coeff_mk_matrix by assumption. reflexivity. Qed.

(** The data of a matrix given by its entries, in column-major order. *)
Lemma data_mk_matrix_ext r c (f : nat -> nat -> T) (h : nat -> T) :
  (forall q, q < r * c -> q mod r < r -> q / r < c ->
             f (q mod r) (q / r) = h q) ->
  data (mk_matrix r c f) = map h (seq 0 (r * c)).
Proof.
  intros E. cbn [data mk_matrix]. apply map_ext_in. intros q Hq.
  apply in_seq in Hq. apply E; [lia | |].
  - apply Nat.mod_upper_bound. nia.
  - apply Nat.Div0.div_lt_upper_bound. lia.
Qed.

(** The views have the shapes of the blocks they stand for. *)
Lemma rows_weightsView (m : STM T) params x :
  rows (weightsView m params x) = mNumComponents m.
Proof. unfold weightsView. destruct (trainWeights params); reflexivity. Qed.

Lemma cols_weightsView (m : STM T) params x :
  cols (weightsView m params x) = mNumFeatures m.
Proof. unfold weightsView. destruct (trainWeights params); reflexivity. Qed.

Lemma rows_featuresView (m : STM T) params x :
  rows (featuresView m params x) = dimInNonlinear m.
Proof. unfold featuresView. destruct (trainFeatures params); reflexivity. Qed.

Lemma cols_featuresView (m : STM T) params x :
  cols (featuresView m params x) = mNumFeatures m.
Proof. unfold featuresView. destruct (trainFeatures params); reflexivity. Qed.

Lemma rows_predictorsView (m : STM T) params x :
  rows (predictorsView m params x) = mNumComponents m.
Proof.
  unfold predictorsView. destruct (trainPredictors params); reflexivity.
Qed.

Lemma cols_predictorsView (m : STM T) params x :
  cols (predictorsView m params x) = dimInNonlinear m.
Proof.
  unfold predictorsView. destruct (trainPredictors params); reflexivity.
Qed.

(** The energy on column [n] of a batch is the energy on column [b + n] of
    the whole data. *)
Lemma energyAt_block (weights features predictors : Matrix T) biases
    (X : Matrix T) b w c n :
  n < w -> cols predictors = rows features ->
  energyAt weights features predictors biases
           (block X 0 b (rows features) w) c n
  = energyAt weights features predictors biases X c (b + n).
Proof.
  intros Hn HP. unfold energyAt. f_equal. f_equal.
  - apply sum_n_ext. intros f _. f_equal. f_equal.
    apply sum_n_ext. intros d Hd. f_equal.
    rewrite coeff_block by assumption. reflexivity.
  - apply sum_n_ext. intros d Hd. f_equal.
    rewrite coeff_block by (try assumption; lia). reflexivity.
Qed.

End CoefficientFacts.

Lemma cond_view_sub (flag : bool) (g : list R) offset (phi : nat -> R) s :
  (if flag then view_sub g offset (map phi (seq 0 s)) else g)
  = imap (fun k v => v - (if flag && inView offset s k
                          then phi (k - offset)%nat else 0)) g.
Proof.
  destruct flag; cbn [andb].
  - apply view_sub_map_seq.
  - symmetry. apply imap_id. intros. lra.
Qed.

Section BatchFacts.

Variable m : STM R.
Variable params : Parameters R.
Variables nonlinearity derivative : R -> R.
Variables inputCompl outputCompl : Matrix R.
Variable x : list R.
Hypothesis output_rows : rows outputCompl = dimOut m.

Lemma batchStep_examples (batchSize b : nat) (logLik : R)
    (g : option (list R)) :
  batchStep m params nonlinearity derivative inputCompl outputCompl x
            batchSize b (logLik, g)
  = (logLik
     + sum_n (fun n => exLogLik m params nonlinearity inputCompl outputCompl
                                x (b + n)%nat)
             (Nat.min batchSize (cols inputCompl - b)),
     option_map
       (imap (fun k v =>
                v - sum_n (fun n => exGradient m params nonlinearity
                                      derivative inputCompl outputCompl x k
                                      (b + n)%nat)
                          (Nat.min batchSize (cols inputCompl - b))))
       g).
Proof.
  unfold batchStep. cbv zeta. cbn [fst snd].
  set (w := Nat.min batchSize (cols inputCompl - b)).
  set (Wt := weightsView m params x).
  set (Ft := featuresView m params x).
  set (Pt := predictorsView m params x).
  set (Bt := biasesView m params x).
  set (Lt := linearPredictorView m params x).
  set (Xnl := block inputCompl 0 b (dimInNonlinear m) w).
  set (Xl := block inputCompl (dimInNonlinear m) b (dimInLinear m) w).
  set (FO := mmul (transpose Ft) Xnl).
  set (FOsq := cwise sc_square FO).
  set (JE := colwise_add (madd (mmul Wt FOsq) (mmul Pt Xnl)) Bt).
  set (r0 := logSumExp JE).
  set (post := cwise sc_exp (rowwise_sub JE r0)).
  set (resp := if negb (dimInLinear m =? 0)%nat
               then zipWith sc_add r0 (vecmat Lt Xl) else r0).
  set (out := data (middleCols outputCompl b w)).
  set (tmp := zipWith sc_mul
                (map sc_neg (zipWith (ud_gradient (mDistribution m)) out
                                     (map nonlinearity resp)))
                (map derivative resp)).
  set (postTmp := rowwise_mul post tmp).
  pose proof (rows_weightsView m params x) as RW.
  pose proof (cols_weightsView m params x) as CW.
  pose proof (rows_featuresView m params x) as RF.
  pose proof (cols_featuresView m params x) as CF.
  pose proof (rows_predictorsView m params x) as RP.
  pose proof (cols_predictorsView m params x) as CP.
  fold Wt in RW, CW. fold Ft in RF, CF. fold Pt in RP, CP.
  assert (HXnl : forall d n, (d < dimInNonlinear m)%nat -> (n < w)%nat ->
                   coeff Xnl d n = coeff inputCompl d (b + n)).
  { intros d n Hd Hn. unfold Xnl. rewrite coeff_block by assumption.
    reflexivity. }
  assert (HXl : forall d n, (d < dimInLinear m)%nat -> (n < w)%nat ->
                  coeff Xl d n = coeff inputCompl (dimInNonlinear m + d) (b + n)).
  { intros d n Hd Hn. unfold Xl. rewrite coeff_block by assumption.
    reflexivity. }
  assert (HFO : forall f n, (f < mNumFeatures m)%nat -> (n < w)%nat ->
                  coeff FO f n = exFeatureOutput m params inputCompl x f (b + n)).
  { intros f n Hf Hn. unfold FO.
    rewrite coeff_featureOutput by (rewrite ?CF; assumption).
    rewrite RF. unfold exFeatureOutput. apply sum_n_ext. intros d Hd.
    rsimp. rewrite HXnl by assumption. reflexivity. }
  assert (HJE : forall c n, (c < mNumComponents m)%nat -> (n < w)%nat ->
                  coeff JE c n = exEnergy m params inputCompl x c (b + n)).
  { intros c n Hc Hn.
    change JE with (jointEnergyOf Wt Ft Pt Bt Xnl).
    rewrite coeff_jointEnergyOf by (rewrite ?RW, ?RP, ?CF, ?CW; auto).
    unfold Xnl. rewrite <- RF.
    rewrite energyAt_block by (rewrite ?CP, ?RF; auto). reflexivity. }
  assert (Hr0 : r0 = map (fun n => exPooled m params inputCompl x (b + n))
                         (seq 0 w)).
  { unfold r0. change JE with (jointEnergyOf Wt Ft Pt Bt Xnl).
    rewrite logSumExp_jointEnergyOf by (rewrite ?RW, ?RP, ?CF, ?CW; auto).
    cbn [cols Xnl block mk_matrix]. apply map_ext_in. intros n Hn.
    apply in_seq in Hn. unfold exPooled. f_equal. rewrite RW.
    apply map_ext_in. intros c Hc. unfold Xnl. rewrite <- RF.
    rewrite energyAt_block by (rewrite ?CP, ?RF; auto; lia). reflexivity. }
  assert (Hpost : forall c n, (c < mNumComponents m)%nat -> (n < w)%nat ->
                    coeff post c n
                    = exPosterior m params inputCompl x c (b + n)).
  { intros c n Hc Hn. unfold post.
    rewrite coeff_cwise, coeff_rowwise_sub
      by (cbn [rows cols rowwise_sub JE colwise_add mk_matrix madd mmul Xnl block];
          rewrite ?RW; assumption).
    rewrite HJE by assumption. rewrite Hr0, (nth_map_seq _ _ _ _ Hn).
    reflexivity. }
  assert (HLt : (length Lt <= dimInLinear m)%nat).
  { unfold Lt, linearPredictorView, map_vector.
    destruct (trainLinearPredictor params); apply firstn_le_length. }
  assert (Hresp : resp = map (fun n => exResponse m params inputCompl x (b + n))
                             (seq 0 w)).
  { unfold resp, exResponse.
    destruct (negb (dimInLinear m =? 0)%nat); [|exact Hr0].
    rewrite Hr0. unfold vecmat. cbn [cols Xl block mk_matrix].
    rewrite zipWith_map. apply map_ext_in. intros n Hn. apply in_seq in Hn.
    rsimp. f_equal. unfold Lt in *. apply sum_n_ext. intros k Hk.
    rewrite HXl by lia. reflexivity. }
  assert (Hout : out = map (fun n => coeff outputCompl 0 (b + n)) (seq 0 w)).
  { unfold out, middleCols, block. cbn [data mk_matrix].
    rewrite output_rows. unfold dimOut. rewrite Nat.mul_1_l.
    apply map_ext. intros q. rewrite Nat.mod_1_r, Nat.div_1_r. reflexivity. }
  assert (Htmp : tmp = map (fun n => exTmp m params nonlinearity derivative
                                       inputCompl outputCompl x (b + n))
                           (seq 0 w)).
  { unfold tmp. rewrite Hout, Hresp, !map_map, zipWith_map, map_map,
      zipWith_map. reflexivity. }
  assert (HPT : forall c n, (c < mNumComponents m)%nat -> (n < w)%nat ->
                  coeff postTmp c n
                  = exPostTmp m params nonlinearity derivative inputCompl
                              outputCompl x c (b + n)).
  { intros c n Hc Hn. unfold postTmp.
    rewrite coeff_rowwise_mul
      by (cbn [rows cols post cwise rowwise_sub JE colwise_add mk_matrix madd
               mmul Xnl block]; rewrite ?RW; assumption).
    rewrite Hpost by assumption. rewrite Htmp, (nth_map_seq _ _ _ _ Hn).
    reflexivity. }
  assert (RPT : rows postTmp = mNumComponents m) by exact RW.
  assert (CPT : cols postTmp = w) by reflexivity.
  assert (RFO : rows FO = mNumFeatures m) by exact CF.
  assert (CFO : cols FO = w) by reflexivity.
  assert (E1 : rowwise_sum postTmp
               = map (fun c => sum_n (fun n => exGradBiases m params
                                nonlinearity derivative inputCompl outputCompl
                                x c (b + n)%nat) w)
                     (seq 0 (mNumComponents m))).
  { unfold rowwise_sum. rewrite RPT, CPT. apply map_ext_in. intros c Hc.
    apply in_seq in Hc. apply sum_n_ext. intros n Hn.
    apply HPT; lia. }
  assert (E2 : data (mmul postTmp (transpose FOsq))
               = map (fun q => sum_n (fun n => exGradWeights m params
                                nonlinearity derivative inputCompl outputCompl
                                x q (b + n)%nat) w)
                     (seq 0 (mNumComponents m * mNumFeatures m))).
  { unfold mmul. rewrite RPT, CPT.
    change (cols (transpose FOsq)) with (rows FO). rewrite RFO.
    apply data_mk_matrix_ext. intros q Hq Hmod Hdiv.
    apply sum_n_ext. intros n Hn.
    rewrite HPT by assumption.
    rewrite coeff_transpose
      by (cbn [rows cols FOsq cwise mk_matrix]; rewrite ?RFO, ?CFO; assumption).
    unfold FOsq. rewrite coeff_cwise by (rewrite ?RFO, ?CFO; assumption).
    rewrite HFO by assumption. reflexivity. }
  assert (E4 : data (mmul postTmp (transpose Xnl))
               = map (fun q => sum_n (fun n => exGradPredictors m params
                                nonlinearity derivative inputCompl outputCompl
                                x q (b + n)%nat) w)
                     (seq 0 (mNumComponents m * dimInNonlinear m))).
  { unfold mmul. rewrite RPT, CPT.
    change (cols (transpose Xnl)) with (dimInNonlinear m).
    apply data_mk_matrix_ext. intros q Hq Hmod Hdiv.
    apply sum_n_ext. intros n Hn.
    rewrite HPT by assumption.
    rewrite coeff_transpose by assumption.
    rewrite HXnl by assumption. reflexivity. }
  assert (E5 : matvec Xl tmp
               = map (fun q => sum_n (fun n => exGradLinear m params
                                nonlinearity derivative inputCompl outputCompl
                                x q (b + n)%nat) w)
                     (seq 0 (dimInLinear m))).
  { unfold matvec. cbn [rows cols Xl block mk_matrix].
    apply map_ext_in. intros q Hq. apply in_seq in Hq.
    apply sum_n_ext. intros n Hn.
    rewrite HXl by lia. rewrite Htmp, (nth_map_seq _ _ _ _ Hn).
    reflexivity. }
  assert (E3 : data (mmul Xnl (transpose
                 (cwise_mul FO (mmul (mscale (sc_of_Z 2) (transpose Wt))
                                     postTmp))))
               = map (fun q => sum_n (fun n => exGradFeatures m params
                                nonlinearity derivative inputCompl outputCompl
                                x q (b + n)%nat) w)
                     (seq 0 (dimInNonlinear m * mNumFeatures m))).
  { unfold mmul at 1.
    change (rows Xnl) with (dimInNonlinear m). change (cols Xnl) with w.
    change (cols (transpose (cwise_mul FO
              (mmul (mscale (sc_of_Z 2) (transpose Wt)) postTmp))))
      with (rows FO).
    rewrite RFO.
    apply data_mk_matrix_ext. intros q Hq Hmod Hdiv.
    apply sum_n_ext. intros n Hn.
    rewrite HXnl by assumption.
    rewrite coeff_transpose
      by (cbn [rows cols cwise_mul mk_matrix]; rewrite ?RFO, ?CFO; assumption).
    rewrite coeff_cwise_mul by (rewrite ?RFO, ?CFO; assumption).
    rewrite HFO by assumption.
    rewrite coeff_mmul
      by (cbn [rows cols mscale cwise transpose mk_matrix]; rewrite ?CW, ?CPT;
          assumption).
    change (cols (mscale (sc_of_Z 2) (transpose Wt))) with (rows Wt).
    rewrite RW. unfold exGradFeatures. cbv zeta. rsimp. f_equal. f_equal.
    apply sum_n_ext. intros c Hc.
    rewrite coeff_mscale
      by (cbn [rows cols transpose mk_matrix]; rewrite ?CW, ?RW; assumption).
    rewrite coeff_transpose by (rewrite ?CW, ?RW; assumption).
    rewrite HPT by assumption. rsimp. reflexivity. }
  rewrite E1, E2, E3, E4, E5.
  destruct g as [g|]; cbn [option_map].
  - f_equal.
    + rsimp. f_equal. rewrite Hout, Hresp, map_map, zipWith_map.
      reflexivity.
    + f_equal. rewrite !cond_view_sub, !imap_imap.
      apply imap_ext. intros k v _. unfold exGradient.
      rewrite !sum_n_R_plus, <- !sum_n_R_if, Nat.sub_0_r. lra.
  - f_equal. rsimp. f_equal. rewrite Hout, Hresp, map_map, zipWith_map.
    reflexivity.
Qed.

End BatchFacts.

(* ===================================================================== *)
(** * The batch loop *)
(* ===================================================================== *)

Section AccumulateFacts.

Variable m : STM R.
Variable params : Parameters R.
Variables nonlinearity derivative : R -> R.
Variables inputCompl outputCompl : Matrix R.
Variable x : list R.
Hypothesis output_rows : rows outputCompl = dimOut m.

Let width (b : nat) : nat :=
  Nat.min (effectiveBatchSize params (cols inputCompl)) (cols inputCompl - b).

(** After any sequence of batches the accumulator holds the sums of what the
    batches contributed. *)
Lemma fold_batches (schedule : list nat) (logLik : R) (g : option (list R)) :
  fold_left
    (fun acc b =>
       batchStep m params nonlinearity derivative inputCompl outputCompl x
                 (effectiveBatchSize params (cols inputCompl)) b acc)
    schedule (logLik, g)
  = (logLik
     + sum_list
         (map (fun b =>
                 sum_n (fun n => exLogLik m params nonlinearity inputCompl
                                          outputCompl x (b + n)%nat)
                       (width b))
              schedule),
     option_map
       (imap (fun k v =>
                v - sum_list
                      (map (fun b =>
                              sum_n (fun n => exGradient m params nonlinearity
                                                derivative inputCompl
                                                outputCompl x k (b + n)%nat)
                                    (width b))
                           schedule)))
       g).
Proof.
  revert logLik g.
  induction schedule as [|b schedule IH]; intros logLik g; cbn [fold_left map].
  - rewrite sum_list_R_nil. f_equal; [lra|].
    destruct g as [g|]; [|reflexivity]. cbn [option_map]. f_equal.
    symmetry. apply imap_id. intros. lra.
  - rewrite (batchStep_examples m params nonlinearity derivative inputCompl
               outputCompl x output_rows).
    rewrite IH. fold (width b). f_equal.
    + rewrite sum_list_R_cons. lra.
    + destruct g as [g|]; [|reflexivity]. cbn [option_map]. f_equal.
      rewrite imap_imap. apply imap_ext. intros k v _.
      cbn [map]. rewrite sum_list_R_cons. lra.
Qed.

(** Whatever the batch size and the order of the batches, the loop leaves
    the log-likelihood of all examples and the accumulated gradient. *)
Lemma accumulate_total (g : option (list R)) (schedule : list nat) :
  Permutation schedule
    (batchStarts (cols inputCompl)
                 (effectiveBatchSize params (cols inputCompl))) ->
  accumulate m params nonlinearity derivative inputCompl outputCompl x g
             schedule
  = (totalLogLik m params nonlinearity inputCompl outputCompl x,
     option_map (totalGradient m params nonlinearity derivative inputCompl
                               outputCompl x) g).
Proof.
  intros HP. unfold accumulate. rewrite fold_batches.
  unfold width. rewrite sum_over_batches by exact HP. f_equal.
  - unfold totalLogLik. rsimp. lra.
  - destruct g as [g|]; [|reflexivity]. cbn [option_map]. f_equal.
    unfold totalGradient. apply imap_ext. intros k v _.
    rewrite sum_over_batches by exact HP. reflexivity.
Qed.

End AccumulateFacts.

(** The objective and the gradient in closed form. *)
Lemma objectiveAndGradient_total (m : STM R) (inputCompl outputCompl : Matrix R)
    (x : list R) (g : option (list R)) (params : Parameters R)
    (schedule : list nat) (derivative : R -> R) :
  rows outputCompl = dimOut m ->
  nl_derivative (mNonlinearity m) = Some derivative ->
  Permutation schedule
    (batchStarts (cols inputCompl)
                 (effectiveBatchSize params (cols inputCompl))) ->
  objectiveAndGradient m inputCompl outputCompl x g params schedule
  = Ok (regularizeValue m params x
          (- totalLogLik m params (nl_apply (mNonlinearity m)) inputCompl
                         outputCompl x
           / normConst m inputCompl),
        option_map
          (fun g =>
             regularizeGradient m params x
               (normalizeGradient (offsetEnd m params)
                  (normConst m inputCompl)
                  (totalGradient m params (nl_apply (mNonlinearity m))
                                 derivative inputCompl outputCompl x g)))
          g).
Proof.
  intros HY HD HP. unfold objectiveAndGradient. rewrite HD. cbv zeta.
  rewrite accumulate_total by assumption. cbn [fst snd].
  destruct g; reflexivity.
Qed.

Lemma nanGuard_R (value : R) : nanGuard value = value.
Proof. unfold nanGuard. rsimp. rewrite Reqb_refl. reflexivity. Qed.

Lemma normConst_R (m : STM R) (inputCompl : Matrix R) :
  normConst m inputCompl = INR (cols inputCompl) * ln 2 * INR (dimOut m).
Proof. unfold normConst. rsimp. rewrite <- !INR_IZR_INZ. reflexivity. Qed.

(* ===================================================================== *)
(** * Independence of the batching *)
(* ===================================================================== *)

(** C6.  The examples are split into consecutive batches of
    min(max(batchSize, 10), N) columns (the last one shorter) which cover
    every example once, and [parameterGradient] sums what the batches
    contribute: the loss it returns is the normalised, regularised negative
    of the sum over the batches of the log-likelihoods of their examples,
    and every gradient entry it writes is formed in the same way from the
    sum over the batches of the per-example gradients.  Over the real
    numbers these sums are the sums over all examples, so the objective and
    the gradient returned are the same for every configured batch size and
    every order in which the batches take effect. *)
Theorem batching_is_immaterial (m : STM R) (inputCompl outputCompl : Matrix R)
    (x : list R) (g : option (list R)) (params : Parameters R)
    (batchSize1 batchSize2 : Z) (schedule1 schedule2 : list nat) :
  rows outputCompl = dimOut m ->
  let numData := cols inputCompl in
  let params1 := setBatchSize params batchSize1 in
  let params2 := setBatchSize params batchSize2 in
  Permutation schedule1
    (batchStarts numData (effectiveBatchSize params1 numData)) ->
  Permutation schedule2
    (batchStarts numData (effectiveBatchSize params2 numData)) ->
  let nonlinearity := nl_apply (mNonlinearity m) in
  let c := INR numData * ln 2 * INR (dimOut m) in
  (* the sum, over the batches of the first schedule, of the sums of [phi]
     over the examples of each batch *)
  let batchSum (phi : nat -> R) : R :=
    sum_list
      (map (fun b =>
              sum_list
                (map phi (batchColumns numData
                            (effectiveBatchSize params1 numData) b)))
           schedule1) in
  Z.of_nat (effectiveBatchSize params1 numData)
    = Z.min (Z.max batchSize1 10) (Z.of_nat numData)
  /\ flat_map (batchColumns numData (effectiveBatchSize params1 numData))
              (batchStarts numData (effectiveBatchSize params1 numData))
     = seq 0 numData
  /\ (forall derivative,
        accumulate m params1 (nl_apply (mNonlinearity m)) derivative
                   inputCompl outputCompl x g schedule1
        = (totalLogLik m params (nl_apply (mNonlinearity m)) inputCompl
                       outputCompl x,
           option_map (totalGradient m params (nl_apply (mNonlinearity m))
                                     derivative inputCompl outputCompl x) g))
  /\ parameterGradient_omp m inputCompl outputCompl x g params1 schedule1
     = parameterGradient_omp m inputCompl outputCompl x g params2 schedule2
  /\ parameterGradient m inputCompl outputCompl x g params1
     = parameterGradient m inputCompl outputCompl x g params2
  /\ (forall derivative,
        nl_derivative (mNonlinearity m) = Some derivative ->
        parameterGradient_omp m inputCompl outputCompl x g params1 schedule1
        = Ok (regularizeValue m params x
                (- batchSum (exLogLik m params nonlinearity inputCompl
                                      outputCompl x) / c),
              option_map
                (fun g =>
                   regularizeGradient m params x
                     (normalizeGradient (offsetEnd m params) c
                        (imap (fun k v =>
                                 v - batchSum
                                       (exGradient m params nonlinearity
                                          derivative inputCompl outputCompl
                                          x k))
                              (initGradient m params g))))
                g)
        /\ parameterGradient m inputCompl outputCompl x g params1
           = Ok (regularizeValue m params x
                   (- totalLogLik m params nonlinearity inputCompl
                                  outputCompl x / c),
                 option_map
                   (fun g =>
                      regularizeGradient m params x
                        (normalizeGradient (offsetEnd m params) c
                           (totalGradient m params nonlinearity derivative
                                          inputCompl outputCompl x g)))
                   g))
  /\ batchSum (exLogLik m params nonlinearity inputCompl outputCompl x)
     = totalLogLik m params nonlinearity inputCompl outputCompl x
  /\ (forall derivative k,
        batchSum (exGradient m params nonlinearity derivative inputCompl
                             outputCompl x k)
        = sum_n (exGradient m params nonlinearity derivative inputCompl
                            outputCompl x k) numData)
  /\ (nl_derivative (mNonlinearity m) = None ->
      parameterGradient_omp m inputCompl outputCompl x g params1 schedule1
      = Throw "Nonlinearity has to be differentiable for training.").
Proof.
  intros HY numData params1 params2 HP1 HP2 nonlinearity c batchSum.
  assert (Homp : forall s1 s2,
             Permutation s1
               (batchStarts numData (effectiveBatchSize params1 numData)) ->
             Permutation s2
               (batchStarts numData (effectiveBatchSize params2 numData)) ->
             parameterGradient_omp m inputCompl outputCompl x g params1 s1
             = parameterGradient_omp m inputCompl outputCompl x g params2 s2).
  { intros s1 s2 H1 H2. unfold parameterGradient_omp.
    destruct (nl_derivative (mNonlinearity m)) as [derivative|] eqn:HD.
    - rewrite (objectiveAndGradient_total m inputCompl outputCompl x g params1
                 s1 derivative HY HD H1).
      rewrite (objectiveAndGradient_total m inputCompl outputCompl x g params2
                 s2 derivative HY HD H2).
      reflexivity.
    - unfold objectiveAndGradient. rewrite HD. reflexivity. }
  assert (HB : forall phi : nat -> R, batchSum phi = sum_n phi numData).
  { intros phi. unfold batchSum.
    rewrite (sum_list_R_perm _ _ (Permutation_map _ HP1)).
    rewrite sum_list_flat_map, batches_cover_effective. reflexivity. }
  assert (Htotal : forall s derivative,
             nl_derivative (mNonlinearity m) = Some derivative ->
             Permutation s
               (batchStarts numData (effectiveBatchSize params1 numData)) ->
             parameterGradient_omp m inputCompl outputCompl x g params1 s
             = Ok (regularizeValue m params x
                     (- totalLogLik m params nonlinearity inputCompl
                                    outputCompl x / c),
                   option_map
                     (fun g =>
                        regularizeGradient m params x
                          (normalizeGradient (offsetEnd m params) c
                             (totalGradient m params nonlinearity derivative
                                            inputCompl outputCompl x g)))
                     g)).
  { intros s derivative HD H. unfold parameterGradient_omp.
    rewrite (objectiveAndGradient_total m inputCompl outputCompl x g params1
               s derivative HY HD H).
    cbn [bind fst snd]. rewrite nanGuard_R, normConst_R. reflexivity. }
  split; [|split; [|split; [|split; [|split; [|split; [|split; [|split]]]]]]].
  - unfold effectiveBatchSize, params1. cbn [base setBatchSize batchSize]. lia.
  - apply batches_cover_effective.
  - intros derivative.
    apply (accumulate_total m params1 (nl_apply (mNonlinearity m)) derivative
             inputCompl outputCompl x HY g schedule1 HP1).
  - apply Homp; assumption.
  - unfold parameterGradient. apply Homp; apply Permutation_refl.
  - intros derivative HD. split.
    + rewrite (Htotal schedule1 derivative HD HP1).
      rewrite HB. unfold totalLogLik. fold numData.
      f_equal. f_equal.
      destruct g as [g|]; [|reflexivity]. cbn [option_map].
      f_equal. f_equal. f_equal. unfold totalGradient.
      apply imap_ext. intros k v _. rewrite HB. reflexivity.
    + unfold parameterGradient.
      apply (Htotal _ derivative HD (Permutation_refl _)).
  - rewrite HB. reflexivity.
  - intros derivative k. apply HB.
  - intros HD. unfold parameterGradient_omp, objectiveAndGradient.
    rewrite HD. reflexivity.
Qed.

(** Twelve examples: one batch of ten followed by one of two, taken in
    reverse order, against a single batch of twelve. *)
Lemma batching_is_immaterial_witness :
  parameterGradient_omp exampleSTM wideInput wideOutput
    (parameters exampleSTM defaultParameters) (Some (repeat 0 8))
    (setBatchSize defaultParameters 10) [10; 0]%nat
  = parameterGradient_omp exampleSTM wideInput wideOutput
      (parameters exampleSTM defaultParameters) (Some (repeat 0 8))
      (setBatchSize defaultParameters 20) [0]%nat.
Proof.
  exact (proj1 (proj2 (proj2 (proj2
    (batching_is_immaterial exampleSTM wideInput wideOutput
       (parameters exampleSTM defaultParameters) (Some (repeat 0 8))
       defaultParameters 10 20 [10; 0]%nat [0]%nat
       eq_refl (perm_swap 0%nat 10%nat []) (Permutation_refl [0%nat])))))).
Defined.

(* ===================================================================== *)
(** * Normalisation *)
(* ===================================================================== *)

Lemma Rltb_irrefl (a : R) : Rltb a a = false.
Proof. apply Rltb_false. lra. Qed.

(** Without positive coefficients nothing is added to the loss or to the
    gradient. *)
Lemma regularizeValue_unregularized (m : STM R) params x value :
  regularizeValue m (unregularized params) x value = value.
Proof.
  unfold regularizeValue, unregularized.
  cbn [regularizer regularizeFeatures regularizePredictors regularizeWeights
       regularizeLinearPredictor].
  rsimp. rewrite !Rltb_irrefl, !andb_false_r.
  destruct (regularizer params); reflexivity.
Qed.

Lemma regularizeGradient_unregularized (m : STM R) params x g :
  regularizeGradient m (unregularized params) x g = g.
Proof.
  unfold regularizeGradient, unregularized.
  cbn [regularizer regularizeFeatures regularizePredictors regularizeWeights
       regularizeLinearPredictor].
  rsimp. rewrite !Rltb_irrefl, !andb_false_r.
  destruct (regularizer params); reflexivity.
Qed.

(** [parameterGradient] in closed form. *)
Lemma parameterGradient_total (m : STM R) (inputCompl outputCompl : Matrix R)
    (x : list R) (g : option (list R)) (params : Parameters R)
    (derivative : R -> R) :
  rows outputCompl = dimOut m ->
  nl_derivative (mNonlinearity m) = Some derivative ->
  parameterGradient m inputCompl outputCompl x g params
  = Ok (regularizeValue m params x
          (- totalLogLik m params (nl_apply (mNonlinearity m)) inputCompl
                         outputCompl x
           / (INR (cols inputCompl) * ln 2 * INR (dimOut m))),
        option_map
          (fun g =>
             regularizeGradient m params x
               (normalizeGradient (offsetEnd m params)
                  (INR (cols inputCompl) * ln 2 * INR (dimOut m))
                  (totalGradient m params (nl_apply (mNonlinearity m))
                                 derivative inputCompl outputCompl x g)))
          g).
Proof.
  intros HY HD. unfold parameterGradient, parameterGradient_omp.
  rewrite (objectiveAndGradient_total m inputCompl outputCompl x g params _
             derivative HY HD (Permutation_refl _)).
  cbn [bind fst snd]. rewrite nanGuard_R, normConst_R. reflexivity.
Qed.





(* ===================================================================== *)
(** * Regularisation *)
(* ===================================================================== *)

Section ViewFacts.

Context {T : Type} {ST : Scalar T}.
Local Open Scope nat_scope.

Lemma coeff_flat (M : Matrix T) q :
  q < rows M * cols M -> coeff M (q mod rows M) (q / rows M) = nth q (data M) sc_zero.
Proof.
  intros Hq. unfold coeff. f_equal.
  rewrite (Nat.div_mod_eq q (rows M)) at 3. lia.
Qed.

(** On a matrix whose data has rows * cols entries, a coefficient-wise
    operation maps over the data. *)
Lemma data_cwise (f : T -> T) (M : Matrix T) :
  length (data M) = rows M * cols M ->
  data (cwise f M) = map f (data M).
Proof.
  intros HL. unfold cwise.
  rewrite (data_mk_matrix_ext _ _ _ (fun q => f (nth q (data M) sc_zero))).
  - rewrite <- HL, <- map_map with (g := f), map_nth_seq. reflexivity.
  - intros q Hq _ _. f_equal. apply coeff_flat. exact Hq.
Qed.

Lemma length_data_cwise (f : T -> T) (M : Matrix T) :
  length (data (cwise f M)) = rows (cwise f M) * cols (cwise f M).
Proof. unfold cwise. apply length_data_mk_matrix. Qed.

Lemma data_mscale (s : T) (M : Matrix T) :
  length (data M) = rows M * cols M ->
  data (mscale s M) = map (sc_mul s) (data M).
Proof. apply data_cwise. Qed.

Lemma length_firstn_skipn (x : list T) off n :
  off + n <= length x -> length (firstn n (skipn off x)) = n.
Proof. intros H. rewrite length_firstn, length_skipn. lia. Qed.

Lemma offsets_monotone (m : STM T) params :
  offsetWeights m params
    + (if trainWeights params then mNumComponents m * mNumFeatures m else 0)
    <= offsetEnd m params
  /\ offsetFeatures m params
     + (if trainFeatures params then dimInNonlinear m * mNumFeatures m else 0)
     <= offsetEnd m params
  /\ offsetPredictors m params
     + (if trainPredictors params
        then mNumComponents m * dimInNonlinear m else 0)
     <= offsetEnd m params
  /\ offsetLinearPredictor m params
     + (if trainLinearPredictor params then dimInLinear m else 0)
     <= offsetEnd m params.
Proof.
  unfold offsetEnd, offsetLinearPredictor, offsetPredictors, offsetFeatures.
  lia.
Qed.

(** The views hold as many entries as their shapes say. *)
Lemma length_weightsView (m : STM T) params x :
  wf_STM m -> offsetEnd m params <= length x ->
  length (data (weightsView m params x)) = mNumComponents m * mNumFeatures m.
Proof.
  intros W Hx. pose proof (offsets_monotone m params) as H.
  unfold weightsView, map_view. destruct (trainWeights params); cbn [data].
  - apply length_firstn_skipn. lia.
  - apply length_firstn_skipn. rewrite (wf_weights_data W). lia.
Qed.

Lemma length_featuresView (m : STM T) params x :
  wf_STM m -> offsetEnd m params <= length x ->
  length (data (featuresView m params x))
  = dimInNonlinear m * mNumFeatures m.
Proof.
  intros W Hx. pose proof (offsets_monotone m params) as H.
  unfold featuresView, map_view. destruct (trainFeatures params); cbn [data].
  - apply length_firstn_skipn. lia.
  - apply length_firstn_skipn. rewrite (wf_features_data W).
    unfold dimInNonlinear. lia.
Qed.

Lemma length_predictorsView (m : STM T) params x :
  wf_STM m -> offsetEnd m params <= length x ->
  length (data (predictorsView m params x))
  = mNumComponents m * dimInNonlinear m.
Proof.
  intros W Hx. pose proof (offsets_monotone m params) as H.
  unfold predictorsView, map_view. destruct (trainPredictors params);
    cbn [data].
  - apply length_firstn_skipn. lia.
  - apply length_firstn_skipn. rewrite (wf_predictors_data W).
    unfold dimInNonlinear. lia.
Qed.

Lemma length_linearPredictorView (m : STM T) params x :
  wf_STM m -> offsetEnd m params <= length x ->
  length (linearPredictorView m params x) = dimInLinear m.
Proof.
  intros W Hx. pose proof (offsets_monotone m params) as H.
  unfold linearPredictorView, map_vector.
  destruct (trainLinearPredictor params).
  - apply length_firstn_skipn. lia.
  - apply length_firstn_skipn. rewrite (wf_linearPredictor W).
    unfold dimInLinear. lia.
Qed.

End ViewFacts.

Lemma Rsign_zero : Rsign 0 = 0.
Proof.
  unfold Rsign. destruct (Rlt_dec 0 0); [lra|]. reflexivity.
Qed.

Lemma signum_Rsign (t : R) : signum t = Rsign t.
Proof.
  unfold signum, Rsign. rsimp. unfold Rltb.
  destruct (Rlt_dec 0 t); [reflexivity|].
  destruct (Rlt_dec t 0); reflexivity.
Qed.

(** [view += d] for a block obtained by mapping over the coefficients. *)
Lemma cond_view_add_map (flag : bool) (g : list R) offset (psi : R -> R)
    (theta : list R) :
  (if flag then view_add g offset (map psi theta) else g)
  = imap (fun k v => v + (if flag && inView offset (length theta) k
                          then psi (nth (k - offset) theta 0) else 0)) g.
Proof.
  destruct flag; cbn [andb].
  - unfold view_add. rewrite length_map. apply imap_ext. intros k v _.
    destruct (inView offset (length theta) k) eqn:E.
    + apply inView_spec in E. rsimp.
      rewrite nth_indep with (d' := psi 0) by (rewrite length_map; lia).
      rewrite map_nth. reflexivity.
    + lra.
  - symmetry. apply imap_id. intros. lra.
Qed.

Section RegularizerFacts.

Variable m : STM R.
Variable params : Parameters R.
Variable x : list R.
Hypothesis m_wf : wf_STM m.
Hypothesis x_length : (offsetEnd m params <= length x)%nat.

Let thetaW := data (weightsView m params x).
Let thetaF := data (featuresView m params x).
Let thetaP := data (predictorsView m params x).
Let thetaL := linearPredictorView m params x.

Lemma weightsView_full :
  length (data (weightsView m params x))
  = (rows (weightsView m params x) * cols (weightsView m params x))%nat.
Proof.
  rewrite rows_weightsView, cols_weightsView.
  apply length_weightsView; assumption.
Qed.

Lemma featuresView_full :
  length (data (featuresView m params x))
  = (rows (featuresView m params x) * cols (featuresView m params x))%nat.
Proof.
  rewrite rows_featuresView, cols_featuresView.
  apply length_featuresView; assumption.
Qed.

Lemma predictorsView_full :
  length (data (predictorsView m params x))
  = (rows (predictorsView m params x) * cols (predictorsView m params x))%nat.
Proof.
  rewrite rows_predictorsView, cols_predictorsView.
  apply length_predictorsView; assumption.
Qed.

(** The loss with the penalties of the regularised blocks. *)
Lemma regularizeValue_penalty (value : R) :
  regularizeValue m params x value
  = value
    + (if regularized (trainFeatures params) (regularizeFeatures params)
       then penalty (regularizer params) (regularizeFeatures params) thetaF
       else 0)
    + (if regularized (trainPredictors params) (regularizePredictors params)
       then penalty (regularizer params) (regularizePredictors params) thetaP
       else 0)
    + (if regularized (trainWeights params) (regularizeWeights params)
       then penalty (regularizer params) (regularizeWeights params) thetaW
       else 0)
    + (if regularized (trainLinearPredictor params)
                      (regularizeLinearPredictor params)
       then penalty (regularizer params) (regularizeLinearPredictor params)
                    thetaL
       else 0).
Proof.
  unfold regularizeValue, absSum, squareSum, regularized, penalty.
  rewrite !data_cwise
    by first [apply weightsView_full | apply featuresView_full
             | apply predictorsView_full].
  fold thetaW thetaF thetaP thetaL. rsimp.
  destruct (regularizer params);
    destruct (trainFeatures params && Rltb 0 (regularizeFeatures params));
    destruct (trainPredictors params && Rltb 0 (regularizePredictors params));
    destruct (trainWeights params && Rltb 0 (regularizeWeights params));
    destruct (trainLinearPredictor params
              && Rltb 0 (regularizeLinearPredictor params));
    lra.
Qed.

(** The gradient with the penalty gradients of the regularised blocks. *)
Lemma regularizeGradient_penalty (g : list R) :
  regularizeGradient m params x g
  = imap (fun k v =>
            v
            + penaltyGradientAt (regularizer params) (trainFeatures params)
                (regularizeFeatures params) (offsetFeatures m params)
                thetaF k
            + penaltyGradientAt (regularizer params) (trainPredictors params)
                (regularizePredictors params) (offsetPredictors m params)
                thetaP k
            + penaltyGradientAt (regularizer params) (trainWeights params)
                (regularizeWeights params) (offsetWeights m params)
                thetaW k
            + penaltyGradientAt (regularizer params)
                (trainLinearPredictor params)
                (regularizeLinearPredictor params)
                (offsetLinearPredictor m params) thetaL k)
         g.
Proof.
  unfold regularizeGradient, penaltyGradientAt, regularized, penaltyGradient.
  destruct (regularizer params).
  - rewrite !data_mscale by apply length_data_cwise.
    rewrite !data_cwise
      by first [apply weightsView_full | apply featuresView_full
               | apply predictorsView_full].
    fold thetaW thetaF thetaP thetaL.
    rewrite !map_map, !cond_view_add_map, !imap_imap.
    apply imap_ext. intros k v _. rsimp. rewrite !signum_Rsign. reflexivity.
  - rewrite !data_mscale
      by first [apply weightsView_full | apply featuresView_full
               | apply predictorsView_full].
    fold thetaW thetaF thetaP thetaL.
    rewrite !cond_view_add_map, !imap_imap.
    apply imap_ext. intros k v _. rsimp.
    repeat match goal with
           | |- context [if ?b then _ else _] => destruct b
           end; lra.
Qed.

End RegularizerFacts.

(** C8.  Compared with the same call without regularisation, the loss grows
    by lambda * sum |theta| (L1) or lambda * sum theta^2 (L2) for every block
    that is flagged trainable and has a positive coefficient, and the entries
    of the gradient that belong to such a block grow by lambda * sign(theta)
    (L1, the sign of 0 being 0) or 2 * lambda * theta (L2); nothing is added
    for the other blocks. *)
Theorem regularizer_adds_penalty (m : STM R) (inputCompl outputCompl : Matrix R)
    (x : list R) (g : list R) (params : Parameters R)
    (derivative : R -> R) :
  wf_STM m ->
  (offsetEnd m params <= length x)%nat ->
  rows outputCompl = dimOut m ->
  nl_derivative (mNonlinearity m) = Some derivative ->
  let reg := regularizer params in
  let thetaW := data (weightsView m params x) in
  let thetaF := data (featuresView m params x) in
  let thetaP := data (predictorsView m params x) in
  let thetaL := linearPredictorView m params x in
  let penalties :=
    (if regularized (trainFeatures params) (regularizeFeatures params)
     then penalty reg (regularizeFeatures params) thetaF else 0)
    + (if regularized (trainPredictors params) (regularizePredictors params)
       then penalty reg (regularizePredictors params) thetaP else 0)
    + (if regularized (trainWeights params) (regularizeWeights params)
       then penalty reg (regularizeWeights params) thetaW else 0)
    + (if regularized (trainLinearPredictor params)
                      (regularizeLinearPredictor params)
       then penalty reg (regularizeLinearPredictor params) thetaL else 0) in
  exists (value0 : R) (g0 g1 : list R),
    parameterGradient m inputCompl outputCompl x (Some g)
                      (unregularized params)
    = Ok (value0, Some g0)
    /\ parameterGradient m inputCompl outputCompl x (Some g) params
       = Ok (value0 + penalties, Some g1)
    /\ parameterGradient m inputCompl outputCompl x None params
       = Ok (value0 + penalties, None)
    /\ length g1 = length g0
    /\ forall k, (k < length g0)%nat ->
         nth k g1 0
         = nth k g0 0
           + penaltyGradientAt reg (trainFeatures params)
               (regularizeFeatures params) (offsetFeatures m params) thetaF k
           + penaltyGradientAt reg (trainPredictors params)
               (regularizePredictors params) (offsetPredictors m params)
               thetaP k
           + penaltyGradientAt reg (trainWeights params)
               (regularizeWeights params) (offsetWeights m params) thetaW k
           + penaltyGradientAt reg (trainLinearPredictor params)
               (regularizeLinearPredictor params)
               (offsetLinearPredictor m params) thetaL k.
Proof.
  intros W Hx HY HD reg thetaW thetaF thetaP thetaL penalties.
  set (c := INR (cols inputCompl) * ln 2 * INR (dimOut m)).
  set (value0 := - totalLogLik m params (nl_apply (mNonlinearity m))
                               inputCompl outputCompl x / c).
  set (g0 := normalizeGradient (offsetEnd m params) c
               (totalGradient m params (nl_apply (mNonlinearity m))
                              derivative inputCompl outputCompl x g)).
  exists value0, g0, (regularizeGradient m params x g0).
  split; [|split; [|split; [|split]]].
  - rewrite (parameterGradient_total m inputCompl outputCompl x (Some g)
               (unregularized params) derivative HY HD).
    rewrite regularizeValue_unregularized. cbn [option_map].
    rewrite regularizeGradient_unregularized. reflexivity.
  - rewrite (parameterGradient_total m inputCompl outputCompl x (Some g)
               params derivative HY HD).
    cbn [option_map]. fold c. fold value0. fold g0.
    rewrite (regularizeValue_penalty m params x W Hx).
    unfold penalties, reg, thetaW, thetaF, thetaP, thetaL.
    f_equal. f_equal. lra.
  - rewrite (parameterGradient_total m inputCompl outputCompl x None
               params derivative HY HD).
    cbn [option_map]. fold c. fold value0.
    rewrite (regularizeValue_penalty m params x W Hx).
    unfold penalties, reg, thetaW, thetaF, thetaP, thetaL.
    f_equal. f_equal. lra.
  - rewrite (regularizeGradient_penalty m params x W Hx). apply length_imap.
  - intros k Hk.
    rewrite (regularizeGradient_penalty m params x W Hx).
    rewrite (nth_imap _ g0 k 0 0 Hk). reflexivity.
Qed.

Lemma regularizer_adds_penalty_witness :
  exists (value0 : R) (g0 g1 : list R),
    parameterGradient exampleSTM exampleInput exampleOutput
      (parameters exampleSTM (regularizedParameters L1)) (Some (repeat 0 8))
      (unregularized (regularizedParameters L1))
    = Ok (value0, Some g0)
    /\ parameterGradient exampleSTM exampleInput exampleOutput
         (parameters exampleSTM (regularizedParameters L1))
         (Some (repeat 0 8)) (regularizedParameters L1)
       = Ok (value0
             + ((if regularized true (/ 2)
                then penalty L1 (/ 2)
                       (data (featuresView exampleSTM
                                (regularizedParameters L1)
                                (parameters exampleSTM
                                   (regularizedParameters L1))))
                else 0)
                + (if regularized true 0
                then penalty L1 0
                       (data (predictorsView exampleSTM
                                (regularizedParameters L1)
                                (parameters exampleSTM
                                   (regularizedParameters L1))))
                else 0)
             + (if regularized true 0
                then penalty L1 0
                       (data (weightsView exampleSTM
                                (regularizedParameters L1)
                                (parameters exampleSTM
                                   (regularizedParameters L1))))
                else 0)
             + (if regularized true 0
                then penalty L1 0
                       (linearPredictorView exampleSTM
                          (regularizedParameters L1)
                          (parameters exampleSTM (regularizedParameters L1)))
                else 0)),
             Some g1).
Proof.
  destruct (regularizer_adds_penalty exampleSTM exampleInput exampleOutput
              (parameters exampleSTM (regularizedParameters L1))
              (repeat 0 8) (regularizedParameters L1)
              (fun x => Rmax (exp x) (/ 2))
              exampleSTM_wf (Nat.le_refl 8) eq_refl eq_refl)
    as (value0 & g0 & g1 & H0 & H1 & _).
  exists value0, g0, g1. split; [exact H0 | exact H1].
Defined.

(* ===================================================================== *)
(** * The log-likelihood behind the objective *)
(* ===================================================================== *)

Section WrittenBackFacts.

Context {T : Type} {ST : Scalar T}.
Local Open Scope nat_scope.

Lemma response_no_linear (m : STM T) (X X' : Matrix T) :
  dimInLinear m = 0 -> response m X = response2 m X X'.
Proof.
  intros E. unfold response, response2, response_fuel. cbn [response_rec].
  rewrite E. cbn [Nat.eqb negb].
  destruct (rows X =? dimIn m); reflexivity.
Qed.

Lemma firstn_full (l : list T) n : length l = n -> firstn n l = l.
Proof. intros <-. apply firstn_all. Qed.

(** The views the objective computes with are the blocks of the model into
    which the flat vector has been written. *)
Lemma biasesView_setParameters (m : STM T) params x :
  wf_STM m -> mBiases (setParameters m x params) = biasesView m params x.
Proof.
  intros W. rewrite setParameters_blocks. cbn [mBiases]. unfold biasesView.
  destruct (trainBiases params); [reflexivity|].
  unfold map_vector. cbn [skipn]. symmetry. apply firstn_full, W.
Qed.

Lemma weightsView_setParameters (m : STM T) params x :
  wf_STM m -> mWeights (setParameters m x params) = weightsView m params x.
Proof.
  intros W. rewrite setParameters_blocks. cbn [mWeights]. unfold weightsView.
  destruct (trainWeights params); [reflexivity|].
  unfold map_view. cbn [skipn]. symmetry.
  apply matrix_eq; [apply W | apply W |]. symmetry. apply firstn_full, W.
Qed.

Lemma featuresView_setParameters (m : STM T) params x :
  wf_STM m -> mFeatures (setParameters m x params) = featuresView m params x.
Proof.
  intros W. rewrite setParameters_blocks. cbn [mFeatures]. unfold featuresView.
  destruct (trainFeatures params); [reflexivity|].
  unfold map_view. cbn [skipn]. symmetry.
  apply matrix_eq; [apply W | apply W |]. symmetry. apply firstn_full, W.
Qed.

Lemma predictorsView_setParameters (m : STM T) params x :
  wf_STM m ->
  mPredictors (setParameters m x params) = predictorsView m params x.
Proof.
  intros W. rewrite setParameters_blocks. cbn [mPredictors].
  unfold predictorsView.
  destruct (trainPredictors params); [reflexivity|].
  unfold map_view. cbn [skipn]. symmetry.
  apply matrix_eq; [apply W | apply W |]. symmetry. apply firstn_full, W.
Qed.

Lemma linearPredictorView_setParameters (m : STM T) params x :
  wf_STM m ->
  mLinearPredictor (setParameters m x params) = linearPredictorView m params x.
Proof.
  intros W. rewrite setParameters_blocks. cbn [mLinearPredictor].
  unfold linearPredictorView.
  destruct (trainLinearPredictor params); [reflexivity|].
  unfold map_vector. cbn [skipn]. symmetry. apply firstn_full, W.
Qed.

(** Writing a vector of sufficient length keeps the class invariant. *)
Lemma setParameters_wf (m : STM T) params x :
  wf_STM m -> offsetEnd m params <= length x ->
  wf_STM (setParameters m x params).
Proof.
  intros W Hx.
  pose proof (biasesView_setParameters m params x W) as EB.
  pose proof (weightsView_setParameters m params x W) as EW.
  pose proof (featuresView_setParameters m params x W) as EF.
  pose proof (predictorsView_setParameters m params x W) as EP.
  pose proof (linearPredictorView_setParameters m params x W) as EL.
  constructor; rewrite ?EB, ?EW, ?EF, ?EP, ?EL;
    rewrite ?rows_weightsView, ?cols_weightsView, ?rows_featuresView,
      ?cols_featuresView, ?rows_predictorsView, ?cols_predictorsView;
    rewrite setParameters_blocks;
    cbn [mNumComponents mNumFeatures mDimInNonlinear mDimInLinear].
  - apply W.
  - unfold biasesView, map_vector. cbn [skipn].
    pose proof (offsets_monotone m params) as H.
    destruct (trainBiases params) eqn:E.
    + apply firstn_length_le.
      unfold offsetEnd, offsetLinearPredictor, offsetPredictors,
        offsetFeatures, offsetWeights in Hx. rewrite E in Hx. lia.
    + apply firstn_length_le. rewrite (wf_biases W). lia.
  - reflexivity.
  - reflexivity.
  - apply length_weightsView; assumption.
  - reflexivity.
  - reflexivity.
  - apply length_featuresView; assumption.
  - reflexivity.
  - reflexivity.
  - apply length_predictorsView; assumption.
  - apply length_linearPredictorView; assumption.
Qed.

End WrittenBackFacts.

Section LogLikelihoodFacts.

Variable m : STM R.
Variable params : Parameters R.
Variables inputCompl outputCompl : Matrix R.
Variable x : list R.
Hypothesis m_wf : wf_STM m.
Hypothesis x_length : (offsetEnd m params <= length x)%nat.
Hypothesis input_rows : rows inputCompl = dimIn m.
Hypothesis output_rows : rows outputCompl = dimOut m.
Hypothesis output_data : length (data outputCompl) = cols outputCompl.
Hypothesis same_cols : cols inputCompl = cols outputCompl.

Let written : STM R := setParameters m x params.

Lemma written_dims :
  mDimInNonlinear written = mDimInNonlinear m
  /\ mDimInLinear written = mDimInLinear m
  /\ mNumComponents written = mNumComponents m
  /\ mNumFeatures written = mNumFeatures m
  /\ mNonlinearity written = mNonlinearity m
  /\ mDistribution written = mDistribution m.
Proof. unfold written. rewrite setParameters_blocks. repeat split. Qed.

(** The response of the written-back model, example by example, on any
    pair of inputs that agrees with the rows of the stacked input. *)
Lemma response_spec_example (X_nl X_l : Matrix R) (n : nat) :
  (forall d, (d < mDimInNonlinear m)%nat ->
             coeff X_nl d n = coeff inputCompl d n) ->
  (forall d, (d < mDimInLinear m)%nat ->
             coeff X_l d n = coeff inputCompl (mDimInNonlinear m + d) n) ->
  response_spec written X_nl X_l n = exResponse m params inputCompl x n.
Proof.
  intros Hnl Hl. destruct written_dims as (Dn & Dl & DK & DF & _ & _).
  unfold response_spec, exResponse. rewrite Dl, DK.
  assert (Epool : logsumexp
            (map (fun c => jointEnergy_spec written X_nl c n)
                 (seq 0 (mNumComponents m)))
          = exPooled m params inputCompl x n).
  { unfold exPooled.
    rewrite logSumExp_col_logsumexp
      by (apply map_seq_nonempty, (wf_components m_wf)).
    f_equal. apply map_ext. intros c.
    unfold jointEnergy_spec, exEnergy, energyAt. rewrite Dn, DF.
    unfold written.
    rewrite (biasesView_setParameters m params x m_wf),
      (weightsView_setParameters m params x m_wf),
      (featuresView_setParameters m params x m_wf),
      (predictorsView_setParameters m params x m_wf).
    rewrite rows_featuresView, cols_weightsView, cols_predictorsView.
    rsimp. unfold Rsqr, dimInNonlinear. f_equal. f_equal.
    - apply sum_n_ext. intros f _. f_equal. f_equal.
      + apply sum_n_ext. intros d Hd. rewrite Hnl by assumption.
        reflexivity.
      + apply sum_n_ext. intros d Hd. rewrite Hnl by assumption.
        reflexivity.
    - apply sum_n_ext. intros d Hd. rewrite Hnl by assumption.
      reflexivity. }
  rewrite Epool.
  unfold written.
  rewrite (linearPredictorView_setParameters m params x m_wf).
  rewrite (length_linearPredictorView m params x m_wf x_length).
  unfold dimInLinear, dimInNonlinear.
  destruct (mDimInLinear m =? 0)%nat eqn:El; cbn [negb].
  - apply Nat.eqb_eq in El. rewrite El. cbn. rsimp. lra.
  - f_equal. apply sum_n_ext. intros d Hd. rewrite Hl by assumption.
    reflexivity.
Qed.

Lemma output_data_coeff :
  data outputCompl
  = map (fun n => coeff outputCompl 0 n) (seq 0 (cols inputCompl)).
Proof.
  rewrite same_cols, <- output_data.
  rewrite <- (map_nth_seq (data outputCompl) 0) at 1.
  apply map_ext. intros n. unfold coeff. rewrite output_rows. unfold dimOut.
  f_equal. lia.
Qed.

(** The log-likelihood of the model into which [x] has been written is, for
    every example, the term the objective sums. *)
Lemma logLikelihood_examples :
  logLikelihood written inputCompl outputCompl
  = Ok (map (exLogLik m params (nl_apply (mNonlinearity m)) inputCompl
                      outputCompl x)
            (seq 0 (cols inputCompl))).
Proof.
  destruct written_dims as (Dn & Dl & DK & DF & Dnl & Dud).
  pose proof (setParameters_wf m params x m_wf x_length) as Ww.
  fold written in Ww.
  assert (Hdist : forall X_nl X_l,
             (forall n d, (n < cols inputCompl)%nat ->
                (d < mDimInNonlinear m)%nat ->
                coeff X_nl d n = coeff inputCompl d n) ->
             (forall n d, (n < cols inputCompl)%nat ->
                (d < mDimInLinear m)%nat ->
                coeff X_l d n = coeff inputCompl (mDimInNonlinear m + d) n) ->
             distLogLikelihood written outputCompl
               (map (response_spec written X_nl X_l)
                    (seq 0 (cols inputCompl)))
             = map (exLogLik m params (nl_apply (mNonlinearity m)) inputCompl
                             outputCompl x)
                   (seq 0 (cols inputCompl))).
  { intros X_nl X_l Hnl Hl. unfold distLogLikelihood.
    rewrite output_data_coeff, map_map, zipWith_map, Dnl, Dud.
    apply map_ext_in. intros n Hn. apply in_seq in Hn.
    unfold exLogLik. f_equal. f_equal.
    apply response_spec_example; intros d Hd; [apply Hnl | apply Hl]; lia. }
  unfold logLikelihood, response_fuel. cbn [logLikelihood_rec].
  unfold dimIn, dimInNonlinear, dimInLinear, dimOut in *.
  rewrite Dn, Dl, input_rows, Nat.eqb_refl. cbn [negb].
  destruct (mDimInLinear m =? 0)%nat eqn:El; cbn [negb].
  - apply Nat.eqb_eq in El.
    rewrite output_rows, <- same_cols, !Nat.eqb_refl. cbn [negb run].
    rewrite (response_no_linear written inputCompl
               (bottomRows inputCompl 0))
      by (unfold dimInLinear; congruence).
    rewrite response2_formula; try assumption.
    + cbn [bind]. f_equal. apply Hdist.
      * intros; reflexivity.
      * intros n d _ Hd. lia.
    + rewrite Dn, input_rows, El. lia.
    + rewrite Dl, El. reflexivity.
    + reflexivity.
  - rewrite output_rows. cbn [Nat.eqb negb topRows bottomRows block rows
      mk_matrix]. rewrite !Nat.eqb_refl. cbn [negb orb run].
    change (mk_matrix (mDimInNonlinear m) (cols inputCompl)
              (fun i j => coeff inputCompl (0 + i) (0 + j)))
      with (topRows inputCompl (mDimInNonlinear m)).
    change (mk_matrix (mDimInLinear m) (cols inputCompl)
              (fun i j => coeff inputCompl
                            (rows inputCompl - mDimInLinear m + i) (0 + j)))
      with (bottomRows inputCompl (mDimInLinear m)).
    rewrite response2_formula; try assumption.
    + cbn [bind]. f_equal. apply Hdist.
      * intros n d Hn Hd. unfold topRows.
        rewrite coeff_block by assumption. reflexivity.
      * intros n d Hn Hd. unfold bottomRows.
        rewrite coeff_block by assumption. rewrite input_rows. f_equal. lia.
    + rewrite Dn. reflexivity.
    + rewrite Dl. reflexivity.
    + reflexivity.
Qed.

End LogLikelihoodFacts.

Lemma normConst_nonzero (m : STM R) (inputCompl : Matrix R) :
  (1 <= cols inputCompl)%nat ->
  INR (cols inputCompl) * ln 2 * INR (dimOut m) <> 0.
Proof.
  intros HN. unfold dimOut. cbn [INR].
  assert (0 < INR (cols inputCompl)) by (apply lt_0_INR; lia).
  pose proof ln_2_bounds. nra.
Qed.

(** C7.  The loss returned is the negative log-likelihood of all N examples
    divided by N * ln 2 * dimOut (the penalty of the regulariser comes on
    top of it, and is absent when no coefficient is positive), and every
    entry of the accumulated gradient is divided by the same constant before
    the regulariser adds its part.  The log-likelihood is the sum, over the
    examples, of what [logLikelihood] returns for the model into which the
    flat vector has been written. *)
Theorem objective_is_normalised (m : STM R) (inputCompl outputCompl : Matrix R)
    (x : list R) (g : list R) (params : Parameters R)
    (derivative : R -> R) :
  rows outputCompl = dimOut m ->
  nl_derivative (mNonlinearity m) = Some derivative ->
  (length g <= offsetEnd m params)%nat ->
  let c := INR (cols inputCompl) * ln 2 * INR (dimOut m) in
  let logLik := totalLogLik m params (nl_apply (mNonlinearity m)) inputCompl
                            outputCompl x in
  let accumulated := totalGradient m params (nl_apply (mNonlinearity m))
                                   derivative inputCompl outputCompl x g in
  accumulate m params (nl_apply (mNonlinearity m)) derivative inputCompl
             outputCompl x (Some g)
             (batchStarts (cols inputCompl)
                          (effectiveBatchSize params (cols inputCompl)))
  = (logLik, Some accumulated)
  /\ parameterGradient m inputCompl outputCompl x (Some g)
                       (unregularized params)
     = Ok (- logLik / c, Some (map (fun v => v / c) accumulated))
  /\ parameterGradient m inputCompl outputCompl x (Some g) params
     = Ok (regularizeValue m params x (- logLik / c),
           Some (regularizeGradient m params x
                   (map (fun v => v / c) accumulated)))
  /\ ((1 <= cols inputCompl)%nat -> c <> 0)
  /\ (wf_STM m ->
      (offsetEnd m params <= length x)%nat ->
      rows inputCompl = dimIn m ->
      cols inputCompl = cols outputCompl ->
      length (data outputCompl) = cols outputCompl ->
      exists perExample : list R,
        logLikelihood (setParameters m x params) inputCompl outputCompl
        = Ok perExample
        /\ length perExample = cols inputCompl
        /\ logLik = sum_list perExample).
Proof.
  intros HY HD Hg c logLik accumulated.
  assert (Hnorm : normalizeGradient (offsetEnd m params) c accumulated
                  = map (fun v => v / c) accumulated).
  { unfold normalizeGradient.
    rewrite (imap_ext _ (fun _ v => v / c)).
    - unfold imap. rewrite <- (imap_id_from accumulated 0) at 3.
      rewrite map_map. reflexivity.
    - intros k v Hk. unfold accumulated, totalGradient in Hk.
      rewrite length_imap in Hk.
      assert (length (initGradient m params g) = length g) as E.
      { unfold initGradient, view_setZero.
        repeat match goal with
               | |- context [if ?b then _ else _] => destruct b
               end; rewrite ?length_imap; reflexivity. }
      rewrite E in Hk.
      destruct (k <? offsetEnd m params)%nat eqn:Ek; [reflexivity|].
      apply Nat.ltb_ge in Ek. lia. }
  split; [|split; [|split; [|split]]].
  - apply (accumulate_total m params (nl_apply (mNonlinearity m)) derivative
             inputCompl outputCompl x HY (Some g) _ (Permutation_refl _)).
  - rewrite (parameterGradient_total m inputCompl outputCompl x (Some g)
               (unregularized params) derivative HY HD).
    rewrite regularizeValue_unregularized. cbn [option_map].
    rewrite regularizeGradient_unregularized.
    change (offsetEnd m (unregularized params)) with (offsetEnd m params).
    change (totalGradient m (unregularized params)) with (totalGradient m params).
    change (totalLogLik m (unregularized params)) with (totalLogLik m params).
    fold c. fold accumulated. fold logLik. rewrite Hnorm. reflexivity.
  - rewrite (parameterGradient_total m inputCompl outputCompl x (Some g)
               params derivative HY HD).
    cbn [option_map]. fold c. fold accumulated. fold logLik.
    rewrite Hnorm. reflexivity.
  - apply normConst_nonzero.
  - intros W Hx HX Hcols Hdata.
    exists (map (exLogLik m params (nl_apply (mNonlinearity m)) inputCompl
                          outputCompl x)
                (seq 0 (cols inputCompl))).
    split; [|split].
    + apply logLikelihood_examples; assumption.
    + rewrite length_map, length_seq. reflexivity.
    + reflexivity.
Qed.

Lemma objective_is_normalised_witness :
  parameterGradient exampleSTM exampleInput exampleOutput
    (parameters exampleSTM defaultParameters) (Some (repeat 0 8))
    (unregularized defaultParameters)
  = Ok (- totalLogLik exampleSTM defaultParameters
            (nl_apply (mNonlinearity exampleSTM)) exampleInput exampleOutput
            (parameters exampleSTM defaultParameters)
        / (INR 2 * ln 2 * INR 1),
        Some (map (fun v => v / (INR 2 * ln 2 * INR 1))
                  (totalGradient exampleSTM defaultParameters
                     (nl_apply (mNonlinearity exampleSTM))
                     (fun x => Rmax (exp x) (/ 2))
                     exampleInput exampleOutput
                     (parameters exampleSTM defaultParameters)
                     (repeat 0 8))))
  /\ exists perExample : list R,
       logLikelihood
         (setParameters exampleSTM (parameters exampleSTM defaultParameters)
                        defaultParameters)
         exampleInput exampleOutput
       = Ok perExample
       /\ length perExample = 2%nat
       /\ totalLogLik exampleSTM defaultParameters
            (nl_apply (mNonlinearity exampleSTM)) exampleInput exampleOutput
            (parameters exampleSTM defaultParameters)
          = sum_list perExample.
Proof.
  pose proof (objective_is_normalised exampleSTM exampleInput exampleOutput
                (parameters exampleSTM defaultParameters) (repeat 0 8)
                defaultParameters (fun x => Rmax (exp x) (/ 2))
                eq_refl eq_refl (Nat.le_refl 8)) as H.
  split.
  - exact (proj1 (proj2 H)).
  - exact (proj2 (proj2 (proj2 (proj2 H))) exampleSTM_wf (Nat.le_refl 8)
             eq_refl eq_refl eq_refl).
Defined.

(* ===================================================================== *)
(** * The response, column by column *)
(* ===================================================================== *)

Section ColumnFacts.

Context {T : Type} {ST : Scalar T}.
Local Open Scope nat_scope.

(** The overloads of [response], one level of calls unfolded. *)
Lemma response_unfold (m : STM T) (input : Matrix T) :
  response m input =
    if negb (rows input =? dimIn m)
    then Throw "Input has wrong dimensionality."
    else if negb (dimInLinear m =? 0)
    then response2 m (topRows input (dimInNonlinear m))
                     (bottomRows input (dimInLinear m))
    else if dimIn m =? 0
    then Ok (repeat (pooledBias m) (cols input))
    else Ok (logSumExp
               (jointEnergyOf (mWeights m) (mFeatures m) (mPredictors m)
                              (mBiases m) input)).
Proof.
  unfold response, response2, response_fuel. cbn [response_rec].
  destruct (negb (rows input =? dimIn m)); [reflexivity|].
  destruct (dimInLinear m =? 0) eqn:El; cbn [negb].
  - destruct (dimIn m =? 0); reflexivity.
  - destruct (negb (rows (topRows input (dimInNonlinear m))
                    =? dimInNonlinear m)
              || negb (rows (bottomRows input (dimInLinear m))
                       =? dimInLinear m)); [reflexivity|].
    destruct (dimInNonlinear m =? 0); reflexivity.
Qed.

Lemma response2_unfold (m : STM T) (inputNonlinear inputLinear : Matrix T) :
  response2 m inputNonlinear inputLinear =
    if dimInLinear m =? 0
    then response m inputNonlinear
    else if negb (rows inputNonlinear =? dimInNonlinear m)
            || negb (rows inputLinear =? dimInLinear m)
    then Throw "Input has wrong dimensionality."
    else if dimInNonlinear m =? 0
    then Ok (map (fun v => sc_add v (pooledBias m))
                 (vecmat (mLinearPredictor m) inputLinear))
    else Ok (zipWith sc_add
               (logSumExp
                  (jointEnergyOf (mWeights m) (mFeatures m) (mPredictors m)
                                 (mBiases m) inputNonlinear))
               (vecmat (mLinearPredictor m) inputLinear)).
Proof.
  unfold response, response2, response_fuel. cbn [response_rec].
  destruct (dimInLinear m =? 0) eqn:El.
  - cbn [negb].
    destruct (negb (rows inputNonlinear =? dimIn m)); [reflexivity|].
    destruct (dimIn m =? 0); reflexivity.
  - destruct (negb (rows inputNonlinear =? dimInNonlinear m)
              || negb (rows inputLinear =? dimInLinear m)); [reflexivity|].
    destruct (dimInNonlinear m =? 0); reflexivity.
Qed.

Lemma logLikelihood_unfold (m : STM T) (input output : Matrix T) :
  logLikelihood m input output =
    if negb (rows input =? dimIn m)
    then Throw "Input has wrong dimensionality."
    else if negb (dimInLinear m =? 0)
    then logLikelihood2 m (topRows input (dimInNonlinear m))
                          (bottomRows input (dimInLinear m)) output
    else if negb (rows output =? dimOut m)
    then Throw "Output has wrong dimensionality."
    else if negb (cols input =? cols output)
    then Throw "The number of inputs and outputs must be the same."
    else do r <- response m input; Ok (distLogLikelihood m output r).
Proof.
  unfold logLikelihood, logLikelihood2, response_fuel.
  cbn [logLikelihood_rec].
  destruct (negb (rows input =? dimIn m)); [reflexivity|].
  destruct (dimInLinear m =? 0) eqn:El; cbn [negb].
  - destruct (negb (rows output =? dimOut m)); [reflexivity|].
    destruct (negb (cols input =? cols output)); reflexivity.
  - destruct (negb (rows output =? dimOut m)); [reflexivity|].
    destruct (negb (rows (topRows input (dimInNonlinear m))
                    =? dimInNonlinear m)
              || negb (rows (bottomRows input (dimInLinear m))
                       =? dimInLinear m)); reflexivity.
Qed.

Lemma logLikelihood2_unfold (m : STM T)
    (inputNonlinear inputLinear output : Matrix T) :
  logLikelihood2 m inputNonlinear inputLinear output =
    if dimInLinear m =? 0
    then logLikelihood m inputNonlinear output
    else if negb (rows output =? dimOut m)
    then Throw "Output has wrong dimensionality."
    else if negb (rows inputNonlinear =? dimInNonlinear m)
            || negb (rows inputLinear =? dimInLinear m)
    then Throw "Input has wrong dimensionality."
    else do r <- response2 m inputNonlinear inputLinear;
         Ok (distLogLikelihood m output r).
Proof.
  unfold logLikelihood, logLikelihood2, response_fuel.
  cbn [logLikelihood_rec].
  destruct (dimInLinear m =? 0) eqn:El.
  - cbn [negb].
    destruct (negb (rows inputNonlinear =? dimIn m)); [reflexivity|].
    destruct (negb (rows output =? dimOut m)); [reflexivity|].
    destruct (negb (cols inputNonlinear =? cols output)); reflexivity.
  - destruct (negb (rows output =? dimOut m)); [reflexivity|].
    destruct (negb (rows inputNonlinear =? dimInNonlinear m)
              || negb (rows inputLinear =? dimInLinear m)); reflexivity.
Qed.

(** The energy on a column depends on the entries of that column only. *)
Lemma energyAt_ext (W F P : Matrix T) b (X X' : Matrix T) c n n' :
  (forall d, d < rows F -> coeff X d n = coeff X' d n') ->
  (forall d, d < cols P -> coeff X d n = coeff X' d n') ->
  energyAt W F P b X c n = energyAt W F P b X' c n'.
Proof.
  intros HF HP. unfold energyAt. f_equal. f_equal.
  - apply sum_n_ext. intros f _. f_equal. f_equal.
    apply sum_n_ext. intros d Hd. f_equal. apply HF. exact Hd.
  - apply sum_n_ext. intros d Hd. f_equal. apply HP. exact Hd.
Qed.

Lemma responseAt_ext (m : STM T) (A B A' B' : Matrix T) n n' :
  wf_STM m ->
  (forall d, d < dimInNonlinear m -> coeff A d n = coeff A' d n') ->
  (forall k, k < dimInLinear m -> coeff B k n = coeff B' k n') ->
  responseAt m A B n = responseAt m A' B' n'.
Proof.
  intros W HA HB. unfold responseAt.
  assert (E1 : map (fun c => energyAt (mWeights m) (mFeatures m)
                                (mPredictors m) (mBiases m) A c n)
                   (seq 0 (rows (mWeights m)))
               = map (fun c => energyAt (mWeights m) (mFeatures m)
                                  (mPredictors m) (mBiases m) A' c n')
                     (seq 0 (rows (mWeights m)))).
  { apply map_ext. intros c. apply energyAt_ext; intros d Hd; apply HA.
    - rewrite (wf_features_rows W) in Hd. exact Hd.
    - rewrite (wf_predictors_cols W) in Hd. exact Hd. }
  assert (E2 : sum_n (fun k => sc_mul (nth k (mLinearPredictor m) sc_zero)
                                      (coeff B k n))
                     (length (mLinearPredictor m))
               = sum_n (fun k => sc_mul (nth k (mLinearPredictor m) sc_zero)
                                        (coeff B' k n'))
                       (length (mLinearPredictor m))).
  { apply sum_n_ext. intros k Hk. f_equal. apply HB.
    rewrite (wf_linearPredictor W) in Hk. exact Hk. }
  cbv zeta. rewrite E1, E2. reflexivity.
Qed.

(** The two-matrix overload, column by column. *)
Lemma response2_columns (m : STM T) (A B : Matrix T) :
  wf_STM m ->
  rows A = dimInNonlinear m -> rows B = dimInLinear m -> cols A = cols B ->
  response2 m A B = Ok (map (responseAt m A B) (seq 0 (cols A))).
Proof.
  intros W HA HB HC.
  assert (HJ : logSumExp (jointEnergyOf (mWeights m) (mFeatures m)
                            (mPredictors m) (mBiases m) A)
               = map (fun n =>
                        logSumExp_col
                          (map (fun c => energyAt (mWeights m) (mFeatures m)
                                  (mPredictors m) (mBiases m) A c n)
                               (seq 0 (rows (mWeights m)))))
                     (seq 0 (cols A))).
  { apply logSumExp_jointEnergyOf.
    - rewrite (wf_predictors_rows W), (wf_weights_rows W). reflexivity.
    - rewrite (wf_features_cols W), (wf_weights_cols W). reflexivity. }
  rewrite response2_unfold, response_unfold. unfold responseAt, dimIn.
  destruct (dimInLinear m =? 0) eqn:El.
  - apply Nat.eqb_eq in El. rewrite El, Nat.add_0_r, HA, Nat.eqb_refl.
    cbn [negb Nat.eqb].
    destruct (dimInNonlinear m =? 0) eqn:En.
    + f_equal. apply repeat_map_seq.
    + f_equal. exact HJ.
  - rewrite HA, HB, !Nat.eqb_refl. cbn [negb orb].
    destruct (dimInNonlinear m =? 0) eqn:En.
    + f_equal. unfold vecmat. rewrite map_map, HC. reflexivity.
    + f_equal. rewrite HJ. unfold vecmat. rewrite <- HC.
      apply zipWith_map.
Qed.

Lemma rows_topRows (X : Matrix T) k : rows (topRows X k) = k.
Proof. reflexivity. Qed.

Lemma rows_bottomRows (X : Matrix T) k : rows (bottomRows X k) = k.
Proof. reflexivity. Qed.

Lemma coeff_topRows (X : Matrix T) k i j :
  i < k -> j < cols X -> coeff (topRows X k) i j = coeff X i j.
Proof.
  intros Hi Hj. unfold topRows. rewrite coeff_block by assumption.
  reflexivity.
Qed.

Lemma coeff_bottomRows (X : Matrix T) k i j :
  i < k -> j < cols X ->
  coeff (bottomRows X k) i j = coeff X (rows X - k + i) j.
Proof.
  intros Hi Hj. unfold bottomRows. rewrite coeff_block by assumption.
  reflexivity.
Qed.

(** The single-matrix overload, column by column. *)
Lemma response_columns (m : STM T) (X : Matrix T) :
  wf_STM m -> rows X = dimIn m ->
  response m X
  = Ok (map (responseAt m (topRows X (dimInNonlinear m))
                          (bottomRows X (dimInLinear m)))
            (seq 0 (cols X))).
Proof.
  intros W HX.
  destruct (dimInLinear m =? 0) eqn:El.
  - apply Nat.eqb_eq in El.
    rewrite (response_no_linear m X (bottomRows X (dimInLinear m)) El).
    rewrite response2_columns; try assumption; try reflexivity.
    + f_equal. apply map_ext_in. intros n Hn. apply in_seq in Hn.
      apply responseAt_ext; [exact W | | reflexivity].
      intros d Hd. symmetry. apply coeff_topRows; [exact Hd | lia].
    + rewrite HX. unfold dimIn. lia.
  - rewrite response_unfold, HX, Nat.eqb_refl, El. cbn [negb].
    exact (response2_columns m (topRows X (dimInNonlinear m))
             (bottomRows X (dimInLinear m)) W eq_refl eq_refl eq_refl).
Qed.

Lemma firstn_seq_le s w n : w <= n -> firstn w (seq s n) = seq s w.
Proof.
  revert s n. induction w as [|w IH]; intros s n H; [reflexivity|].
  destruct n as [|n]; [lia|]. cbn [seq firstn]. f_equal. apply IH. lia.
Qed.

Lemma seq_from b w : seq b w = map (fun k => b + k) (seq 0 w).
Proof.
  revert b. induction w as [|w IH]; intros b; [reflexivity|].
  cbn [seq map]. rewrite Nat.add_0_r. f_equal.
  rewrite (IH (S b)), <- (seq_shift w 0), map_map.
  apply map_ext. intros k. lia.
Qed.

(** The columns [b .. b + w) of a list given entry by entry. *)
Lemma firstn_skipn_map_seq {A : Type} (phi : nat -> A) b w n :
  b + w <= n ->
  firstn w (skipn b (map phi (seq 0 n)))
  = map (fun k => phi (b + k)) (seq 0 w).
Proof.
  intros H. rewrite skipn_map, firstn_map, skipn_seq.
  rewrite firstn_seq_le by lia. cbn [Nat.add].
  rewrite seq_from, map_map. reflexivity.
Qed.

(** X1.  [response] rejects an input exactly when its row count is not the
    total input dimensionality, and otherwise returns one value per column of
    the input; a model without linear inputs ignores the second argument of
    the two-matrix overload, whatever its shape. *)
Theorem response_one_value_per_column (m : STM T) (input : Matrix T) :
  (rows input <> dimIn m ->
   response m input = Throw "Input has wrong dimensionality.")
  /\ (rows input = dimIn m ->
      exists r, response m input = Ok r /\ length r = cols input)
  /\ (dimInLinear m = 0 ->
      forall inputLinear : Matrix T,
        response2 m input inputLinear = response m input).
Proof.
  split; [|split].
  - intros H. rewrite response_unfold.
    apply Nat.eqb_neq in H. rewrite H. reflexivity.
  - intros H. rewrite response_unfold, H, Nat.eqb_refl. cbn [negb].
    destruct (dimInLinear m =? 0) eqn:El; cbn [negb].
    + destruct (dimIn m =? 0); eexists; (split; [reflexivity|]).
      * apply repeat_length.
      * unfold logSumExp. rewrite length_map, length_seq. reflexivity.
    + rewrite response2_unfold, El.
      rewrite rows_topRows, rows_bottomRows, !Nat.eqb_refl. cbn [negb orb].
      destruct (dimInNonlinear m =? 0); eexists; (split; [reflexivity|]).
      * unfold vecmat. rewrite !length_map, length_seq. reflexivity.
      * rewrite length_zipWith. unfold logSumExp, vecmat.
        rewrite !length_map, !length_seq. cbn [cols jointEnergyOf colwise_add
          mk_matrix topRows bottomRows block]. apply Nat.min_id.
  - intros El inputLinear. symmetry. apply response_no_linear. exact El.
Qed.

Lemma coeff_middleCols (X : Matrix T) b w i j :
  i < rows X -> j < w -> coeff (middleCols X b w) i j = coeff X i (b + j).
Proof.
  intros Hi Hj. unfold middleCols. rewrite coeff_block by assumption.
  reflexivity.
Qed.

(** X2.  The examples are evaluated independently of each other: the
    response on the columns [b .. b + w) of an input is that part of the
    response on the whole input (and the same exception is thrown for a
    wrong row count). *)
Theorem response_is_columnwise (m : STM T) (input : Matrix T) (b w : nat) :
  wf_STM m -> b + w <= cols input ->
  response m (middleCols input b w)
  = do r <- response m input; Ok (firstn w (skipn b r)).
Proof.
  intros W Hbw.
  destruct (rows input =? dimIn m) eqn:HX.
  - apply Nat.eqb_eq in HX.
    rewrite (response_columns m input W HX).
    rewrite (response_columns m (middleCols input b w) W HX).
    cbn [bind]. f_equal.
    rewrite firstn_skipn_map_seq by exact Hbw.
    change (cols (middleCols input b w)) with w.
    apply map_ext_in. intros n Hn. apply in_seq in Hn.
    assert (Hnl : dimInNonlinear m <= rows input)
      by (rewrite HX; unfold dimIn; lia).
    assert (Hl : dimInLinear m <= rows input)
      by (rewrite HX; unfold dimIn; lia).
    apply responseAt_ext; [exact W | |].
    + intros d Hd.
      rewrite !coeff_topRows by (cbn [cols middleCols block mk_matrix]; lia).
      apply coeff_middleCols; lia.
    + intros k Hk.
      rewrite !coeff_bottomRows
        by (cbn [cols middleCols block mk_matrix]; lia).
      change (rows (middleCols input b w)) with (rows input).
      apply coeff_middleCols; lia.
  - rewrite (response_unfold m input), (response_unfold m (middleCols input b w)).
    change (rows (middleCols input b w)) with (rows input).
    rewrite HX. reflexivity.
Qed.

Lemma coeff_stackRows_top (A B : Matrix T) i j :
  i < rows A -> j < cols B -> coeff (stackRows A B) i j = coeff A i j.
Proof.
  intros Hi Hj. unfold stackRows. rewrite coeff_mk_matrix by lia.
  apply Nat.ltb_lt in Hi. rewrite Hi. reflexivity.
Qed.

Lemma coeff_stackRows_bottom (A B : Matrix T) i j :
  i < rows B -> j < cols B ->
  coeff (stackRows A B) (rows A + i) j = coeff B i j.
Proof.
  intros Hi Hj. unfold stackRows. rewrite coeff_mk_matrix by lia.
  replace (rows A + i <? rows A) with false by (symmetry; apply Nat.ltb_ge; lia).
  f_equal. lia.
Qed.

Lemma response_stackRows (m : STM T) (A B : Matrix T) :
  wf_STM m ->
  rows A = dimInNonlinear m -> rows B = dimInLinear m -> cols A = cols B ->
  response m (stackRows A B) = response2 m A B.
Proof.
  intros W HA HB HC.
  rewrite (response2_columns m A B W HA HB HC).
  rewrite response_columns
    by (try exact W; cbn [rows stackRows mk_matrix]; rewrite HA, HB;
        reflexivity).
  change (cols (stackRows A B)) with (cols B). rewrite <- HC.
  f_equal. apply map_ext_in. intros n Hn. apply in_seq in Hn.
  apply responseAt_ext; [exact W | |].
  - intros d Hd.
    rewrite coeff_topRows by (cbn [cols stackRows mk_matrix]; lia).
    apply coeff_stackRows_top; lia.
  - intros k Hk.
    rewrite coeff_bottomRows by (cbn [cols stackRows mk_matrix]; lia).
    cbn [rows stackRows mk_matrix].
    replace (rows A + rows B - dimInLinear m + k) with (rows A + k) by lia.
    apply coeff_stackRows_bottom; lia.
Qed.

(** X3.  Stacking the two input blocks as [train] does gives the input the
    single-matrix overloads expect: they return on it what the two-matrix
    overloads return on the blocks.  [train] on the two blocks is the base
    class's [train] on the stacked input. *)
Theorem stacked_input_is_split_input (m : STM T) (A B : Matrix T) :
  wf_STM m ->
  rows A = dimInNonlinear m -> rows B = dimInLinear m -> cols A = cols B ->
  response m (stackRows A B) = response2 m A B
  /\ (forall output : Matrix T,
        logLikelihood m (stackRows A B) output = logLikelihood2 m A B output)
  /\ (forall trainData (output : Matrix T) (params : Parameters T),
        train2 trainData m A B output params
        = trainData m (stackRows A B) output params).
Proof.
  intros W HA HB HC.
  pose proof (response_stackRows m A B W HA HB HC) as HR.
  split; [exact HR|split].
  - intros output.
    rewrite (logLikelihood2_unfold m A B output).
    rewrite (logLikelihood_unfold m (stackRows A B) output).
    change (rows (stackRows A B)) with (rows A + rows B).
    change (cols (stackRows A B)) with (cols B).
    unfold dimIn. rewrite HA, HB, Nat.eqb_refl. cbn [negb].
    destruct (dimInLinear m =? 0) eqn:El; cbn [negb].
    + apply Nat.eqb_eq in El.
      rewrite (logLikelihood_unfold m A output), HA. unfold dimIn.
      rewrite El, Nat.add_0_r, !Nat.eqb_refl. cbn [negb].
      rewrite HC.
      destruct (negb (rows output =? dimOut m)); [reflexivity|].
      destruct (negb (cols B =? cols output)); [reflexivity|].
      rewrite HR. rewrite <- (response_no_linear m A B El). reflexivity.
    + rewrite (logLikelihood2_unfold m (topRows _ _) (bottomRows _ _) output).
      rewrite El, rows_topRows, rows_bottomRows, !Nat.eqb_refl.
      cbn [negb orb].
      destruct (negb (rows output =? dimOut m)); [reflexivity|].
      rewrite <- HR. rewrite (response_unfold m (stackRows A B)).
      change (rows (stackRows A B)) with (rows A + rows B).
      unfold dimIn.
      rewrite HA, HB, Nat.eqb_refl, El. reflexivity.
  - intros trainData output params. unfold train2.
    rewrite HC, Nat.eqb_refl. reflexivity.
Qed.

(** X4.  [logLikelihood(input, output)] reports a wrong input dimension
    before a wrong output dimension, and checks that inputs and outputs have
    the same number of columns only for a model without linear inputs; the
    two-matrix overload checks the output first when the model has linear
    inputs. *)
Theorem logLikelihood_checks (m : STM T) (input output : Matrix T) :
  logLikelihood m input output =
    (if negb (rows input =? dimIn m)
     then Throw "Input has wrong dimensionality."
     else if negb (rows output =? dimOut m)
     then Throw "Output has wrong dimensionality."
     else if (dimInLinear m =? 0) && negb (cols input =? cols output)
     then Throw "The number of inputs and outputs must be the same."
     else do r <- response m input; Ok (distLogLikelihood m output r))
  /\ (forall inputLinear : Matrix T,
        0 < dimInLinear m ->
        logLikelihood2 m input inputLinear output =
          (if negb (rows output =? dimOut m)
           then Throw "Output has wrong dimensionality."
           else if negb (rows input =? dimInNonlinear m)
                   || negb (rows inputLinear =? dimInLinear m)
           then Throw "Input has wrong dimensionality."
           else do r <- response2 m input inputLinear;
                Ok (distLogLikelihood m output r))).
Proof.
  split.
  - rewrite logLikelihood_unfold.
    destruct (rows input =? dimIn m) eqn:HX; cbn [negb]; [|reflexivity].
    destruct (dimInLinear m =? 0) eqn:El; cbn [negb andb].
    + reflexivity.
    + rewrite logLikelihood2_unfold, El.
      destruct (negb (rows output =? dimOut m)); [reflexivity|].
      rewrite rows_topRows, rows_bottomRows, !Nat.eqb_refl. cbn [negb orb].
      rewrite (response_unfold m input), HX, El. reflexivity.
  - intros inputLinear Hl. rewrite logLikelihood2_unfold.
    replace (dimInLinear m =? 0) with false
      by (symmetry; apply Nat.eqb_neq; lia).
    reflexivity.
Qed.

End ColumnFacts.

(** The example model and its input: the second column alone. *)
Lemma response_is_columnwise_witness :
  response exampleSTM (middleCols exampleInput 1 1)
  = do r <- response exampleSTM exampleInput; Ok (firstn 1 (skipn 1 r)).
Proof.
  exact (response_is_columnwise exampleSTM exampleInput 1 1 exampleSTM_wf
           (Nat.le_refl 2)).
Defined.

(** The two blocks of the example input, stacked again. *)
Lemma stacked_input_is_split_input_witness :
  response exampleSTM (stackRows exampleInputNonlinear exampleInputLinear)
  = response2 exampleSTM exampleInputNonlinear exampleInputLinear.
Proof.
  exact (proj1 (stacked_input_is_split_input exampleSTM exampleInputNonlinear
                  exampleInputLinear exampleSTM_wf eq_refl eq_refl eq_refl)).
Defined.

(* ===================================================================== *)
(** * The two components of the response *)
(* ===================================================================== *)

Section ComponentFacts.

Context {T : Type} {ST : Scalar T}.
Local Open Scope nat_scope.

Lemma mk_matrix_ext r c (f h : nat -> nat -> T) :
  (forall i j, i < r -> j < c -> f i j = h i j) ->
  mk_matrix r c f = mk_matrix r c h.
Proof.
  intros E. unfold mk_matrix. f_equal. apply map_ext_in. intros q Hq.
  apply in_seq in Hq. apply E.
  - apply Nat.mod_upper_bound. nia.
  - apply Nat.Div0.div_lt_upper_bound. lia.
Qed.

Lemma topRows_topRows (X : Matrix T) k :
  topRows (topRows X k) k = topRows X k.
Proof.
  unfold topRows at 1 3, block. cbn [cols topRows block mk_matrix].
  apply mk_matrix_ext. intros i j Hi Hj.
  apply coeff_topRows; assumption.
Qed.

Lemma bottomRows_bottomRows (X : Matrix T) k :
  bottomRows (bottomRows X k) k = bottomRows X k.
Proof.
  unfold bottomRows at 1 3, block. cbn [rows cols bottomRows block mk_matrix].
  apply mk_matrix_ext. intros i j Hi Hj.
  rewrite coeff_bottomRows by lia. f_equal. lia.
Qed.

(** X5.  [nonlinearResponses] and [linearResponse] accept the stacked input
    as well as their own block of it, and return the same matrix on both: one
    row per component and one column per example for the joint energies, a
    single row for the linear part. *)
Theorem component_responses_take_their_block (m : STM T) (input : Matrix T) :
  wf_STM m -> rows input = dimIn m ->
  nonlinearResponses m (topRows input (dimInNonlinear m))
  = nonlinearResponses m input
  /\ linearResponse m (bottomRows input (dimInLinear m))
     = linearResponse m input
  /\ exists E L : Matrix T,
       nonlinearResponses m input = Ok E
       /\ linearResponse m input = Ok L
       /\ rows E = numComponents m
       /\ cols E = cols input
       /\ rows L = 1 /\ cols L = cols input.
Proof.
  intros W HX. unfold nonlinearResponses, linearResponse.
  rewrite rows_topRows, rows_bottomRows, HX, !Nat.eqb_refl.
  cbn [negb andb]. rewrite !andb_false_r.
  rewrite topRows_topRows, bottomRows_bottomRows.
  split; [|split].
  - destruct (dimInNonlinear m =? 0); reflexivity.
  - destruct (dimInLinear m =? 0); reflexivity.
  - destruct (dimInNonlinear m =? 0), (dimInLinear m =? 0);
      eexists; eexists; repeat split; exact (wf_weights_rows W).
Qed.

End ComponentFacts.

Lemma component_responses_take_their_block_witness :
  nonlinearResponses exampleSTM (topRows exampleInput 1)
  = nonlinearResponses exampleSTM exampleInput
  /\ linearResponse exampleSTM (bottomRows exampleInput 1)
     = linearResponse exampleSTM exampleInput.
Proof.
  pose proof (component_responses_take_their_block exampleSTM exampleInput
                exampleSTM_wf eq_refl) as H.
  split; [exact (proj1 H) | exact (proj1 (proj2 H))].
Defined.

Lemma logSumExp_columns (E : Matrix R) (phi : nat -> list R) :
  (forall n, (n < cols E)%nat -> column E n = phi n) ->
  logSumExp E = map (fun n => logSumExp_col (phi n)) (seq 0 (cols E)).
Proof.
  intros H. unfold logSumExp. apply map_ext_in. intros n Hn.
  apply in_seq in Hn. rewrite H by lia. reflexivity.
Qed.

(** X6.  The response is the log-sum-exp over the components of what
    [nonlinearResponses] returns, plus what [linearResponse] returns. *)
Theorem response_is_pooled_components (m : STM R) (input : Matrix R) :
  wf_STM m -> rows input = dimIn m ->
  exists E L : Matrix R,
    nonlinearResponses m input = Ok E
    /\ linearResponse m input = Ok L
    /\ response m input = Ok (zipWith Rplus (logSumExp E) (data L)).
Proof.
  intros W HX.
  rewrite (response_columns m input W HX).
  unfold nonlinearResponses, linearResponse.
  rewrite HX, !Nat.eqb_refl. cbn [negb andb]. rewrite !andb_false_r.
  assert (Hpool :
            logSumExp_col
              (map (fun c => 0 + nth c (mBiases m) 0)
                   (seq 0 (numComponents m)))
            = pooledBias m).
  { rewrite (map_ext _ (fun c => nth c (mBiases m) 0)) by (intros; lra).
    unfold numComponents. rewrite <- (wf_biases W), map_nth_seq.
    rewrite logSumExp_col_logsumexp.
    - symmetry. apply pooledBias_logsumexp. exact W.
    - pose proof (wf_components W). pose proof (wf_biases W).
      destruct (mBiases m); [cbn in *; lia | discriminate]. }
  assert (Hzero : data (mzero 1 (cols input))
                  = map (fun _ => 0) (seq 0 (cols input))).
  { unfold mzero. cbn [data mk_matrix]. rewrite Nat.mul_1_l. reflexivity. }
  destruct (dimInNonlinear m =? 0)%nat eqn:En;
    destruct (dimInLinear m =? 0)%nat eqn:El;
    eexists; eexists; (split; [reflexivity|]); (split; [reflexivity|]);
    f_equal; unfold responseAt; rewrite En, El.
  - rewrite Hzero.
    rewrite (logSumExp_columns _
               (fun _ => map (fun c => 0 + nth c (mBiases m) 0)
                             (seq 0 (numComponents m)))).
    + cbn [cols colwise_add mzero mk_matrix]. rewrite zipWith_map.
      apply map_ext_in. intros n Hn. apply in_seq in Hn.
      rewrite Hpool. lra.
    + intros n Hn. change (n < cols input)%nat in Hn.
      unfold column. apply map_ext_in. intros c Hc.
      apply in_seq in Hc. cbn [rows colwise_add mzero mk_matrix] in Hc.
      unfold colwise_add. cbn [rows cols mzero mk_matrix].
      rewrite coeff_mk_matrix by lia. unfold mzero.
      rewrite coeff_mk_matrix by lia. reflexivity.
  - cbn [data].
    rewrite (logSumExp_columns _
               (fun _ => map (fun c => 0 + nth c (mBiases m) 0)
                             (seq 0 (numComponents m)))).
    + cbn [cols colwise_add mzero mk_matrix]. unfold vecmat.
      cbn [cols bottomRows block mk_matrix]. rewrite zipWith_map.
      apply map_ext_in. intros n Hn. apply in_seq in Hn.
      rewrite Hpool. rsimp. lra.
    + intros n Hn. change (n < cols input)%nat in Hn.
      unfold column. apply map_ext_in. intros c Hc.
      apply in_seq in Hc. cbn [rows colwise_add mzero mk_matrix] in Hc.
      unfold colwise_add. cbn [rows cols mzero mk_matrix].
      rewrite coeff_mk_matrix by lia. unfold mzero.
      rewrite coeff_mk_matrix by lia. reflexivity.
  - rewrite Hzero.
    change (colwise_add
              (madd (mmul (mWeights m)
                       (cwise sc_square
                          (mmul (transpose (mFeatures m))
                                (topRows input (dimInNonlinear m)))))
                    (mmul (mPredictors m) (topRows input (dimInNonlinear m))))
              (mBiases m))
      with (jointEnergyOf (mWeights m) (mFeatures m) (mPredictors m)
                          (mBiases m) (topRows input (dimInNonlinear m))).
    rewrite logSumExp_jointEnergyOf
      by (rewrite ?(wf_predictors_rows W), ?(wf_weights_rows W),
            ?(wf_features_cols W), ?(wf_weights_cols W); reflexivity).
    cbn [cols topRows block mk_matrix]. rewrite zipWith_map.
    apply map_ext. intros n. lra.
  - cbn [data].
    change (colwise_add
              (madd (mmul (mWeights m)
                       (cwise sc_square
                          (mmul (transpose (mFeatures m))
                                (topRows input (dimInNonlinear m)))))
                    (mmul (mPredictors m) (topRows input (dimInNonlinear m))))
              (mBiases m))
      with (jointEnergyOf (mWeights m) (mFeatures m) (mPredictors m)
                          (mBiases m) (topRows input (dimInNonlinear m))).
    rewrite logSumExp_jointEnergyOf
      by (rewrite ?(wf_predictors_rows W), ?(wf_weights_rows W),
            ?(wf_features_cols W), ?(wf_weights_cols W); reflexivity).
    cbn [cols topRows block mk_matrix]. unfold vecmat.
    cbn [cols bottomRows block mk_matrix]. rewrite zipWith_map.
    apply map_ext. intros n. rsimp. reflexivity.
Qed.

Lemma response_is_pooled_components_witness :
  exists E L : Matrix R,
    nonlinearResponses exampleSTM exampleInput = Ok E
    /\ linearResponse exampleSTM exampleInput = Ok L
    /\ response exampleSTM exampleInput
       = Ok (zipWith Rplus (logSumExp E) (data L)).
Proof.
  exact (response_is_pooled_components exampleSTM exampleInput exampleSTM_wf
           eq_refl).
Defined.

(* ===================================================================== *)
(** * Writing a flat vector and reading it back *)
(* ===================================================================== *)

Section WriteReadFacts.

Context {T : Type} {ST : Scalar T}.
Local Open Scope nat_scope.

Lemma firstn_firstn_skipn (l : list T) a b :
  firstn a l ++ firstn b (skipn a l) = firstn (a + b) l.
Proof.
  revert l. induction a as [|a IH]; intros l; [reflexivity|].
  destruct l as [|v l]; cbn [firstn skipn Nat.add app].
  - rewrite firstn_nil. reflexivity.
  - f_equal. apply IH.
Qed.

Lemma view_then_view (x : list T) o a b :
  firstn a (skipn o x) ++ firstn b (skipn (o + a) x)
  = firstn (a + b) (skipn o x).
Proof.
  rewrite (Nat.add_comm o a), <- skipn_skipn. apply firstn_firstn_skipn.
Qed.

Lemma numParameters_offsetEnd (m : STM T) params :
  wf_STM m -> numParameters m params = offsetEnd m params.
Proof.
  intros W. unfold numParameters, offsetEnd, offsetLinearPredictor,
    offsetPredictors, offsetFeatures, offsetWeights, size, dimInNonlinear,
    dimInLinear.
  rewrite (wf_biases W), (wf_weights_rows W), (wf_weights_cols W),
    (wf_features_rows W), (wf_features_cols W), (wf_predictors_rows W),
    (wf_predictors_cols W), (wf_linearPredictor W).
  destruct (trainBiases params), (trainWeights params),
    (trainFeatures params), (trainPredictors params),
    (trainLinearPredictor params); lia.
Qed.

Lemma packed_view (flag : bool) (x : list T) o len :
  packed flag (firstn len (skipn o x))
  = firstn (if flag then len else 0) (skipn o x).
Proof. destruct flag; reflexivity. Qed.

(** X7.  Reading the parameters back after [setParameters] returns the
    first [numParameters] entries of the vector that was written; the model
    keeps its class invariant and its number of parameters, which is the
    length of the vector [parameters] returns. *)
Theorem setParameters_then_parameters (m : STM T) (x : list T)
    (params : Parameters T) :
  wf_STM m -> numParameters m params <= length x ->
  parameters (setParameters m x params) params
  = firstn (numParameters m params) x
  /\ wf_STM (setParameters m x params)
  /\ numParameters (setParameters m x params) params = numParameters m params
  /\ length (parameters m params) = numParameters m params.
Proof.
  intros W Hx.
  rewrite (numParameters_offsetEnd m params W) in *.
  pose proof (setParameters_wf m params x W Hx) as W'.
  split; [|split; [exact W'|split]].
  - rewrite parameters_blocks, setParameters_blocks.
    cbn [mBiases mWeights mFeatures mPredictors mLinearPredictor].
    assert (E : forall (flag : bool) (v w : list T),
               packed flag (if flag then v else w) = packed flag v)
      by (intros [|]; reflexivity).
    assert (EM : forall (flag : bool) (V M : Matrix T),
               packed flag (data (if flag then V else M))
               = packed flag (data V))
      by (intros [|]; reflexivity).
    rewrite !E, !EM. unfold map_vector, map_view. cbn [data].
    rewrite !packed_view.
    unfold offsetEnd, offsetLinearPredictor, offsetPredictors,
      offsetFeatures, offsetWeights.
    set (a0 := if trainBiases params then mNumComponents m else 0).
    set (a1 := if trainWeights params
               then mNumComponents m * mNumFeatures m else 0).
    set (a2 := if trainFeatures params
               then dimInNonlinear m * mNumFeatures m else 0).
    set (a3 := if trainPredictors params
               then mNumComponents m * dimInNonlinear m else 0).
    set (a4 := if trainLinearPredictor params then dimInLinear m else 0).
    rewrite (view_then_view x (a0 + a1 + a2) a3 a4).
    rewrite (view_then_view x (a0 + a1) a2 (a3 + a4)).
    rewrite (view_then_view x a0 a1 (a2 + (a3 + a4))).
    cbn [skipn]. rewrite firstn_firstn_skipn. f_equal. lia.
  - rewrite (numParameters_offsetEnd _ params W').
    unfold offsetEnd, offsetLinearPredictor, offsetPredictors,
      offsetFeatures, offsetWeights, dimInNonlinear, dimInLinear.
    rewrite setParameters_blocks. reflexivity.
  - rewrite <- (numParameters_offsetEnd m params W).
    apply length_parameters. exact W.
Qed.

End WriteReadFacts.

Lemma setParameters_then_parameters_witness :
  parameters (setParameters exampleSTM [9; 8; 7; 6; 5; 4; 3; 2; 1]%R
                            defaultParameters)
             defaultParameters
  = firstn (numParameters exampleSTM defaultParameters)
           [9; 8; 7; 6; 5; 4; 3; 2; 1]%R.
Proof.
  exact (proj1 (setParameters_then_parameters exampleSTM
                  [9; 8; 7; 6; 5; 4; 3; 2; 1]%R defaultParameters
                  exampleSTM_wf ltac:(cbn; lia))).
Defined.

(* ===================================================================== *)
(** * Carrying parameters over to another model *)
(* ===================================================================== *)

Section CarryOverFacts.

Context {T : Type} {ST : Scalar T}.
Local Open Scope nat_scope.

Variables m m' : STM T.
Variable params : Parameters T.

Hypothesis m_wf : wf_STM m.
Hypothesis same_dimInNonlinear : mDimInNonlinear m' = mDimInNonlinear m.
Hypothesis same_dimInLinear : mDimInLinear m' = mDimInLinear m.
Hypothesis same_numComponents : mNumComponents m' = mNumComponents m.
Hypothesis same_numFeatures : mNumFeatures m' = mNumFeatures m.

Lemma offsets_same_dimensions :
  offsetWeights m' params = offsetWeights m params
  /\ offsetFeatures m' params = offsetFeatures m params
  /\ offsetPredictors m' params = offsetPredictors m params
  /\ offsetLinearPredictor m' params = offsetLinearPredictor m params.
Proof.
  unfold offsetLinearPredictor, offsetPredictors, offsetFeatures,
    offsetWeights, dimInNonlinear.
  rewrite same_dimInNonlinear, same_numComponents, same_numFeatures.
  repeat split; reflexivity.
Qed.

Lemma carried_blocks :
  setParameters m' (parameters m params) params
  = {| mDimInNonlinear := mDimInNonlinear m';
       mDimInLinear := mDimInLinear m';
       mNumComponents := mNumComponents m';
       mNumFeatures := mNumFeatures m';
       mBiases := if trainBiases params then mBiases m else mBiases m';
       mWeights := if trainWeights params then mWeights m else mWeights m';
       mFeatures := if trainFeatures params then mFeatures m else mFeatures m';
       mPredictors :=
         if trainPredictors params then mPredictors m else mPredictors m';
       mLinearPredictor :=
         if trainLinearPredictor params then mLinearPredictor m
         else mLinearPredictor m';
       mNonlinearity := mNonlinearity m';
       mDistribution := mDistribution m' |}.
Proof.
  rewrite setParameters_blocks, parameters_blocks.
  destruct offsets_same_dimensions as (OW & OF & OP & OL).
  rewrite OW, OF, OP, OL. unfold dimInNonlinear, dimInLinear.
  rewrite same_dimInNonlinear, same_dimInLinear, same_numComponents,
    same_numFeatures.
  set (B := packed (trainBiases params) (mBiases m)).
  set (Wt := packed (trainWeights params) (data (mWeights m))).
  set (Ft := packed (trainFeatures params) (data (mFeatures m))).
  set (Pt := packed (trainPredictors params) (data (mPredictors m))).
  set (Lt := packed (trainLinearPredictor params) (mLinearPredictor m)).
  assert (LB : length B = offsetWeights m params)
    by (apply length_packed, m_wf).
  assert (LW : length (B ++ Wt) = offsetFeatures m params)
    by (rewrite length_app, LB; unfold offsetFeatures; f_equal;
        apply length_packed, m_wf).
  assert (LF : length ((B ++ Wt) ++ Ft) = offsetPredictors m params)
    by (rewrite length_app, LW; unfold offsetPredictors; f_equal;
        apply length_packed, m_wf).
  assert (LP : length (((B ++ Wt) ++ Ft) ++ Pt)
               = offsetLinearPredictor m params)
    by (rewrite length_app, LF; unfold offsetLinearPredictor; f_equal;
        rewrite (Nat.mul_comm (mNumComponents m)), Nat.mul_comm;
        apply length_packed, m_wf).
  assert (EB : trainBiases params = true -> B = mBiases m)
    by (intros E; subst B; rewrite E; reflexivity).
  assert (EW : trainWeights params = true -> Wt = data (mWeights m))
    by (intros E; subst Wt; rewrite E; reflexivity).
  assert (EF : trainFeatures params = true -> Ft = data (mFeatures m))
    by (intros E; subst Ft; rewrite E; reflexivity).
  assert (EP : trainPredictors params = true -> Pt = data (mPredictors m))
    by (intros E; subst Pt; rewrite E; reflexivity).
  assert (EL : trainLinearPredictor params = true ->
               Lt = mLinearPredictor m)
    by (intros E; subst Lt; rewrite E; reflexivity).
  clearbody B Wt Ft Pt Lt.
  destruct m_wf.
  f_equal.
  - destruct (trainBiases params); [|reflexivity].
    rewrite EB in * by reflexivity.
    unfold map_vector.
    apply unpack_block with (pre := []) (post := Wt ++ Ft ++ Pt ++ Lt);
      [reflexivity | reflexivity | assumption].
  - destruct (trainWeights params); [|reflexivity].
    rewrite EW in * by reflexivity.
    unfold map_view. apply matrix_eq; auto.
    symmetry.
    apply unpack_block with (pre := B) (post := Ft ++ Pt ++ Lt);
      [reflexivity | assumption | assumption].
  - destruct (trainFeatures params); [|reflexivity].
    rewrite EF in * by reflexivity.
    unfold map_view. apply matrix_eq; auto. symmetry.
    apply unpack_block with (pre := B ++ Wt) (post := Pt ++ Lt);
      [rewrite <- !app_assoc; reflexivity | assumption | assumption].
  - destruct (trainPredictors params); [|reflexivity].
    rewrite EP in * by reflexivity.
    unfold map_view. apply matrix_eq; auto. symmetry.
    apply unpack_block with (pre := (B ++ Wt) ++ Ft) (post := Lt);
      [rewrite <- !app_assoc; reflexivity | assumption | assumption].
  - destruct (trainLinearPredictor params); [|reflexivity].
    rewrite EL in * by reflexivity.
    unfold map_vector.
    apply unpack_block with (pre := ((B ++ Wt) ++ Ft) ++ Pt) (post := []);
      [rewrite <- !app_assoc, app_nil_r; reflexivity
      | assumption | assumption].
Qed.

End CarryOverFacts.

(** X8.  Writing the parameter vector of one model into another model of
    the same dimensions copies exactly the flagged blocks and leaves the
    other blocks of the target as they were, so that the target then yields
    the same parameter vector.  With the default parameters, and the same
    nonlinearity and distribution, the target becomes equal to the source. *)
Theorem parameters_carry_over {T : Type} {ST : Scalar T} (m m' : STM T)
    (params : Parameters T) :
  wf_STM m ->
  mDimInNonlinear m' = mDimInNonlinear m ->
  mDimInLinear m' = mDimInLinear m ->
  mNumComponents m' = mNumComponents m ->
  mNumFeatures m' = mNumFeatures m ->
  let copy := setParameters m' (parameters m params) params in
  mBiases copy = (if trainBiases params then mBiases m else mBiases m')
  /\ mWeights copy = (if trainWeights params then mWeights m else mWeights m')
  /\ mFeatures copy
     = (if trainFeatures params then mFeatures m else mFeatures m')
  /\ mPredictors copy
     = (if trainPredictors params then mPredictors m else mPredictors m')
  /\ mLinearPredictor copy
     = (if trainLinearPredictor params then mLinearPredictor m
        else mLinearPredictor m')
  /\ parameters copy params = parameters m params
  /\ forall base : TrainableParameters,
       mNonlinearity m' = mNonlinearity m ->
       mDistribution m' = mDistribution m ->
       setParameters m' (parameters m (Parameters_new base))
                     (Parameters_new base) = m.
Proof.
  intros W Hd Hl Hk Hf copy. subst copy.
  rewrite (carried_blocks m m' params W Hd Hl Hk Hf).
  cbn [mBiases mWeights mFeatures mPredictors mLinearPredictor].
  repeat (split; [reflexivity|]).
  split.
  - rewrite !parameters_blocks.
    cbn [mBiases mWeights mFeatures mPredictors mLinearPredictor].
    destruct (trainBiases params), (trainWeights params),
      (trainFeatures params), (trainPredictors params),
      (trainLinearPredictor params); reflexivity.
  - intros base Hn Hdist.
    rewrite (carried_blocks m m' (Parameters_new base) W Hd Hl Hk Hf).
    cbn [Parameters_new trainBiases trainWeights trainFeatures
         trainPredictors trainLinearPredictor].
    rewrite Hd, Hl, Hk, Hf, Hn, Hdist. destruct m. reflexivity.
Qed.

Lemma parameters_carry_over_witness :
  setParameters (assignBiases exampleSTM [5; 5]%R)
    (parameters exampleSTM (Parameters_new {| batchSize := 2000 |}))
    (Parameters_new {| batchSize := 2000 |})
  = exampleSTM.
Proof.
  exact (proj2 (proj2 (proj2 (proj2 (proj2 (proj2
           (parameters_carry_over exampleSTM
              (assignBiases exampleSTM [5; 5]%R)
              (Parameters_new {| batchSize := 2000 |})
              exampleSTM_wf eq_refl eq_refl eq_refl eq_refl))))))
           {| batchSize := 2000 |} eq_refl eq_refl).
Defined.

(* ===================================================================== *)
(** * The gradient buffer *)
(* ===================================================================== *)

Section BufferFacts.

Context {T : Type} {ST : Scalar T}.
Local Open Scope nat_scope.

Lemma cond_view_sub_imap (flag : bool) (g : list T) offset (d : list T) :
  (if flag then view_sub g offset d else g)
  = imap (fun k v => if flag && inView offset (length d) k
                     then sc_sub v (nth (k - offset) d sc_zero) else v) g.
Proof.
  destruct flag; cbn [andb]; [reflexivity|].
  symmetry. apply imap_id. reflexivity.
Qed.

Lemma cond_view_add_imap (flag : bool) (g : list T) offset (d : list T) :
  (if flag then view_add g offset d else g)
  = imap (fun k v => if flag && inView offset (length d) k
                     then sc_add v (nth (k - offset) d sc_zero) else v) g.
Proof.
  destruct flag; cbn [andb]; [reflexivity|].
  symmetry. apply imap_id. reflexivity.
Qed.

Lemma cond_view_setZero_imap (flag : bool) (g : list T) offset len :
  (if flag then view_setZero g offset len else g)
  = imap (fun k v => if flag && inView offset len k then sc_zero else v) g.
Proof.
  destruct flag; cbn [andb]; [reflexivity|].
  symmetry. apply imap_id. reflexivity.
Qed.

(** Outside the view of a flagged block nothing is written. *)
Lemma outside_view (flag : bool) offset len bound k :
  offset + (if flag then len else 0) <= bound -> bound <= k ->
  flag && inView offset len k = false.
Proof.
  intros Hb Hk. destruct flag; [|reflexivity]. cbn [andb].
  unfold inView. apply andb_false_iff. right. apply Nat.ltb_ge. lia.
Qed.

Variable m : STM T.
Variable params : Parameters T.
Variables nonlinearity derivative : T -> T.
Variables inputCompl outputCompl : Matrix T.
Variable x : list T.

(** [initGradient] clears the entries below [offsetEnd] and no other. *)
Lemma initGradient_imap (g : list T) :
  initGradient m params g
  = imap (fun k v => if k <? offsetEnd m params then sc_zero else v) g.
Proof.
  unfold initGradient.
  rewrite !cond_view_setZero_imap, !imap_imap.
  apply imap_ext. intros k v _.
  unfold offsetEnd, offsetLinearPredictor, offsetPredictors, offsetFeatures,
    offsetWeights, inView.
  destruct (trainBiases params), (trainWeights params),
    (trainFeatures params), (trainPredictors params),
    (trainLinearPredictor params); cbn [andb];
    repeat match goal with
           | |- context [?a <=? ?b] => destruct (Nat.leb_spec a b)
           | |- context [?a <? ?b] => destruct (Nat.ltb_spec a b)
           end; cbn [andb]; try reflexivity; lia.
Qed.

(** One batch adds its log-likelihood to the accumulator and rewrites the
    buffer entry by entry, below [offsetEnd] only. *)
Lemma batchStep_shape (batchSize b : nat) :
  exists (logLikBatch : T) (phi : nat -> T -> T),
    (forall k v, offsetEnd m params <= k -> phi k v = v)
    /\ forall (logLik : T) (g : option (list T)),
         batchStep m params nonlinearity derivative inputCompl outputCompl x
                   batchSize b (logLik, g)
         = (sc_add logLik logLikBatch, option_map (imap phi) g).
Proof.
  unfold batchStep. cbv zeta. cbn [fst snd].
  set (w := Nat.min batchSize (cols inputCompl - b)).
  set (Wt := weightsView m params x).
  set (Ft := featuresView m params x).
  set (Pt := predictorsView m params x).
  set (Bt := biasesView m params x).
  set (Lt := linearPredictorView m params x).
  set (Xnl := block inputCompl 0 b (dimInNonlinear m) w).
  set (Xl := block inputCompl (dimInNonlinear m) b (dimInLinear m) w).
  set (FO := mmul (transpose Ft) Xnl).
  set (FOsq := cwise sc_square FO).
  set (JE := colwise_add (madd (mmul Wt FOsq) (mmul Pt Xnl)) Bt).
  set (r0 := logSumExp JE).
  set (post := cwise sc_exp (rowwise_sub JE r0)).
  set (resp := if negb (dimInLinear m =? 0)
               then zipWith sc_add r0 (vecmat Lt Xl) else r0).
  set (out := data (middleCols outputCompl b w)).
  set (tmp := zipWith sc_mul
                (map sc_neg (zipWith (ud_gradient (mDistribution m)) out
                                     (map nonlinearity resp)))
                (map derivative resp)).
  set (postTmp := rowwise_mul post tmp).
  set (d1 := rowwise_sum postTmp).
  set (d2 := data (mmul postTmp (transpose FOsq))).
  set (d3 := data (mmul Xnl (transpose
                 (cwise_mul FO (mmul (mscale (sc_of_Z 2) (transpose Wt))
                                     postTmp))))).
  set (d4 := data (mmul postTmp (transpose Xnl))).
  set (d5 := matvec Xl tmp).
  pose proof (rows_weightsView m params x) as RW.
  pose proof (cols_featuresView m params x) as CF.
  fold Wt in RW. fold Ft in CF.
  assert (L1 : length d1 = mNumComponents m).
  { unfold d1, rowwise_sum. rewrite length_map, length_seq. exact RW. }
  assert (L2 : length d2 = mNumComponents m * mNumFeatures m).
  { unfold d2, mmul. rewrite length_data_mk_matrix.
    change (rows postTmp) with (rows Wt).
    change (cols (transpose FOsq)) with (cols Ft).
    rewrite RW, CF. reflexivity. }
  assert (L3 : length d3 = dimInNonlinear m * mNumFeatures m).
  { unfold d3. unfold mmul at 1. rewrite length_data_mk_matrix.
    change (rows Xnl) with (dimInNonlinear m).
    change (cols (transpose (cwise_mul FO
              (mmul (mscale (sc_of_Z 2) (transpose Wt)) postTmp))))
      with (cols Ft).
    rewrite CF. reflexivity. }
  assert (L4 : length d4 = mNumComponents m * dimInNonlinear m).
  { unfold d4, mmul. rewrite length_data_mk_matrix.
    change (rows postTmp) with (rows Wt).
    change (cols (transpose Xnl)) with (dimInNonlinear m).
    rewrite RW. reflexivity. }
  assert (L5 : length d5 = dimInLinear m).
  { unfold d5, matvec. rewrite length_map, length_seq. reflexivity. }
  clearbody d1 d2 d3 d4 d5.
  eexists. eexists. split; cycle 1.
  - intros logLik [g|]; cbn [option_map].
    + rewrite !cond_view_sub_imap, !imap_imap. reflexivity.
    + reflexivity.
  - intros k v Hk. cbv beta.
    pose proof (offsets_monotone m params) as (H2 & H3 & H4 & H5).
    rewrite L1, L2, L3, L4, L5.
    rewrite (outside_view (trainBiases params) 0 (mNumComponents m)
               (offsetEnd m params) k)
      by (try exact Hk; unfold offsetEnd, offsetLinearPredictor,
            offsetPredictors, offsetFeatures, offsetWeights;
          destruct (trainBiases params); lia).
    rewrite (outside_view (trainWeights params) _ _ _ k H2 Hk).
    rewrite (outside_view (trainFeatures params) _ _ _ k H3 Hk).
    rewrite (outside_view (trainPredictors params) _ _ _ k H4 Hk).
    assert (E5 : (trainLinearPredictor params && negb (dimInLinear m =? 0))
                 && inView (offsetLinearPredictor m params) (dimInLinear m) k
                 = false).
    { rewrite <- andb_assoc, (andb_comm (negb _)), andb_assoc.
      rewrite (outside_view (trainLinearPredictor params) _ _ _ k H5 Hk).
      reflexivity. }
    rewrite E5. reflexivity.
Qed.

(** Any sequence of batches does the same. *)
Lemma fold_batches_shape (batchSize : nat) (schedule : list nat) :
  exists (total : T -> T) (phi : nat -> T -> T),
    (forall k v, offsetEnd m params <= k -> phi k v = v)
    /\ forall (logLik : T) (g : option (list T)),
         fold_left
           (fun acc b =>
              batchStep m params nonlinearity derivative inputCompl
                        outputCompl x batchSize b acc)
           schedule (logLik, g)
         = (total logLik, option_map (imap phi) g).
Proof.
  induction schedule as [|b schedule (total & phi & Hphi & IH)].
  - exists (fun l => l), (fun _ v => v). split; [reflexivity|].
    intros logLik [g|]; cbn [fold_left option_map]; [|reflexivity].
    rewrite imap_id by reflexivity. reflexivity.
  - destruct (batchStep_shape batchSize b) as (dl & phi0 & Hphi0 & Hb).
    exists (fun l => total (sc_add l dl)), (fun k v => phi k (phi0 k v)).
    split.
    + intros k v Hk. rewrite Hphi0, Hphi by exact Hk. reflexivity.
    + intros logLik g. cbn [fold_left]. rewrite Hb, IH.
      destruct g as [g|]; cbn [option_map]; [|reflexivity].
      rewrite imap_imap. reflexivity.
Qed.

(** The penalty gradient is added below [offsetEnd] only. *)
Lemma regularizeGradient_shape :
  exists rho : nat -> T -> T,
    (forall k v, offsetEnd m params <= k -> rho k v = v)
    /\ forall g, regularizeGradient m params x g = imap rho g.
Proof.
  pose proof (offsets_monotone m params) as (H2 & H3 & H4 & H5).
  assert (LL : length (linearPredictorView m params x) <= dimInLinear m).
  { unfold linearPredictorView, map_vector.
    destruct (trainLinearPredictor params); apply firstn_le_length. }
  assert (Hout : forall (flag c : bool) off len len' k,
             off + (if flag then len else 0) <= offsetEnd m params ->
             len' <= len -> offsetEnd m params <= k ->
             (flag && c) && inView off len' k = false).
  { intros flag c off len len' k Ho Hl Hk.
    rewrite <- andb_assoc, (andb_comm c), andb_assoc.
    rewrite (outside_view flag off len' (offsetEnd m params) k);
      [reflexivity | destruct flag; lia | exact Hk]. }
  unfold regularizeGradient. cbv zeta.
  destruct (regularizer params).
  - eexists. split; cycle 1.
    + intros g. rewrite !cond_view_add_imap, !imap_imap. reflexivity.
    + intros k v Hk. cbv beta. unfold mscale.
      rewrite ?length_data_cwise, ?length_map.
      cbn [rows cols cwise mk_matrix].
      rewrite ?rows_weightsView, ?cols_weightsView, ?rows_featuresView,
        ?cols_featuresView, ?rows_predictorsView, ?cols_predictorsView.
      rewrite (Hout (trainFeatures params) _ _ _ _ k H3 (Nat.le_refl _) Hk).
      rewrite (Hout (trainPredictors params) _ _ _ _ k H4 (Nat.le_refl _) Hk).
      rewrite (Hout (trainWeights params) _ _ _ _ k H2 (Nat.le_refl _) Hk).
      rewrite (Hout (trainLinearPredictor params) _ _ _ _ k H5 LL Hk).
      reflexivity.
  - eexists. split; cycle 1.
    + intros g. rewrite !cond_view_add_imap, !imap_imap. reflexivity.
    + intros k v Hk. cbv beta. unfold mscale.
      rewrite ?length_data_cwise, ?length_map.
      cbn [rows cols cwise mk_matrix].
      rewrite ?rows_weightsView, ?cols_weightsView, ?rows_featuresView,
        ?cols_featuresView, ?rows_predictorsView, ?cols_predictorsView.
      rewrite (Hout (trainFeatures params) _ _ _ _ k H3 (Nat.le_refl _) Hk).
      rewrite (Hout (trainPredictors params) _ _ _ _ k H4 (Nat.le_refl _) Hk).
      rewrite (Hout (trainWeights params) _ _ _ _ k H2 (Nat.le_refl _) Hk).
      rewrite (Hout (trainLinearPredictor params) _ _ _ _ k H5 LL Hk).
      reflexivity.
Qed.

End BufferFacts.

(** X9.  Whether or not a gradient buffer is passed, [parameterGradient]
    returns the same loss.  In the buffer it overwrites the entries below
    [offsetEnd] (the number of flagged parameters) with values that do not
    depend on what the buffer held, and it leaves every other entry as it
    was; this holds for every order in which the batches take effect. *)
Theorem gradient_buffer_discipline {T : Type} {ST : Scalar T} (m : STM T)
    (inputCompl outputCompl : Matrix T) (x : list T) (params : Parameters T)
    (schedule : list nat) (derivative : T -> T) :
  nl_derivative (mNonlinearity m) = Some derivative ->
  exists (value : T) (entry : nat -> T),
    parameterGradient_omp m inputCompl outputCompl x None params schedule
    = Ok (value, None)
    /\ forall g : list T,
         parameterGradient_omp m inputCompl outputCompl x (Some g) params
                               schedule
         = Ok (value,
               Some (imap (fun k v => if (k <? offsetEnd m params)%nat
                                      then entry k else v) g)).
Proof.
  intros HD.
  destruct (fold_batches_shape m params (nl_apply (mNonlinearity m))
              derivative inputCompl outputCompl x
              (effectiveBatchSize params (cols inputCompl)) schedule)
    as (total & phi & Hphi & Hfold).
  destruct (regularizeGradient_shape m params x) as (rho & Hrho & Hreg).
  set (c := normConst m inputCompl).
  exists (nanGuard (regularizeValue m params x
                      (sc_div (sc_neg (total sc_zero)) c))),
         (fun k => rho k (sc_div (phi k sc_zero) c)).
  unfold parameterGradient_omp, objectiveAndGradient, accumulate.
  rewrite HD. cbv zeta.
  specialize (Hfold sc_zero).
  split.
  - change (option_map (initGradient m params) None) with (@None (list T)).
    rewrite (Hfold None). reflexivity.
  - intros g.
    change (option_map (initGradient m params) (Some g))
      with (Some (initGradient m params g)).
    rewrite (Hfold (Some (initGradient m params g))).
    cbn [option_map fst snd bind]. fold c. f_equal. f_equal. f_equal.
    rewrite Hreg, initGradient_imap. unfold normalizeGradient.
    rewrite !imap_imap. apply imap_ext. intros k v _.
    destruct (k <? offsetEnd m params)%nat eqn:Ek; [reflexivity|].
    apply Nat.ltb_ge in Ek. rewrite Hphi, Hrho by exact Ek. reflexivity.
Qed.


(** The example model: the loss with and without a gradient buffer, and a
    buffer with one entry more than there are parameters. *)
Lemma gradient_buffer_discipline_witness :
  exists (value : R) (entry : nat -> R),
    parameterGradient exampleSTM exampleInput exampleOutput
      (parameters exampleSTM defaultParameters) None defaultParameters
    = Ok (value, None)
    /\ parameterGradient exampleSTM exampleInput exampleOutput
         (parameters exampleSTM defaultParameters)
         (Some [1; 1; 1; 1; 1; 1; 1; 1; 7]%R) defaultParameters
       = Ok (value,
             Some [entry 0; entry 1; entry 2; entry 3; entry 4; entry 5;
                   entry 6; entry 7; 7%R]%nat).
Proof.
  destruct (gradient_buffer_discipline exampleSTM exampleInput exampleOutput
              (parameters exampleSTM defaultParameters) defaultParameters
              (batchStarts 2 (effectiveBatchSize defaultParameters 2))
              (fun x => Rmax (exp x) (/ 2))%R eq_refl)
    as (value & entry & H0 & H1).
  exists value, entry. split; [exact H0|].
  exact (H1 [1; 1; 1; 1; 1; 1; 1; 1; 7]%R).
Defined.

(* ===================================================================== *)
(** * The gradient is the derivative of the loss *)
(* ===================================================================== *)

(** Derivatives of sums, products and compositions, for functions written
    with [fun]. *)
Lemma D_const (c t0 : R) : derivable_pt_lim (fun _ => c) t0 0.
Proof. apply derivable_pt_lim_const. Qed.

Lemma D_id (t0 : R) : derivable_pt_lim (fun t => t) t0 1.
Proof. apply derivable_pt_lim_id. Qed.

Lemma D_plus (f h : R -> R) (t0 f' h' : R) :
  derivable_pt_lim f t0 f' -> derivable_pt_lim h t0 h' ->
  derivable_pt_lim (fun t => f t + h t) t0 (f' + h').
Proof. intros Hf Hh. exact (derivable_pt_lim_plus f h t0 f' h' Hf Hh). Qed.

Lemma D_mult (f h : R -> R) (t0 f' h' : R) :
  derivable_pt_lim f t0 f' -> derivable_pt_lim h t0 h' ->
  derivable_pt_lim (fun t => f t * h t) t0 (f' * h t0 + f t0 * h').
Proof. intros Hf Hh. exact (derivable_pt_lim_mult f h t0 f' h' Hf Hh). Qed.

Lemma D_comp (f h : R -> R) (t0 f' h' : R) :
  derivable_pt_lim f t0 f' -> derivable_pt_lim h (f t0) h' ->
  derivable_pt_lim (fun t => h (f t)) t0 (h' * f').
Proof. intros Hf Hh. exact (derivable_pt_lim_comp f h t0 f' h' Hf Hh). Qed.

Lemma D_ext (f h : R -> R) (t0 f' : R) :
  (forall t, f t = h t) -> derivable_pt_lim f t0 f' ->
  derivable_pt_lim h t0 f'.
Proof. intros E. apply derivable_pt_lim_ext. exact E. Qed.

Lemma D_eq (f : R -> R) (t0 f' h' : R) :
  f' = h' -> derivable_pt_lim f t0 f' -> derivable_pt_lim f t0 h'.
Proof. intros <-. exact (fun H => H). Qed.

Lemma D_sum_list (h h' : nat -> R -> R) (t0 : R) (l : list nat) :
  (forall i, In i l -> derivable_pt_lim (h i) t0 (h' i t0)) ->
  derivable_pt_lim (fun t => sum_list (map (fun i => h i t) l)) t0
                   (sum_list (map (fun i => h' i t0) l)).
Proof.
  induction l as [|i l IH]; intros H.
  - cbn [map]. rewrite sum_list_R_nil.
    apply (D_ext (fun _ => 0)); [reflexivity | apply D_const].
  - cbn [map]. rewrite sum_list_R_cons.
    apply (D_ext (fun t => h i t + sum_list (map (fun i => h i t) l)));
      [reflexivity|].
    apply D_plus.
    + apply H. left. reflexivity.
    + apply IH. intros j Hj. apply H. right. exact Hj.
Qed.

Lemma D_sum_n (h h' : nat -> R -> R) (t0 : R) (n : nat) :
  (forall i, (i < n)%nat -> derivable_pt_lim (h i) t0 (h' i t0)) ->
  derivable_pt_lim (fun t => sum_n (fun i => h i t) n) t0
                   (sum_n (fun i => h' i t0) n).
Proof.
  intros H. unfold sum_n. apply D_sum_list.
  intros i Hi. apply in_seq in Hi. apply H. lia.
Qed.

(** Sums with one term singled out. *)
Lemma sum_n_R_scal (a : R) (f : nat -> R) n :
  sum_n (fun i => a * f i) n = a * sum_n f n.
Proof.
  unfold sum_n. induction (seq 0 n) as [|i l IH]; cbn [map].
  - rewrite !sum_list_R_nil. lra.
  - rewrite !sum_list_R_cons, IH. lra.
Qed.

Lemma sum_n_R_ext (f h : nat -> R) n :
  (forall i, (i < n)%nat -> f i = h i) -> sum_n f n = sum_n h n.
Proof. apply sum_n_ext. Qed.

Lemma sum_n_R_S (f : nat -> R) n : sum_n f (S n) = sum_n f n + f n.
Proof.
  unfold sum_n. rewrite seq_S, map_app, sum_list_R_app. cbn [map Nat.add].
  rewrite sum_list_R_cons, sum_list_R_nil. lra.
Qed.

Lemma sum_n_delta (i0 : nat) (a : nat -> R) n :
  sum_n (fun i => if (i =? i0)%nat then a i else 0) n
  = if (i0 <? n)%nat then a i0 else 0.
Proof.
  induction n as [|n IH].
  - reflexivity.
  - rewrite sum_n_R_S, IH.
    destruct (Nat.eqb_spec n i0) as [->|Hne].
    + rewrite Nat.ltb_irrefl.
      replace (i0 <? S i0)%nat with true by (symmetry; apply Nat.ltb_lt; lia).
      lra.
    + destruct (Nat.ltb_spec i0 n); destruct (Nat.ltb_spec i0 (S n));
        try lia; lra.
Qed.

(** The position of entry (i, j) of a column-major block that starts at
    [off] is [k] exactly when [k] lies in the block and (i, j) are the row
    and the column of [k - off]. *)
Lemma block_index (off r i j k : nat) :
  (i < r)%nat ->
  (off + (i + j * r) =? k)%nat
  = ((off <=? k) && ((i =? (k - off) mod r) && (j =? (k - off) / r)))%nat.
Proof.
  intros Hi.
  destruct (Nat.leb_spec off k) as [Hle|Hlt]; cbn [andb].
  - destruct (Nat.eqb_spec (off + (i + j * r)) k) as [E|E].
    + replace (k - off)%nat with (i + j * r)%nat by lia.
      destruct (flat_index r i j Hi) as [-> ->].
      rewrite !Nat.eqb_refl. reflexivity.
    + destruct (Nat.eqb_spec i ((k - off) mod r)) as [Ei|Ei];
        [|reflexivity].
      destruct (Nat.eqb_spec j ((k - off) / r)) as [Ej|Ej]; [|reflexivity].
      exfalso. apply E.
      pose proof (Nat.div_mod_eq (k - off) r). nia.
  - apply Nat.eqb_neq. lia.
Qed.

Lemma inView_block (off r c k : nat) :
  (0 < r)%nat ->
  inView off (r * c) k = ((off <=? k) && ((k - off) / r <? c))%nat.
Proof.
  intros Hr. unfold inView.
  destruct (Nat.leb_spec off k) as [Hle|Hlt]; cbn [andb]; [|reflexivity].
  pose proof (Nat.div_mod_eq (k - off) r) as E.
  pose proof (Nat.mod_upper_bound (k - off) r ltac:(lia)) as B.
  destruct (Nat.ltb_spec k (off + r * c));
    destruct (Nat.ltb_spec ((k - off) / r) c); try reflexivity; nia.
Qed.

(** A sum over the entries of a column-major block in which only the entry
    at position [k] counts. *)
Lemma sum_block_delta (flag : bool) (off r c k : nat) (a : nat -> nat -> R) :
  sum_n (fun j =>
           sum_n (fun i => (if flag && (off + (i + j * r) =? k)%nat
                            then 1 else 0) * a i j) r) c
  = if flag && inView off (r * c) k
    then a ((k - off) mod r)%nat ((k - off) / r)%nat else 0.
Proof.
  destruct flag; cbn [andb].
  2:{ apply sum_n_R_zero. intros j _. apply sum_n_R_zero. intros i _. lra. }
  destruct (Nat.eq_dec r 0) as [->|Hr].
  { cbn [Nat.mul]. unfold inView. rewrite Nat.add_0_r.
    replace ((off <=? k) && (k <? off))%nat with false
      by (symmetry; apply andb_false_iff;
          destruct (Nat.leb_spec off k); [right; apply Nat.ltb_ge; lia
                                         | left; reflexivity]).
    apply sum_n_R_zero. intros j _. reflexivity. }
  rewrite inView_block by lia.
  rewrite (sum_n_R_ext _
             (fun j => if (j =? (k - off) / r)%nat
                       then (if (off <=? k)%nat
                             then a ((k - off) mod r)%nat j else 0)
                       else 0)).
  - rewrite sum_n_delta.
    destruct (off <=? k)%nat, ((k - off) / r <? c)%nat; reflexivity.
  - intros j Hj.
    rewrite (sum_n_R_ext _
               (fun i => if (i =? (k - off) mod r)%nat
                         then (if (off <=? k)%nat && (j =? (k - off) / r)%nat
                               then a i j else 0)
                         else 0)).
    + rewrite sum_n_delta.
      replace ((k - off) mod r <? r)%nat with true
        by (symmetry; apply Nat.ltb_lt, Nat.mod_upper_bound; lia).
      destruct (off <=? k)%nat, (j =? (k - off) / r)%nat; reflexivity.
    + intros i Hi. rewrite (block_index off r i j k Hi).
      destruct (off <=? k)%nat, (i =? (k - off) mod r)%nat,
        (j =? (k - off) / r)%nat; cbn [andb]; lra.
Qed.

(** The same for a vector. *)
Lemma sum_vector_delta (flag : bool) (off len k : nat) (a : nat -> R) :
  sum_n (fun i => (if flag && (off + i =? k)%nat then 1 else 0) * a i) len
  = if flag && inView off len k then a (k - off)%nat else 0.
Proof.
  destruct flag; cbn [andb].
  2:{ apply sum_n_R_zero. intros i _. lra. }
  rewrite (sum_n_R_ext _
             (fun i => if (i =? k - off)%nat
                       then (if (off <=? k)%nat then a i else 0) else 0)).
  - rewrite sum_n_delta. unfold inView.
    destruct (Nat.leb_spec off k); destruct (Nat.ltb_spec (k - off) len);
      destruct (Nat.ltb_spec k (off + len)); cbn [andb];
      try reflexivity; lia.
  - intros i _.
    destruct (Nat.eqb_spec (off + i) k); destruct (Nat.eqb_spec i (k - off));
      destruct (Nat.leb_spec off k); try lia; lra.
Qed.

Lemma sum_n_R_swap (a : nat -> nat -> R) n n' :
  sum_n (fun i => sum_n (fun j => a i j) n') n
  = sum_n (fun j => sum_n (fun i => a i j) n) n'.
Proof.
  induction n as [|n IH].
  - symmetry. apply sum_n_R_zero. reflexivity.
  - rewrite sum_n_R_S, IH, <- sum_n_R_plus. apply sum_n_R_ext.
    intros j _. rewrite sum_n_R_S. reflexivity.
Qed.

Lemma sum_list_map_nth (phi : R -> R) (l : list R) :
  sum_list (map phi l) = sum_n (fun q => phi (nth q l 0)) (length l).
Proof.
  unfold sum_n. rewrite <- (map_map (fun q => nth q l 0) phi).
  rewrite map_nth_seq. reflexivity.
Qed.

Section GradientFacts.

Variable m : STM R.
Variable params : Parameters R.
Variables inputCompl outputCompl : Matrix R.
Variable x : list R.
Variable k : nat.
Hypothesis m_wf : wf_STM m.
Hypothesis x_length : (offsetEnd m params <= length x)%nat.
Hypothesis k_lt : (k < length x)%nat.

Let t0 : R := nth k x 0.
Let xt (t : R) : list R := setCoeff x k t.

Lemma length_setCoeff (t : R) : length (xt t) = length x.
Proof. apply length_imap. Qed.

Lemma nth_setCoeff (i : nat) (t : R) :
  (i < length x)%nat ->
  nth i (xt t) 0 = if (i =? k)%nat then t else nth i x 0.
Proof.
  intros Hi. unfold xt, setCoeff. rewrite (nth_imap _ x i 0 0 Hi).
  reflexivity.
Qed.

Lemma setCoeff_self : xt t0 = x.
Proof.
  apply (nth_ext _ _ 0 0).
  - apply length_setCoeff.
  - intros i Hi. rewrite length_setCoeff in Hi.
    rewrite nth_setCoeff by exact Hi.
    destruct (Nat.eqb_spec i k) as [->|]; reflexivity.
Qed.

Lemma xt_length (t : R) : (offsetEnd m params <= length (xt t))%nat.
Proof. rewrite length_setCoeff. exact x_length. Qed.

(** An entry of a view over the flat vector, as a function of [t]. *)
Lemma nth_view_setCoeff (off len q : nat) (t : R) :
  (off + len <= length x)%nat -> (q < len)%nat ->
  nth q (firstn len (skipn off (xt t))) 0
  = if (off + q =? k)%nat then t
    else nth q (firstn len (skipn off x)) 0.
Proof.
  intros Hl Hq. rewrite !nth_firstn.
  replace (q <? len)%nat with true by (symmetry; apply Nat.ltb_lt; exact Hq).
  rewrite !nth_skipn. apply nth_setCoeff. lia.
Qed.

Let K := mNumComponents m.
Let F := mNumFeatures m.
Let D := dimInNonlinear m.
Let Dl := dimInLinear m.
Let oW := offsetWeights m params.
Let oF := offsetFeatures m params.
Let oP := offsetPredictors m params.
Let oL := offsetLinearPredictor m params.

(** The coefficients of the five blocks as functions of [t], and their
    derivatives. *)
Let one (b : bool) : R := if b then 1 else 0.

Let dB (c : nat) : R := one (trainBiases params && (0 + c =? k)%nat).
Let dW (c f : nat) : R :=
  one (trainWeights params && (oW + (c + f * K) =? k)%nat).
Let dF (d f : nat) : R :=
  one (trainFeatures params && (oF + (d + f * D) =? k)%nat).
Let dP (c d : nat) : R :=
  one (trainPredictors params && (oP + (c + d * K) =? k)%nat).
Let dL (j : nat) : R :=
  one (trainLinearPredictor params && (oL + j =? k)%nat).

Lemma D_entry (flag : bool) (idx : nat) (v : R) :
  derivable_pt_lim (fun t => if flag && (idx =? k)%nat then t else v) t0
                   (one (flag && (idx =? k)%nat)).
Proof.
  unfold one. destruct (flag && (idx =? k)%nat); [apply D_id | apply D_const].
Qed.

Lemma biases_entry (c : nat) (t : R) :
  (c < K)%nat ->
  nth c (biasesView m params (xt t)) 0
  = if trainBiases params && (0 + c =? k)%nat then t
    else nth c (biasesView m params x) 0.
Proof.
  intros Hc. unfold biasesView, map_vector.
  destruct (trainBiases params) eqn:E; cbn [andb]; [|reflexivity].
  apply nth_view_setCoeff; [|exact Hc].
  pose proof x_length as Hx.
  unfold offsetEnd, offsetLinearPredictor, offsetPredictors, offsetFeatures,
    offsetWeights in Hx. rewrite E in Hx. fold K in Hx. lia.
Qed.

Lemma weights_entry (c f : nat) (t : R) :
  (c < K)%nat -> (f < F)%nat ->
  coeff (weightsView m params (xt t)) c f
  = if trainWeights params && (oW + (c + f * K) =? k)%nat then t
    else coeff (weightsView m params x) c f.
Proof.
  intros Hc Hf. unfold weightsView, coeff, map_view.
  pose proof (offsets_monotone m params) as (H2 & _).
  destruct (trainWeights params) eqn:E; cbn [andb rows data];
    [|reflexivity].
  apply nth_view_setCoeff; [lia|]. fold K F. nia.
Qed.

Lemma features_entry (d f : nat) (t : R) :
  (d < D)%nat -> (f < F)%nat ->
  coeff (featuresView m params (xt t)) d f
  = if trainFeatures params && (oF + (d + f * D) =? k)%nat then t
    else coeff (featuresView m params x) d f.
Proof.
  intros Hd Hf. unfold featuresView, coeff, map_view.
  pose proof (offsets_monotone m params) as (_ & H3 & _).
  destruct (trainFeatures params) eqn:E; cbn [andb rows data];
    [|reflexivity].
  apply nth_view_setCoeff; [lia|]. fold D F. nia.
Qed.

Lemma predictors_entry (c d : nat) (t : R) :
  (c < K)%nat -> (d < D)%nat ->
  coeff (predictorsView m params (xt t)) c d
  = if trainPredictors params && (oP + (c + d * K) =? k)%nat then t
    else coeff (predictorsView m params x) c d.
Proof.
  intros Hc Hd. unfold predictorsView, coeff, map_view.
  pose proof (offsets_monotone m params) as (_ & _ & H4 & _).
  destruct (trainPredictors params) eqn:E; cbn [andb rows data];
    [|reflexivity].
  apply nth_view_setCoeff; [lia|]. fold K D. nia.
Qed.

Lemma linear_entry (j : nat) (t : R) :
  (j < Dl)%nat ->
  nth j (linearPredictorView m params (xt t)) 0
  = if trainLinearPredictor params && (oL + j =? k)%nat then t
    else nth j (linearPredictorView m params x) 0.
Proof.
  intros Hj. unfold linearPredictorView, map_vector.
  pose proof (offsets_monotone m params) as (_ & _ & _ & H5).
  destruct (trainLinearPredictor params) eqn:E; cbn [andb]; [|reflexivity].
  apply nth_view_setCoeff; [lia | exact Hj].
Qed.

(** The same entries at the vector [x] itself. *)
Lemma entry_at_t0 (flag : bool) (idx : nat) (v w : R) :
  w = (if flag && (idx =? k)%nat then t0 else v) ->
  w = v ->
  (if flag && (idx =? k)%nat then t0 else v) = v.
Proof. intros <- E. exact E. Qed.

Lemma weights_t0 (c f : nat) :
  (c < K)%nat -> (f < F)%nat ->
  (if trainWeights params && (oW + (c + f * K) =? k)%nat then t0
   else coeff (weightsView m params x) c f)
  = coeff (weightsView m params x) c f.
Proof.
  intros Hc Hf.
  apply (entry_at_t0 _ _ _ (coeff (weightsView m params (xt t0)) c f)).
  - apply weights_entry; assumption.
  - rewrite setCoeff_self. reflexivity.
Qed.

Lemma features_t0 (d f : nat) :
  (d < D)%nat -> (f < F)%nat ->
  (if trainFeatures params && (oF + (d + f * D) =? k)%nat then t0
   else coeff (featuresView m params x) d f)
  = coeff (featuresView m params x) d f.
Proof.
  intros Hd Hf.
  apply (entry_at_t0 _ _ _ (coeff (featuresView m params (xt t0)) d f)).
  - apply features_entry; assumption.
  - rewrite setCoeff_self. reflexivity.
Qed.

(** The feature outputs and the energies as functions of [t]. *)
Let fo (f n : nat) : R := exFeatureOutput m params inputCompl x f n.
Let fo' (f n : nat) : R :=
  sum_n (fun d => dF d f * coeff inputCompl d n) D.

Lemma featureOutput_D (f n : nat) :
  (f < F)%nat ->
  derivable_pt_lim
    (fun t => exFeatureOutput m params inputCompl (xt t) f n) t0 (fo' f n).
Proof.
  intros Hf.
  apply (D_ext
           (fun t => sum_n
              (fun d => (if trainFeatures params
                            && (oF + (d + f * D) =? k)%nat
                         then t else coeff (featuresView m params x) d f)
                        * coeff inputCompl d n) D)).
  { intros t. unfold exFeatureOutput. fold D. apply sum_n_R_ext.
    intros d Hd. rewrite features_entry by assumption. reflexivity. }
  unfold fo'.
  apply (D_eq _ _
           (sum_n (fun d => dF d f * coeff inputCompl d n
                            + (if trainFeatures params
                                  && (oF + (d + f * D) =? k)%nat
                               then t0
                               else coeff (featuresView m params x) d f)
                              * 0) D)).
  { apply sum_n_R_ext. intros d _. lra. }
  apply (D_sum_n
           (fun d t => (if trainFeatures params
                           && (oF + (d + f * D) =? k)%nat
                        then t else coeff (featuresView m params x) d f)
                       * coeff inputCompl d n)
           (fun d _ => dF d f * coeff inputCompl d n
                       + (if trainFeatures params
                             && (oF + (d + f * D) =? k)%nat
                          then t0
                          else coeff (featuresView m params x) d f)
                         * 0)).
  intros d Hd. cbv beta.
  apply (D_mult (fun t => if trainFeatures params
                             && (oF + (d + f * D) =? k)%nat
                          then t else coeff (featuresView m params x) d f)
                (fun _ => coeff inputCompl d n)).
  - apply D_entry.
  - apply D_const.
Qed.

Lemma featureOutput_t0 (f n : nat) :
  exFeatureOutput m params inputCompl (xt t0) f n = fo f n.
Proof. rewrite setCoeff_self. reflexivity. Qed.

Let E' (c n : nat) : R :=
  sum_n (fun f => dW c f * (fo f n * fo f n)
                  + coeff (weightsView m params x) c f
                    * (fo' f n * fo f n + fo f n * fo' f n)) F
  + sum_n (fun d => dP c d * coeff inputCompl d n) D
  + dB c.

Lemma energy_D (c n : nat) :
  (c < K)%nat ->
  derivable_pt_lim (fun t => exEnergy m params inputCompl (xt t) c n) t0
                   (E' c n).
Proof.
  intros Hc.
  apply (D_ext
           (fun t =>
              sum_n (fun f =>
                       (if trainWeights params
                           && (oW + (c + f * K) =? k)%nat
                        then t else coeff (weightsView m params x) c f)
                       * (exFeatureOutput m params inputCompl (xt t) f n
                          * exFeatureOutput m params inputCompl (xt t) f n))
                    F
              + sum_n (fun d =>
                         (if trainPredictors params
                             && (oP + (c + d * K) =? k)%nat
                          then t
                          else coeff (predictorsView m params x) c d)
                         * coeff inputCompl d n) D
              + (if trainBiases params && (0 + c =? k)%nat then t
                 else nth c (biasesView m params x) 0))).
  { intros t. unfold exEnergy, energyAt.
    rewrite cols_weightsView, rows_featuresView, cols_predictorsView.
    fold F D. rsimp. f_equal; [f_equal|].
    - apply sum_n_R_ext. intros f Hf.
      rewrite weights_entry by assumption. reflexivity.
    - apply sum_n_R_ext. intros d Hd.
      rewrite predictors_entry by assumption. reflexivity.
    - symmetry. apply biases_entry. exact Hc. }
  unfold E'. apply D_plus; [apply D_plus|].
  - apply (D_eq _ _
             (sum_n (fun f =>
                 dW c f
                 * (exFeatureOutput m params inputCompl (xt t0) f n
                    * exFeatureOutput m params inputCompl (xt t0) f n)
                 + (if trainWeights params && (oW + (c + f * K) =? k)%nat
                    then t0 else coeff (weightsView m params x) c f)
                   * (fo' f n
                      * exFeatureOutput m params inputCompl (xt t0) f n
                      + exFeatureOutput m params inputCompl (xt t0) f n
                        * fo' f n)) F)).
    { apply sum_n_R_ext. intros f Hf.
      rewrite featureOutput_t0, weights_t0 by assumption. reflexivity. }
    apply (D_sum_n
             (fun f t =>
                (if trainWeights params && (oW + (c + f * K) =? k)%nat
                 then t else coeff (weightsView m params x) c f)
                * (exFeatureOutput m params inputCompl (xt t) f n
                   * exFeatureOutput m params inputCompl (xt t) f n))
             (fun f t =>
                dW c f
                * (exFeatureOutput m params inputCompl (xt t) f n
                   * exFeatureOutput m params inputCompl (xt t) f n)
                + (if trainWeights params && (oW + (c + f * K) =? k)%nat
                   then t else coeff (weightsView m params x) c f)
                  * (fo' f n
                     * exFeatureOutput m params inputCompl (xt t) f n
                     + exFeatureOutput m params inputCompl (xt t) f n
                       * fo' f n))).
    intros f Hf. cbv beta.
    apply (D_mult
             (fun t => if trainWeights params && (oW + (c + f * K) =? k)%nat
                       then t else coeff (weightsView m params x) c f)
             (fun t => exFeatureOutput m params inputCompl (xt t) f n
                       * exFeatureOutput m params inputCompl (xt t) f n)).
    + apply D_entry.
    + apply (D_mult
               (fun t => exFeatureOutput m params inputCompl (xt t) f n)
               (fun t => exFeatureOutput m params inputCompl (xt t) f n));
        apply featureOutput_D; exact Hf.
  - apply (D_eq _ _
             (sum_n (fun d =>
                 dP c d * coeff inputCompl d n
                 + (if trainPredictors params && (oP + (c + d * K) =? k)%nat
                    then t0 else coeff (predictorsView m params x) c d)
                   * 0) D)).
    { apply sum_n_R_ext. intros d _. lra. }
    apply (D_sum_n
             (fun d t =>
                (if trainPredictors params && (oP + (c + d * K) =? k)%nat
                 then t else coeff (predictorsView m params x) c d)
                * coeff inputCompl d n)
             (fun d t =>
                dP c d * coeff inputCompl d n
                + (if trainPredictors params && (oP + (c + d * K) =? k)%nat
                   then t else coeff (predictorsView m params x) c d)
                  * 0)).
    intros d Hd. cbv beta.
    apply (D_mult
             (fun t => if trainPredictors params
                          && (oP + (c + d * K) =? k)%nat
                       then t else coeff (predictorsView m params x) c d)
             (fun _ => coeff inputCompl d n)).
    + apply D_entry.
    + apply D_const.
  - apply D_entry.
Qed.

(** The pooled response is the logarithm of the sum of the exponentials of
    the energies. *)
Lemma exPooled_ln (y : list R) (n : nat) :
  exPooled m params inputCompl y n
  = ln (sum_n (fun c => exp (exEnergy m params inputCompl y c n)) K).
Proof.
  unfold exPooled.
  rewrite logSumExp_col_logsumexp by (apply map_seq_nonempty, (wf_components m_wf)).
  unfold logsumexp, sum_n. rewrite map_map. reflexivity.
Qed.

Lemma sum_exp_energy_pos (n : nat) :
  0 < sum_n (fun c => exp (exEnergy m params inputCompl x c n)) K.
Proof.
  unfold sum_n. rewrite <- (map_map _ exp). apply sum_exp_pos.
  apply map_seq_nonempty, (wf_components m_wf).
Qed.

Lemma exPosterior_ratio (c n : nat) :
  exPosterior m params inputCompl x c n
  = / sum_n (fun c => exp (exEnergy m params inputCompl x c n)) K
    * exp (exEnergy m params inputCompl x c n).
Proof.
  unfold exPosterior. rewrite exPooled_ln.
  unfold Rminus. rewrite exp_plus, exp_Ropp, exp_ln.
  - apply Rmult_comm.
  - apply sum_exp_energy_pos.
Qed.

Lemma pooled_D (n : nat) :
  derivable_pt_lim (fun t => exPooled m params inputCompl (xt t) n) t0
    (sum_n (fun c => exPosterior m params inputCompl x c n * E' c n) K).
Proof.
  apply (D_ext
           (fun t => ln (sum_n (fun c => exp (exEnergy m params inputCompl
                                                      (xt t) c n)) K))).
  { intros t. symmetry. apply exPooled_ln. }
  apply (D_eq _ _
           (/ sum_n (fun c => exp (exEnergy m params inputCompl (xt t0) c n)) K
            * sum_n (fun c => exp (exEnergy m params inputCompl (xt t0) c n)
                              * E' c n) K)).
  { rewrite setCoeff_self, <- sum_n_R_scal. apply sum_n_R_ext.
    intros c _. rewrite exPosterior_ratio. lra. }
  apply (D_comp
           (fun t => sum_n (fun c => exp (exEnergy m params inputCompl
                                                   (xt t) c n)) K)
           ln).
  - apply (D_sum_n
             (fun c t => exp (exEnergy m params inputCompl (xt t) c n))
             (fun c t => exp (exEnergy m params inputCompl (xt t) c n)
                         * E' c n)).
    intros c Hc. cbv beta.
    apply (D_comp (fun t => exEnergy m params inputCompl (xt t) c n) exp).
    + apply energy_D. exact Hc.
    + apply derivable_pt_lim_exp.
  - apply derivable_pt_lim_ln. rewrite setCoeff_self.
    apply sum_exp_energy_pos.
Qed.

Let lin' (n : nat) : R :=
  if negb (Dl =? 0)%nat
  then sum_n (fun j => dL j * coeff inputCompl (D + j) n) Dl
  else 0.

Let r' (n : nat) : R :=
  sum_n (fun c => exPosterior m params inputCompl x c n * E' c n) K + lin' n.

Lemma response_D (n : nat) :
  derivable_pt_lim (fun t => exResponse m params inputCompl (xt t) n) t0
                   (r' n).
Proof.
  unfold r', lin', exResponse. fold Dl.
  destruct (negb (Dl =? 0)%nat).
  - apply (D_ext
             (fun t =>
                exPooled m params inputCompl (xt t) n
                + sum_n (fun j =>
                           (if trainLinearPredictor params
                               && (oL + j =? k)%nat
                            then t
                            else nth j (linearPredictorView m params x) 0)
                           * coeff inputCompl (D + j) n) Dl)).
    { intros t. f_equal.
      rewrite (length_linearPredictorView m params (xt t) m_wf (xt_length t)).
      fold Dl. apply sum_n_R_ext. intros j Hj.
      rewrite linear_entry by exact Hj. reflexivity. }
    apply D_plus; [apply pooled_D|].
    apply (D_eq _ _
             (sum_n (fun j =>
                 dL j * coeff inputCompl (D + j) n
                 + (if trainLinearPredictor params && (oL + j =? k)%nat
                    then t0 else nth j (linearPredictorView m params x) 0)
                   * 0) Dl)).
    { apply sum_n_R_ext. intros j _. lra. }
    apply (D_sum_n
             (fun j t =>
                (if trainLinearPredictor params && (oL + j =? k)%nat
                 then t else nth j (linearPredictorView m params x) 0)
                * coeff inputCompl (D + j) n)
             (fun j t =>
                dL j * coeff inputCompl (D + j) n
                + (if trainLinearPredictor params && (oL + j =? k)%nat
                   then t else nth j (linearPredictorView m params x) 0)
                  * 0)).
    intros j Hj. cbv beta.
    apply (D_mult
             (fun t => if trainLinearPredictor params && (oL + j =? k)%nat
                       then t else nth j (linearPredictorView m params x) 0)
             (fun _ => coeff inputCompl (D + j) n)).
    + apply D_entry.
    + apply D_const.
  - apply (D_eq _ _ (sum_n (fun c => exPosterior m params inputCompl x c n
                                     * E' c n) K)); [lra|].
    apply pooled_D.
Qed.

(** The link and the distribution: the link is differentiable, with the
    derivative the model's nonlinearity provides, and maps into a set on
    which the log-likelihood is differentiable in the mean, with the
    derivative the distribution provides. *)
Variable derivative : R -> R.
Variable dom : R -> Prop.
Hypothesis link_D :
  forall r, derivable_pt_lim (nl_apply (mNonlinearity m)) r (derivative r).
Hypothesis link_dom : forall r, dom (nl_apply (mNonlinearity m) r).
Hypothesis dist_D :
  forall y mu, dom mu ->
    derivable_pt_lim (fun mu => ud_logLikelihood (mDistribution m) y mu) mu
                     (- ud_gradient (mDistribution m) y mu).

Lemma logLik_D (n : nat) :
  derivable_pt_lim
    (fun t => exLogLik m params (nl_apply (mNonlinearity m)) inputCompl
                       outputCompl (xt t) n) t0
    (exTmp m params (nl_apply (mNonlinearity m)) derivative inputCompl
           outputCompl x n * r' n).
Proof.
  unfold exLogLik, exTmp.
  apply (D_eq _ _
           (- ud_gradient (mDistribution m) (coeff outputCompl 0 n)
                (nl_apply (mNonlinearity m)
                   (exResponse m params inputCompl (xt t0) n))
            * (derivative (exResponse m params inputCompl (xt t0) n)
               * r' n))).
  { rewrite setCoeff_self. lra. }
  apply (D_comp
           (fun t => nl_apply (mNonlinearity m)
                       (exResponse m params inputCompl (xt t) n))
           (fun mu => ud_logLikelihood (mDistribution m)
                        (coeff outputCompl 0 n) mu)).
  - apply (D_comp (fun t => exResponse m params inputCompl (xt t) n)
                  (nl_apply (mNonlinearity m))).
    + apply response_D.
    + apply link_D.
  - apply dist_D. apply link_dom.
Qed.

Lemma totalLogLik_D :
  derivable_pt_lim
    (fun t => totalLogLik m params (nl_apply (mNonlinearity m)) inputCompl
                          outputCompl (xt t)) t0
    (sum_n (fun n => exTmp m params (nl_apply (mNonlinearity m)) derivative
                           inputCompl outputCompl x n * r' n)
           (cols inputCompl)).
Proof.
  unfold totalLogLik.
  apply (D_sum_n
           (fun n t => exLogLik m params (nl_apply (mNonlinearity m))
                                inputCompl outputCompl (xt t) n)
           (fun n _ => exTmp m params (nl_apply (mNonlinearity m)) derivative
                             inputCompl outputCompl x n * r' n)).
  intros n _. apply logLik_D.
Qed.

(** What the derivative of the response contributes to each block is what
    the source subtracts from that block of the buffer. *)
Let PT (c n : nat) : R :=
  exPostTmp m params (nl_apply (mNonlinearity m)) derivative inputCompl
            outputCompl x c n.

Lemma block_biases (n : nat) :
  sum_n (fun c => PT c n * dB c) K
  = if trainBiases params && inView 0 K k
    then exGradBiases m params (nl_apply (mNonlinearity m)) derivative
                      inputCompl outputCompl x k n
    else 0.
Proof.
  rewrite (sum_n_R_ext _
             (fun c => (if trainBiases params && (0 + c =? k)%nat
                        then 1 else 0) * PT c n))
    by (intros c _; unfold dB, one; lra).
  rewrite sum_vector_delta, Nat.sub_0_r. reflexivity.
Qed.

Lemma block_weights (n : nat) :
  sum_n (fun c => PT c n * sum_n (fun f => dW c f * (fo f n * fo f n)) F) K
  = if trainWeights params && inView oW (K * F) k
    then exGradWeights m params (nl_apply (mNonlinearity m)) derivative
                       inputCompl outputCompl x (k - oW) n
    else 0.
Proof.
  rewrite (sum_n_R_ext _
             (fun c => sum_n
                (fun f => (if trainWeights params
                              && (oW + (c + f * K) =? k)%nat
                           then 1 else 0)
                          * (PT c n * (fo f n * fo f n))) F)).
  2:{ intros c _. rewrite <- sum_n_R_scal. apply sum_n_R_ext.
      intros f _. unfold dW, one. lra. }
  rewrite sum_n_R_swap.
  rewrite (sum_block_delta (trainWeights params) oW K F k
             (fun c f => PT c n * (fo f n * fo f n))).
  reflexivity.
Qed.

Lemma block_predictors (n : nat) :
  sum_n (fun c => PT c n
                  * sum_n (fun d => dP c d * coeff inputCompl d n) D) K
  = if trainPredictors params && inView oP (K * D) k
    then exGradPredictors m params (nl_apply (mNonlinearity m)) derivative
                          inputCompl outputCompl x (k - oP) n
    else 0.
Proof.
  rewrite (sum_n_R_ext _
             (fun c => sum_n
                (fun d => (if trainPredictors params
                              && (oP + (c + d * K) =? k)%nat
                           then 1 else 0)
                          * (PT c n * coeff inputCompl d n)) D)).
  2:{ intros c _. rewrite <- sum_n_R_scal. apply sum_n_R_ext.
      intros d _. unfold dP, one. lra. }
  rewrite sum_n_R_swap.
  rewrite (sum_block_delta (trainPredictors params) oP K D k
             (fun c d => PT c n * coeff inputCompl d n)).
  reflexivity.
Qed.

Lemma block_features (n : nat) :
  sum_n (fun c => PT c n
                  * sum_n (fun f => coeff (weightsView m params x) c f
                                    * (fo' f n * fo f n + fo f n * fo' f n))
                          F) K
  = if trainFeatures params && inView oF (D * F) k
    then exGradFeatures m params (nl_apply (mNonlinearity m)) derivative
                        inputCompl outputCompl x (k - oF) n
    else 0.
Proof.
  rewrite (sum_n_R_ext _
             (fun c => sum_n
                (fun f => (fo f n * fo' f n)
                          * (2 * coeff (weightsView m params x) c f
                             * PT c n)) F)).
  2:{ intros c _. rewrite <- sum_n_R_scal. apply sum_n_R_ext.
      intros f _. lra. }
  rewrite sum_n_R_swap.
  rewrite (sum_n_R_ext _
             (fun f => sum_n
                (fun d => (if trainFeatures params
                              && (oF + (d + f * D) =? k)%nat
                           then 1 else 0)
                          * (coeff inputCompl d n
                             * (fo f n
                                * sum_n (fun c =>
                                     2 * coeff (weightsView m params x) c f
                                     * PT c n) K))) D)).
  2:{ intros f _. rewrite sum_n_R_scal.
      set (S := sum_n (fun c => 2 * coeff (weightsView m params x) c f
                               * PT c n) K).
      rewrite (sum_n_R_ext
                 (fun d => (if trainFeatures params
                               && (oF + (d + f * D) =? k)%nat
                            then 1 else 0)
                           * (coeff inputCompl d n * (fo f n * S)))
                 (fun d => (fo f n * S) * (dF d f * coeff inputCompl d n)))
        by (intros d _; unfold dF, one; lra).
      rewrite sum_n_R_scal. unfold fo'. lra. }
  rewrite (sum_block_delta (trainFeatures params) oF D F k
             (fun d f => coeff inputCompl d n
                         * (fo f n
                            * sum_n (fun c =>
                                 2 * coeff (weightsView m params x) c f
                                 * PT c n) K))).
  reflexivity.
Qed.

Lemma block_linear (n : nat) :
  exTmp m params (nl_apply (mNonlinearity m)) derivative inputCompl
        outputCompl x n * lin' n
  = if (trainLinearPredictor params && negb (Dl =? 0)%nat)
       && inView oL Dl k
    then exGradLinear m params (nl_apply (mNonlinearity m)) derivative
                      inputCompl outputCompl x (k - oL) n
    else 0.
Proof.
  unfold lin'. destruct (negb (Dl =? 0)%nat).
  - rewrite andb_true_r.
    rewrite (sum_n_R_ext _
               (fun j => (if trainLinearPredictor params && (oL + j =? k)%nat
                          then 1 else 0)
                         * coeff inputCompl (D + j) n))
      by (intros j _; unfold dL, one; lra).
    rewrite sum_vector_delta. unfold exGradLinear. fold D.
    destruct (trainLinearPredictor params && inView oL Dl k); lra.
  - rewrite andb_false_r. cbn [andb]. lra.
Qed.

(** The derivative of one example's log-likelihood is what the example
    subtracts from entry [k] of the buffer. *)
Lemma example_gradient (n : nat) :
  exTmp m params (nl_apply (mNonlinearity m)) derivative inputCompl
        outputCompl x n * r' n
  = exGradient m params (nl_apply (mNonlinearity m)) derivative inputCompl
               outputCompl x k n.
Proof.
  unfold exGradient. fold K F D Dl oW oF oP oL.
  rewrite <- block_biases, <- block_weights, <- block_features,
    <- block_predictors, <- block_linear.
  unfold r'. rewrite Rmult_plus_distr_l. f_equal.
  rewrite <- sum_n_R_scal, <- !sum_n_R_plus. apply sum_n_R_ext.
  intros c _. unfold E', PT, exPostTmp.
  rewrite sum_n_R_plus. lra.
Qed.

(** The entries of the four regularised blocks as functions of [t]. *)
Lemma weights_data_entry (q : nat) (t : R) :
  (q < K * F)%nat ->
  nth q (data (weightsView m params (xt t))) 0
  = if trainWeights params && (oW + q =? k)%nat then t
    else nth q (data (weightsView m params x)) 0.
Proof.
  intros Hq. unfold weightsView, map_view.
  pose proof (offsets_monotone m params) as (H2 & _).
  destruct (trainWeights params) eqn:E; cbn [andb rows data];
    [|reflexivity].
  apply nth_view_setCoeff; [lia | exact Hq].
Qed.

Lemma features_data_entry (q : nat) (t : R) :
  (q < D * F)%nat ->
  nth q (data (featuresView m params (xt t))) 0
  = if trainFeatures params && (oF + q =? k)%nat then t
    else nth q (data (featuresView m params x)) 0.
Proof.
  intros Hq. unfold featuresView, map_view.
  pose proof (offsets_monotone m params) as (_ & H3 & _).
  destruct (trainFeatures params) eqn:E; cbn [andb rows data];
    [|reflexivity].
  apply nth_view_setCoeff; [lia | exact Hq].
Qed.

Lemma predictors_data_entry (q : nat) (t : R) :
  (q < K * D)%nat ->
  nth q (data (predictorsView m params (xt t))) 0
  = if trainPredictors params && (oP + q =? k)%nat then t
    else nth q (data (predictorsView m params x)) 0.
Proof.
  intros Hq. unfold predictorsView, map_view.
  pose proof (offsets_monotone m params) as (_ & _ & H4 & _).
  destruct (trainPredictors params) eqn:E; cbn [andb rows data];
    [|reflexivity].
  apply nth_view_setCoeff; [lia | exact Hq].
Qed.

(** The derivative of the penalty on one block. *)
Lemma Rsign_D (t : R) : t <> 0 -> derivable_pt_lim Rabs t (Rsign t).
Proof.
  intros Ht. unfold Rsign.
  destruct (Rlt_dec 0 t) as [Hp|Hp]; [apply Rabs_derive_1; exact Hp|].
  destruct (Rlt_dec t 0) as [Hn|Hn]; [apply Rabs_derive_2; exact Hn|].
  lra.
Qed.

Lemma penalty_block_D (reg : Regularizer) (flag : bool) (lambda : R)
    (off len : nat) (theta : list R -> list R) :
  (forall t, length (theta (xt t)) = len) ->
  (forall q t, (q < len)%nat ->
     nth q (theta (xt t)) 0
     = if flag && (off + q =? k)%nat then t else nth q (theta x) 0) ->
  (reg = L1 -> regularized flag lambda && inView off len k = true ->
   t0 <> 0) ->
  derivable_pt_lim
    (fun t => if regularized flag lambda
              then penalty reg lambda (theta (xt t)) else 0) t0
    (penaltyGradientAt reg flag lambda off (theta x) k).
Proof.
  intros Hlen Hnth Hreg. unfold penaltyGradientAt.
  assert (Hlen0 : length (theta x) = len)
    by (rewrite <- setCoeff_self; apply Hlen).
  rewrite Hlen0.
  destruct (regularized flag lambda) eqn:Er; cbn [andb]; [|apply D_const].
  assert (Ef : flag = true)
    by (unfold regularized in Er; apply andb_true_iff in Er; apply Er).
  subst flag. cbn [andb] in Hnth.
  assert (Hk0 : inView off len k = true -> nth (k - off) (theta x) 0 = t0).
  { intros Hin. apply inView_spec in Hin.
    rewrite <- setCoeff_self at 1. rewrite Hnth by lia.
    replace (off + (k - off) =? k)%nat with true
      by (symmetry; apply Nat.eqb_eq; lia).
    reflexivity. }
  assert (Main : forall (phi : R -> R) (phi' : R),
             (inView off len k = true -> derivable_pt_lim phi t0 phi') ->
             derivable_pt_lim
               (fun t => lambda * sum_list (map phi (theta (xt t)))) t0
               (if inView off len k then lambda * phi' else 0)).
  { intros phi phi' Hphi.
    apply (D_ext
             (fun t => lambda
                       * sum_n (fun q => phi (if (off + q =? k)%nat then t
                                              else nth q (theta x) 0)) len)).
    { intros t. f_equal. rewrite sum_list_map_nth, Hlen.
      apply sum_n_R_ext. intros q Hq. rewrite Hnth by exact Hq.
      reflexivity. }
    apply (D_eq _ _
             (0 * sum_n (fun q => phi (if (off + q =? k)%nat then t0
                                       else nth q (theta x) 0)) len
              + lambda
                * sum_n (fun q => (if true && (off + q =? k)%nat
                                   then 1 else 0) * phi') len)).
    { rewrite sum_vector_delta. cbn [andb].
      destruct (inView off len k); lra. }
    apply (D_mult (fun _ => lambda)
             (fun t => sum_n (fun q => phi (if (off + q =? k)%nat then t
                                            else nth q (theta x) 0)) len)).
    - apply D_const.
    - apply (D_sum_n
               (fun q t => phi (if (off + q =? k)%nat then t
                                else nth q (theta x) 0))
               (fun q _ => (if true && (off + q =? k)%nat then 1 else 0)
                           * phi')).
      intros q Hq. cbv beta. cbn [andb].
      destruct (off + q =? k)%nat eqn:Eq.
      + apply (D_eq _ _ phi'); [lra|]. apply Hphi.
        apply Nat.eqb_eq in Eq. apply inView_spec. lia.
      + apply (D_eq _ _ 0); [lra|]. apply D_const. }
  destruct reg; unfold penalty, penaltyGradient.
  - apply (D_eq _ _ (if inView off len k then lambda * Rsign t0 else 0)).
    { destruct (inView off len k) eqn:Ein; [|reflexivity].
      rewrite Hk0 by reflexivity. reflexivity. }
    apply Main. intros Hin. apply Rsign_D. apply Hreg; [reflexivity|].
    rewrite Hin. reflexivity.
  - apply (D_eq _ _ (if inView off len k
                     then lambda * (1 * t0 + t0 * 1) else 0)).
    { destruct (inView off len k) eqn:Ein; [|reflexivity].
      rewrite Hk0 by reflexivity. lra. }
    apply Main. intros _.
    apply (D_mult (fun t => t) (fun t => t)); apply D_id.
Qed.

Hypothesis output_rows : rows outputCompl = dimOut m.
Hypothesis differentiable :
  nl_derivative (mNonlinearity m) = Some derivative.
Hypothesis k_flagged : (k < offsetEnd m params)%nat.
Hypothesis l1_away_from_zero : inL1Block m params k = true -> t0 <> 0.

Let c : R := INR (cols inputCompl) * ln 2 * INR (dimOut m).
Let reg := regularizer params.

Lemma objective_D :
  derivable_pt_lim
    (fun t => objectiveAt m inputCompl outputCompl params (xt t)) t0
    ((0 - sum_n (exGradient m params (nl_apply (mNonlinearity m)) derivative
                            inputCompl outputCompl x k)
                (cols inputCompl)) / c
     + penaltyGradientAt reg (trainFeatures params)
         (regularizeFeatures params) oF
         (data (featuresView m params x)) k
     + penaltyGradientAt reg (trainPredictors params)
         (regularizePredictors params) oP
         (data (predictorsView m params x)) k
     + penaltyGradientAt reg (trainWeights params)
         (regularizeWeights params) oW
         (data (weightsView m params x)) k
     + penaltyGradientAt reg (trainLinearPredictor params)
         (regularizeLinearPredictor params) oL
         (linearPredictorView m params x) k).
Proof.
  apply (D_ext
           (fun t =>
              (-1 / c) * totalLogLik m params (nl_apply (mNonlinearity m))
                                     inputCompl outputCompl (xt t)
              + (if regularized (trainFeatures params)
                                (regularizeFeatures params)
                 then penalty reg (regularizeFeatures params)
                              (data (featuresView m params (xt t)))
                 else 0)
              + (if regularized (trainPredictors params)
                                (regularizePredictors params)
                 then penalty reg (regularizePredictors params)
                              (data (predictorsView m params (xt t)))
                 else 0)
              + (if regularized (trainWeights params)
                                (regularizeWeights params)
                 then penalty reg (regularizeWeights params)
                              (data (weightsView m params (xt t)))
                 else 0)
              + (if regularized (trainLinearPredictor params)
                                (regularizeLinearPredictor params)
                 then penalty reg (regularizeLinearPredictor params)
                              (linearPredictorView m params (xt t))
                 else 0))).
  { intros t. unfold objectiveAt.
    rewrite (parameterGradient_total m inputCompl outputCompl (xt t) None
               params derivative output_rows differentiable).
    cbn [fst].
    rewrite (regularizeValue_penalty m params (xt t) m_wf (xt_length t)).
    fold c reg. unfold Rdiv. ring. }
  pose proof (offsets_monotone m params) as (H2 & H3 & H4 & H5).
  assert (Hin : reg = L1 ->
            inL1Block m params k
            = regularized (trainFeatures params) (regularizeFeatures params)
                && inView oF (D * F) k
              || regularized (trainPredictors params)
                             (regularizePredictors params)
                 && inView oP (K * D) k
              || regularized (trainWeights params) (regularizeWeights params)
                 && inView oW (K * F) k
              || regularized (trainLinearPredictor params)
                             (regularizeLinearPredictor params)
                 && inView oL Dl k).
  { intros Hr. unfold inL1Block. fold reg. rewrite Hr. reflexivity. }
  repeat apply D_plus.
  - apply (D_eq _ _
             (0 * totalLogLik m params (nl_apply (mNonlinearity m))
                              inputCompl outputCompl (xt t0)
              + (-1 / c)
                * sum_n (fun n => exTmp m params (nl_apply (mNonlinearity m))
                                        derivative inputCompl outputCompl x n
                                  * r' n)
                        (cols inputCompl))).
    { rewrite (sum_n_R_ext _
                 (exGradient m params (nl_apply (mNonlinearity m)) derivative
                             inputCompl outputCompl x k))
        by (intros n _; apply example_gradient).
      unfold Rdiv. ring. }
    apply (D_mult (fun _ => -1 / c)
             (fun t => totalLogLik m params (nl_apply (mNonlinearity m))
                                   inputCompl outputCompl (xt t))).
    + apply D_const.
    + apply totalLogLik_D.
  - apply (penalty_block_D reg (trainFeatures params)
             (regularizeFeatures params) oF (D * F)
             (fun y => data (featuresView m params y))).
    + intros t. apply (length_featuresView m params (xt t) m_wf (xt_length t)).
    + intros q t Hq. apply features_data_entry. exact Hq.
    + intros Hr Hb. apply l1_away_from_zero. rewrite (Hin Hr), Hb.
      reflexivity.
  - apply (penalty_block_D reg (trainPredictors params)
             (regularizePredictors params) oP (K * D)
             (fun y => data (predictorsView m params y))).
    + intros t.
      apply (length_predictorsView m params (xt t) m_wf (xt_length t)).
    + intros q t Hq. apply predictors_data_entry. exact Hq.
    + intros Hr Hb. apply l1_away_from_zero. rewrite (Hin Hr), Hb.
      rewrite orb_true_r. reflexivity.
  - apply (penalty_block_D reg (trainWeights params)
             (regularizeWeights params) oW (K * F)
             (fun y => data (weightsView m params y))).
    + intros t. apply (length_weightsView m params (xt t) m_wf (xt_length t)).
    + intros q t Hq. apply weights_data_entry. exact Hq.
    + intros Hr Hb. apply l1_away_from_zero. rewrite (Hin Hr), Hb.
      rewrite orb_true_r. reflexivity.
  - apply (penalty_block_D reg (trainLinearPredictor params)
             (regularizeLinearPredictor params) oL Dl
             (fun y => linearPredictorView m params y)).
    + intros t.
      apply (length_linearPredictorView m params (xt t) m_wf (xt_length t)).
    + intros q t Hq. apply linear_entry. exact Hq.
    + intros Hr Hb. apply l1_away_from_zero. rewrite (Hin Hr), Hb.
      rewrite orb_true_r. reflexivity.
Qed.

(** Entry [k] of the gradient [parameterGradient] leaves in the buffer. *)
Lemma gradient_entry (g : list R) :
  (k < length g)%nat ->
  nth k (regularizeGradient m params x
           (normalizeGradient (offsetEnd m params) c
              (totalGradient m params (nl_apply (mNonlinearity m)) derivative
                             inputCompl outputCompl x g))) 0
  = (0 - sum_n (exGradient m params (nl_apply (mNonlinearity m)) derivative
                           inputCompl outputCompl x k)
               (cols inputCompl)) / c
    + penaltyGradientAt reg (trainFeatures params)
        (regularizeFeatures params) oF
        (data (featuresView m params x)) k
    + penaltyGradientAt reg (trainPredictors params)
        (regularizePredictors params) oP
        (data (predictorsView m params x)) k
    + penaltyGradientAt reg (trainWeights params)
        (regularizeWeights params) oW
        (data (weightsView m params x)) k
    + penaltyGradientAt reg (trainLinearPredictor params)
        (regularizeLinearPredictor params) oL
        (linearPredictorView m params x) k.
Proof.
  intros Hg.
  rewrite (regularizeGradient_penalty m params x m_wf x_length).
  unfold normalizeGradient, totalGradient.
  rewrite initGradient_imap, !imap_imap.
  rewrite (nth_imap _ g k 0 0 Hg).
  replace (k <? offsetEnd m params)%nat with true
    by (symmetry; apply Nat.ltb_lt; exact k_flagged).
  rsimp. reflexivity.
Qed.

End GradientFacts.

(** X10.  The gradient [parameterGradient] writes is the gradient of the loss
    it returns: entry [k] of the buffer is the derivative of the loss with
    respect to entry [k] of the flat vector.  The link must be
    differentiable with the derivative its [derivative] facet returns, and
    the log-likelihood differentiable in the mean, with [gradient] the
    derivative of its negative, wherever the link takes values; under an L1
    penalty the coefficient must not be zero. *)
Theorem gradient_is_derivative (m : STM R) (inputCompl outputCompl : Matrix R)
    (x g : list R) (params : Parameters R) (k : nat)
    (derivative : R -> R) (dom : R -> Prop) :
  wf_STM m ->
  (offsetEnd m params <= length x)%nat ->
  rows outputCompl = dimOut m ->
  nl_derivative (mNonlinearity m) = Some derivative ->
  (forall r, derivable_pt_lim (nl_apply (mNonlinearity m)) r (derivative r)) ->
  (forall r, dom (nl_apply (mNonlinearity m) r)) ->
  (forall y mu, dom mu ->
     derivable_pt_lim (fun mu => ud_logLikelihood (mDistribution m) y mu) mu
                      (- ud_gradient (mDistribution m) y mu)) ->
  (k < offsetEnd m params)%nat ->
  (k < length g)%nat ->
  (inL1Block m params k = true -> nth k x 0 <> 0) ->
  exists (value : R) (gradient : list R),
    parameterGradient m inputCompl outputCompl x (Some g) params
    = Ok (value, Some gradient)
    /\ value = objectiveAt m inputCompl outputCompl params x
    /\ derivable_pt_lim
         (fun t => objectiveAt m inputCompl outputCompl params
                               (setCoeff x k t))
         (nth k x 0) (nth k gradient 0).
Proof.
  intros W Hx HY HD Hlink Hdom Hdist Hk Hg Hl1.
  rewrite (parameterGradient_total m inputCompl outputCompl x (Some g) params
             derivative HY HD).
  cbn [option_map]. eexists. eexists. split; [reflexivity|]. split.
  - unfold objectiveAt.
    rewrite (parameterGradient_total m inputCompl outputCompl x None params
               derivative HY HD).
    reflexivity.
  - rewrite (gradient_entry m params inputCompl outputCompl x k W Hx
               derivative Hk g Hg).
    apply (objective_D m params inputCompl outputCompl x k W Hx
             ltac:(lia) derivative dom Hlink Hdom Hdist HY HD Hl1).
Qed.

Lemma poissonSTM_wf : wf_STM poissonSTM.
Proof. constructor; cbn; lia. Defined.

Lemma poisson_D (y mu : R) :
  0 < mu ->
  derivable_pt_lim (fun mu => ud_logLikelihood poissonDistribution y mu) mu
                   (- ud_gradient poissonDistribution y mu).
Proof.
  intros Hmu. cbn [ud_logLikelihood ud_gradient poissonDistribution].
  apply (D_eq _ _ ((0 * ln mu + y * / mu) - 1)); [unfold Rdiv; lra|].
  apply (derivable_pt_lim_minus (fun mu => y * ln mu) (fun mu => mu)).
  - apply (D_mult (fun _ => y) ln); [apply D_const|].
    apply derivable_pt_lim_ln. exact Hmu.
  - apply D_id.
Qed.

(** The example model with an exponential link and a Poisson likelihood:
    the entry of the gradient for the first weight. *)
Lemma gradient_is_derivative_witness :
  exists (value : R) (gradient : list R),
    parameterGradient poissonSTM exampleInput exampleOutput
      (parameters poissonSTM defaultParameters) (Some (repeat 0 8))
      defaultParameters
    = Ok (value, Some gradient)
    /\ value = objectiveAt poissonSTM exampleInput exampleOutput
                           defaultParameters
                           (parameters poissonSTM defaultParameters)
    /\ derivable_pt_lim
         (fun t => objectiveAt poissonSTM exampleInput exampleOutput
                     defaultParameters
                     (setCoeff (parameters poissonSTM defaultParameters) 2 t))
         (nth 2 (parameters poissonSTM defaultParameters) 0)
         (nth 2 gradient 0).
Proof.
  apply (gradient_is_derivative poissonSTM exampleInput exampleOutput
           (parameters poissonSTM defaultParameters) (repeat 0 8)
           defaultParameters 2 exp (fun mu => 0 < mu)
           poissonSTM_wf (Nat.le_refl 8) eq_refl eq_refl).
  - intros r. apply derivable_pt_lim_exp.
  - intros r. apply exp_pos.
  - intros y mu Hmu. apply poisson_D. exact Hmu.
  - cbn. lia.
  - cbn. lia.
  - intros H. discriminate H.
Defined.

(* ===================================================================== *)
(** * The blocks the objective reads from the model *)
(* ===================================================================== *)

Section FrozenFacts.

Context {T : Type} {ST : Scalar T}.
Local Open Scope nat_scope.

Variable m : STM T.
Variable params : Parameters T.
Variable y : list T.

Let written : STM T := setParameters m y params.

Lemma biasesView_written (x : list T) :
  biasesView written params x = biasesView m params x.
Proof.
  unfold written. rewrite setParameters_blocks. unfold biasesView.
  cbn [mBiases mNumComponents]. destruct (trainBiases params); reflexivity.
Qed.

Lemma weightsView_written (x : list T) :
  weightsView written params x = weightsView m params x.
Proof.
  unfold written. rewrite setParameters_blocks.
  unfold weightsView, offsetWeights.
  cbn [mWeights mNumComponents mNumFeatures].
  destruct (trainWeights params); reflexivity.
Qed.

Lemma featuresView_written (x : list T) :
  featuresView written params x = featuresView m params x.
Proof.
  unfold written. rewrite setParameters_blocks.
  unfold featuresView, offsetFeatures, offsetWeights, dimInNonlinear.
  cbn [mFeatures mNumComponents mNumFeatures mDimInNonlinear].
  destruct (trainFeatures params); reflexivity.
Qed.

Lemma predictorsView_written (x : list T) :
  predictorsView written params x = predictorsView m params x.
Proof.
  unfold written. rewrite setParameters_blocks.
  unfold predictorsView, offsetPredictors, offsetFeatures, offsetWeights,
    dimInNonlinear.
  cbn [mPredictors mNumComponents mNumFeatures mDimInNonlinear].
  destruct (trainPredictors params); reflexivity.
Qed.

Lemma linearPredictorView_written (x : list T) :
  linearPredictorView written params x = linearPredictorView m params x.
Proof.
  unfold written. rewrite setParameters_blocks.
  unfold linearPredictorView, offsetLinearPredictor, offsetPredictors,
    offsetFeatures, offsetWeights, dimInNonlinear, dimInLinear.
  cbn [mLinearPredictor mNumComponents mNumFeatures mDimInNonlinear
       mDimInLinear].
  destruct (trainLinearPredictor params); reflexivity.
Qed.

Lemma written_shape :
  mDimInNonlinear written = mDimInNonlinear m
  /\ mDimInLinear written = mDimInLinear m
  /\ mNumComponents written = mNumComponents m
  /\ mNumFeatures written = mNumFeatures m
  /\ mNonlinearity written = mNonlinearity m
  /\ mDistribution written = mDistribution m.
Proof. unfold written. rewrite setParameters_blocks. repeat split. Qed.

Lemma offsets_written :
  offsetWeights written params = offsetWeights m params
  /\ offsetFeatures written params = offsetFeatures m params
  /\ offsetPredictors written params = offsetPredictors m params
  /\ offsetLinearPredictor written params = offsetLinearPredictor m params
  /\ offsetEnd written params = offsetEnd m params.
Proof.
  destruct written_shape as (Dn & Dl & DK & DF & _ & _).
  unfold offsetEnd, offsetLinearPredictor, offsetPredictors, offsetFeatures,
    offsetWeights, dimInNonlinear, dimInLinear.
  rewrite Dn, Dl, DK, DF. repeat split.
Qed.

Lemma batchStep_written nonlinearity derivative
    (inputCompl outputCompl : Matrix T) (x : list T) batchSize b acc :
  batchStep written params nonlinearity derivative inputCompl outputCompl x
            batchSize b acc
  = batchStep m params nonlinearity derivative inputCompl outputCompl x
              batchSize b acc.
Proof.
  destruct written_shape as (Dn & Dl & DK & DF & _ & Dud).
  destruct offsets_written as (OW & OF & OP & OL & _).
  unfold batchStep.
  rewrite biasesView_written, weightsView_written, featuresView_written,
    predictorsView_written, linearPredictorView_written.
  unfold dimInNonlinear, dimInLinear in *.
  rewrite Dn, Dl, Dud, OW, OF, OP, OL. reflexivity.
Qed.

Lemma fold_left_pointwise {A B : Type} (f h : A -> B -> A) (l : list B)
    (a : A) :
  (forall a b, f a b = h a b) -> fold_left f l a = fold_left h l a.
Proof.
  intros E. revert a. induction l as [|b l IH]; intros a; cbn [fold_left].
  - reflexivity.
  - rewrite E. apply IH.
Qed.

Lemma initGradient_written (g : list T) :
  initGradient written params g = initGradient m params g.
Proof.
  destruct written_shape as (Dn & Dl & DK & DF & _ & _).
  destruct offsets_written as (OW & OF & OP & OL & _).
  unfold initGradient, dimInNonlinear, dimInLinear in *.
  rewrite Dn, Dl, DK, DF, OW, OF, OP, OL. reflexivity.
Qed.

Lemma regularizeGradient_written (x g : list T) :
  regularizeGradient written params x g = regularizeGradient m params x g.
Proof.
  destruct offsets_written as (OW & OF & OP & OL & _).
  unfold regularizeGradient.
  rewrite weightsView_written, featuresView_written, predictorsView_written,
    linearPredictorView_written, OW, OF, OP, OL.
  reflexivity.
Qed.

Lemma regularizeValue_written (x : list T) (value : T) :
  regularizeValue written params x value = regularizeValue m params x value.
Proof.
  unfold regularizeValue.
  rewrite weightsView_written, featuresView_written, predictorsView_written,
    linearPredictorView_written.
  reflexivity.
Qed.

(** X11.  [parameterGradient] never reads the model's own copy of a block
    that is flagged trainable: whatever vector [setParameters] has written
    into the flagged blocks, the loss and the gradient at [x] are the same.
    The model enters through its dimensions, its collaborators and the
    blocks that are not flagged. *)
Theorem flagged_blocks_are_not_read (inputCompl outputCompl : Matrix T)
    (x : list T) (g : option (list T)) :
  (forall schedule : list nat,
     parameterGradient_omp (setParameters m y params) inputCompl outputCompl
                           x g params schedule
     = parameterGradient_omp m inputCompl outputCompl x g params schedule)
  /\ parameterGradient (setParameters m y params) inputCompl outputCompl
                       x g params
     = parameterGradient m inputCompl outputCompl x g params.
Proof.
  assert (H : forall schedule,
             parameterGradient_omp written inputCompl outputCompl x g params
                                   schedule
             = parameterGradient_omp m inputCompl outputCompl x g params
                                     schedule).
  { intros schedule.
    destruct written_shape as (_ & _ & _ & _ & Dnl & _).
    destruct offsets_written as (_ & _ & _ & _ & OE).
    unfold parameterGradient_omp, objectiveAndGradient, accumulate.
    rewrite Dnl. destruct (nl_derivative (mNonlinearity m)); [|reflexivity].
    cbv zeta.
    rewrite (fold_left_pointwise _
               (fun acc b =>
                  batchStep m params (nl_apply (mNonlinearity m)) t
                            inputCompl outputCompl x
                            (effectiveBatchSize params (cols inputCompl))
                            b acc))
      by (intros; apply batchStep_written).
    rewrite OE.
    replace (option_map (initGradient written params) g)
      with (option_map (initGradient m params) g)
      by (destruct g; cbn [option_map]; rewrite ?initGradient_written;
          reflexivity).
    change (normConst written inputCompl) with (normConst m inputCompl).
    rewrite regularizeValue_written.
    match goal with
    | |- context [snd ?acc] => destruct (snd acc) as [g'|]
    end; cbn [option_map]; rewrite ?regularizeGradient_written; reflexivity. }
  split; [exact H|]. unfold parameterGradient. apply H.
Qed.

End FrozenFacts.

(* ===================================================================== *)
(** * What a model trained without inputs predicts *)
(* ===================================================================== *)

Section ConstantModelFacts.

Variable glmRandomWeights : nat -> list R.
Variable glmRandomBias : R.
Variable glmDefaultParameters : GLMParameters.
Variable glmTrain :
  GLM R -> Matrix R -> Matrix R -> option (Matrix R * Matrix R) ->
  GLMParameters -> result (bool * GLM R).
Variable trainableTrain :
  STM R -> Matrix R -> Matrix R -> option (Matrix R) -> option (Matrix R) ->
  Parameters R -> result bool * STM R.

(** X12.  After [train] on a model without inputs, the response on every
    input column is the inverse link of the mean of the outputs (of 1e-50
    when the mean lies in [0, 1e-50)): pooling the K equal biases cancels
    the - ln K.  Where the link undoes its inverse, the model predicts the
    mean itself. *)
Theorem trained_constant_model_predicts_mean (m : STM R)
    (input output : Matrix R) (inputVal outputVal : option (Matrix R))
    (params : Parameters R) (inverse : R -> R) :
  wf_STM m ->
  dimIn m = 0%nat ->
  nl_inverse (mNonlinearity m) = Some inverse ->
  let trained :=
    snd (train glmRandomWeights glmRandomBias glmDefaultParameters glmTrain
               trainableTrain m input output inputVal outputVal params) in
  let mu := trainingMean output in
  wf_STM trained
  /\ forall X : Matrix R,
       rows X = 0%nat ->
       response trained X = Ok (repeat (inverse mu) (cols X))
       /\ (nl_apply (mNonlinearity m) (inverse mu) = mu ->
           (do r <- response trained X;
            Ok (map (nl_apply (mNonlinearity trained)) r))
           = Ok (repeat mu (cols X))).
Proof.
  intros W Hd Hi trained mu.
  assert (Et : trained
               = assignBiases m
                   (repeat (inverse mu - ln (INR (mNumComponents m)))
                           (mNumComponents m))).
  { unfold trained, train. rewrite Hd, Hi. cbn [Nat.eqb snd]. cbv zeta.
    rewrite setConstant_repeat, (wf_biases W).
    unfold numComponents, mu, trainingMean. rsimp.
    rewrite <- INR_IZR_INZ. reflexivity. }
  assert (Wt : wf_STM trained).
  { rewrite Et. destruct W. constructor; cbn; try assumption.
    apply repeat_length. }
  assert (Hresp : forall X : Matrix R,
             rows X = 0%nat ->
             response trained X = Ok (repeat (inverse mu) (cols X))).
  { intros X HX. rewrite response_unfold.
    assert (Ed : dimIn trained = 0%nat) by (rewrite Et; exact Hd).
    assert (El : dimInLinear trained = 0%nat)
      by (unfold dimIn in Ed; lia).
    rewrite Ed, El, HX. cbn [Nat.eqb negb].
    rewrite (pooledBias_logsumexp trained Wt).
    rewrite Et at 1. cbn [assignBiases mBiases].
    rewrite logsumexp_repeat by apply (wf_components W).
    do 2 f_equal. lra. }
  split; [exact Wt|]. intros X HX. split; [apply Hresp; exact HX|].
  intros Hinv. rewrite (Hresp X HX). cbn [bind]. f_equal.
  rewrite map_repeat. f_equal.
  rewrite Et. cbn [assignBiases mNonlinearity]. exact Hinv.
Qed.

End ConstantModelFacts.

(** The model without inputs and with the exponential link, trained on an
    output of mean 1e-60: the response is ln 1e-50 on every column. *)
Lemma trained_constant_model_predicts_mean_witness :
  response
    (snd (train (fun n => repeat 0 n) 0 exampleGlmDefaults exampleGlmTrain
                exampleTrainableTrain
                (noInputSTM (exponentialFunction (/ 2))) (noInput 1)
                tinyOutput None None defaultParameters))
    (noInput 3)
  = Ok (repeat (ln (trainingMean tinyOutput)) 3).
Proof.
  exact (proj1 (proj2 (trained_constant_model_predicts_mean
                         (fun n => repeat 0 n) 0 exampleGlmDefaults
                         exampleGlmTrain exampleTrainableTrain
                         (noInputSTM (exponentialFunction (/ 2))) (noInput 1)
                         tinyOutput None None defaultParameters ln
                         (noInputSTM_wf _) eq_refl eq_refl)
                      (noInput 3) eq_refl)).
Defined.

(* ===================================================================== *)
(** * Construction *)
(* ===================================================================== *)

Section ConstructionFacts.

Context {T : Type} {ST : Scalar T}.

Variable defaultNonlinearity : Nonlinearity T.
Variable defaultDistribution : UnivariateDistribution T.
Variable randomBiases : nat -> T.
Variable randomWeights : nat -> nat -> T.
Variable normalFeatures : nat -> nat -> T.
Variable normalPredictors : nat -> nat -> T.
Variable normalLinearPredictor : nat -> nat -> T.

Let new2 :=
  STM_new2 defaultNonlinearity defaultDistribution randomBiases randomWeights
           normalFeatures normalPredictors normalLinearPredictor.
Let new1 :=
  STM_new defaultNonlinearity defaultDistribution randomBiases randomWeights
          normalFeatures normalPredictors.

(** X13.  The constructor rejects a negative input dimensionality and then a
    number of components below one; otherwise it returns a model of the
    requested dimensions that satisfies the class invariant, with as many
    features as nonlinear inputs when the requested number is negative, and
    with the default collaborators where none is given.  The constructor
    without a linear dimensionality builds the same model as the general one
    with zero linear inputs. *)
Theorem constructor_establishes_invariant
    (dimInNonlinear dimInLinear numComponents numFeatures : Z)
    (nonlinearity : option (Nonlinearity T))
    (distribution : option (UnivariateDistribution T)) :
  let made :=
    new2 dimInNonlinear dimInLinear numComponents numFeatures nonlinearity
         distribution in
  ((dimInNonlinear < 0 \/ dimInLinear < 0)%Z ->
   made = Throw "The input dimensionality has to be non-negative.")
  /\ ((0 <= dimInNonlinear)%Z -> (0 <= dimInLinear)%Z ->
      (numComponents < 1)%Z ->
      made = Throw "The number of components has to be positive.")
  /\ ((0 <= dimInNonlinear)%Z -> (0 <= dimInLinear)%Z ->
      (1 <= numComponents)%Z ->
      exists m : STM T,
        made = Ok m
        /\ wf_STM m
        /\ Z.of_nat (mDimInNonlinear m) = dimInNonlinear
        /\ Z.of_nat (mDimInLinear m) = dimInLinear
        /\ Z.of_nat (mNumComponents m) = numComponents
        /\ Z.of_nat (mNumFeatures m)
           = (if (numFeatures <? 0)%Z then dimInNonlinear else numFeatures)
        /\ mNonlinearity m
           = match nonlinearity with
             | Some nonlinearity => nonlinearity
             | None => defaultNonlinearity
             end
        /\ mDistribution m
           = match distribution with
             | Some distribution => distribution
             | None => defaultDistribution
             end)
  /\ new1 dimInNonlinear numComponents numFeatures nonlinearity distribution
     = new2 dimInNonlinear 0 numComponents numFeatures nonlinearity
            distribution.
Proof.
  cbv zeta. unfold new1, new2, STM_new, STM_new2.
  split; [|split; [|split]].
  - intros H.
    replace ((dimInNonlinear <? 0)%Z || (dimInLinear <? 0)%Z) with true;
      [reflexivity|].
    symmetry. apply orb_true_iff.
    destruct H as [H|H]; [left|right]; apply Z.ltb_lt; exact H.
  - intros Hn Hl HK.
    replace (dimInNonlinear <? 0)%Z with false
      by (symmetry; apply Z.ltb_ge; exact Hn).
    replace (dimInLinear <? 0)%Z with false
      by (symmetry; apply Z.ltb_ge; exact Hl).
    replace (numComponents <? 1)%Z with true
      by (symmetry; apply Z.ltb_lt; exact HK).
    reflexivity.
  - intros Hn Hl HK.
    replace (dimInNonlinear <? 0)%Z with false
      by (symmetry; apply Z.ltb_ge; exact Hn).
    replace (dimInLinear <? 0)%Z with false
      by (symmetry; apply Z.ltb_ge; exact Hl).
    replace (numComponents <? 1)%Z with false
      by (symmetry; apply Z.ltb_ge; exact HK).
    cbn [orb]. eexists. split; [reflexivity|].
    cbn [mDimInNonlinear mDimInLinear mNumComponents mNumFeatures
         mNonlinearity mDistribution].
    split; [|repeat split; try lia].
    + constructor;
        cbn [mDimInNonlinear mDimInLinear mNumComponents mNumFeatures
             mBiases mWeights mFeatures mPredictors mLinearPredictor];
        unfold initialBlock, initialBiases;
        rewrite ?length_data_mk_matrix, ?length_map, ?length_seq;
        cbn [rows cols mk_matrix]; try reflexivity; lia.
    + destruct (numFeatures <? 0)%Z eqn:E; [lia|].
      apply Z.ltb_ge in E. lia.
  - replace (0 <? 0)%Z with false by reflexivity.
    rewrite orb_false_r. reflexivity.
Qed.

End ConstructionFacts.

(* ===================================================================== *)
(** * Small runs *)
(* ===================================================================== *)

(** Twenty-five examples with a configured batch size of 3: the batch size
    used is 10 and the batches start at columns 0, 10 and 20. *)
Example effectiveBatchSize_small :
  effectiveBatchSize (setBatchSize defaultParameters 3) 25 = 10%nat.
Proof. reflexivity. Qed.

Example batchStarts_25 : batchStarts 25 10 = [0; 10; 20]%nat.
Proof. reflexivity. Qed.

Example batchColumns_last : batchColumns 25 10 20 = [20; 21; 22; 23; 24]%nat.
Proof. reflexivity. Qed.

(** Four examples: the batch size is capped by the number of examples. *)
Example effectiveBatchSize_capped :
  effectiveBatchSize defaultParameters 4 = 4%nat.
Proof. reflexivity. Qed.

Example numParameters_example :
  numParameters exampleSTM defaultParameters = 8%nat
  /\ offsetEnd exampleSTM defaultParameters = 8%nat.
Proof. split; reflexivity. Qed.

Example parameters_example :
  parameters exampleSTM defaultParameters = [0; 1; 1; 2; 1; 0; 1; 3].
Proof. reflexivity. Qed.

(** Entry (1, 0) of the stacked example input is its linear input. *)
Example bottomRows_example : coeff (bottomRows exampleInput 1) 0 0 = 2.
Proof. reflexivity. Qed.

(** A link without an inverse: training a model without inputs throws and
    leaves the model as it was. *)
Example train_not_invertible :
  train (fun n => repeat 0 n) 0 exampleGlmDefaults exampleGlmTrain
        exampleTrainableTrain
        (noInputSTM squareFunction) (noInput 1) tinyOutput None None
        defaultParameters
  = (Throw "Nonlinearity has to be invertible for training.",
     noInputSTM squareFunction).
Proof. reflexivity. Qed.
